(** * Recruitment Agent: the resume-matching endpoint of [main.py]

    A shallow embedding of [_read_upload_text], [_shorten],
    [_gemini_generate], [_scoring_prompt] and [match_resumes], together with
    the parts of the Python run time they rest on ([str] methods, [int],
    [str], [json.loads], [re.search], [bytes.decode], [list.sort]).

    Conventions.
    - A Python [str] is a list of Unicode code points ([list N]); a [bytes]
      object is a [list byte].
    - A call that may raise returns [exn + A]: [inl e] is "raises [e]",
      [inr a] is "returns [a]".
    - What lives outside the repository and cannot be written down here
      (the generation service, the PDF and DOCX readers, the Unicode
      character database, [repr] of floats and strings, the room the
      interpreter's recursion limit leaves) is a field of the record
      [Platform]; every definition and theorem is stated for an arbitrary
      platform. *)

From Stdlib Require Import String Ascii DecimalString DecimalPos.
From Stdlib.Strings Require Import Byte.
From Stdlib Require Import List ZArith NArith Bool Lia.
From Stdlib Require Import Permutation Sorted.
Import ListNotations.

Set Implicit Arguments.

(** ** Text *)

Definition char := N.
Definition str := list char.
Definition bytes := list byte.

(** An ASCII literal as a [str]. *)
Definition lit (s : string) : str :=
  map N_of_ascii (list_ascii_of_string s).

(** The same, with every backquote of the literal standing for a double
    quote (code point 34). *)
Definition dq (s : string) : str :=
  map (fun c => if N.eqb c 96 then 34%N else c) (lit s).

Definition str_eqb (a b : str) : bool :=
  if list_eq_dec N.eq_dec a b then true else false.

Fixpoint startswith (s p : str) : bool :=
  match p, s with
  | [], _ => true
  | _ :: _, [] => false
  | c :: p', d :: s' => N.eqb c d && startswith s' p'
  end.

(** [s.endswith(suffix)] *)
Definition endswith (s suffix : str) : bool :=
  startswith (rev s) (rev suffix).

(** [sep.join(parts)] *)
Fixpoint join (sep : str) (parts : list str) : str :=
  match parts with
  | [] => []
  | [p] => p
  | p :: rest => p ++ sep ++ join sep rest
  end.

(** [str.isspace] on one code point ([Py_UNICODE_ISSPACE]). *)
Definition isspace (c : char) : bool :=
  ((9 <=? c) && (c <=? 13) || (28 <=? c) && (c <=? 32)
   || (c =? 133) || (c =? 160) || (c =? 5760)
   || (8192 <=? c) && (c <=? 8202)
   || (c =? 8232) || (c =? 8233) || (c =? 8239) || (c =? 8287)
   || (c =? 12288))%N.

Fixpoint lstrip (s : str) : str :=
  match s with
  | c :: s' => if isspace c then lstrip s' else s
  | [] => []
  end.

(** [s.strip()] *)
Definition strip (s : str) : str := rev (lstrip (rev (lstrip s))).

(** [str(n)] for an integer [n]. *)
Definition str_of_Z (z : Z) : str :=
  lit (NilZero.string_of_int (Z.to_int z)).

(** What precedes the last newline of [s], when it has one. *)
Fixpoint before_last_newline (s : str) : option str :=
  match s with
  | [] => None
  | c :: s' =>
      match before_last_newline s' with
      | Some t => Some (c :: t)
      | None => if N.eqb c 10 then Some [] else None
      end
  end.

(** [s.rsplit("\n", 1)[0]]: what precedes the last newline of [s], and [s]
    itself when it has none. *)
Definition rsplit_newline_head (s : str) : str :=
  match before_last_newline s with Some t => t | None => s end.

(** ** Exceptions

    The classes the program can meet, all of them subclasses of
    [Exception]; [LibraryError] stands for whatever the generation client,
    the PDF reader or the DOCX reader raise. *)

Inductive exn : Type :=
| HTTPException (status_code : Z) (detail : str)
| JSONDecodeError (msg : str) (lineno colno pos : nat)
| ValueError (msg : str)
| TypeError (msg : str)
| AttributeError (msg : str)
| OverflowError (msg : str)
| RecursionError (msg : str)
| LibraryError (msg : str).

Definition str_of_nat (n : nat) : str := str_of_Z (Z.of_nat n).

(** [str(e)], as the f-string [f"...{e}"] renders an exception; for an
    [HTTPException] it is Starlette's [f"{status_code}: {detail}"]. *)
Definition exn_str (e : exn) : str :=
  match e with
  | HTTPException c d => str_of_Z c ++ lit ": " ++ d
  | JSONDecodeError m l c p =>
      m ++ lit ": line " ++ str_of_nat l ++ lit " column " ++ str_of_nat c
        ++ lit " (char " ++ str_of_nat p ++ lit ")"
  | ValueError m | TypeError m | AttributeError m | OverflowError m
  | RecursionError m | LibraryError m => m
  end.

Definition result (A : Type) : Type := (exn + A)%type.

Definition bind {A B} (r : result A) (k : A -> result B) : result B :=
  match r with
  | inl e => inl e
  | inr a => k a
  end.

Notation "'let*' x ':=' r 'in' k" := (bind r (fun x => k))
  (at level 61, x pattern, r at next level, right associativity).

(** ** Floats

    A Python [float] is an IEEE 754 binary64 number: not-a-number, an
    infinity, or [(-1)^neg * m * 2^e] with [0 <= m < 2^53] and
    [-1074 <= e <= 971]. *)

Inductive pyfloat : Type :=
| FNan
| FInf (neg : bool)
| FFin (neg : bool) (m e : Z).

Section Floats.
Local Open Scope Z_scope.

(** The binary64 number nearest to [num / den] (ties to even), for
    [0 <= num] and [0 < den]: what [float(literal)] computes. *)
Definition round_ratio (neg : bool) (num den : Z) : pyfloat :=
  if num =? 0 then FFin neg 0 0 else
  let k := Z.log2 num - Z.log2 den in
  let above := if 0 <=? k then den * 2 ^ k <=? num
               else den <=? num * 2 ^ (- k) in
  let fl := if above then k else k - 1 in
  let e := Z.max (fl - 52) (-1074) in
  let n' := if 0 <=? e then num else num * 2 ^ (- e) in
  let d' := if 0 <=? e then den * 2 ^ e else den in
  let q := n' / d' in
  let r := n' mod d' in
  let q' := if (d' <? 2 * r) || ((d' =? 2 * r) && Z.odd q)
            then q + 1 else q in
  let m := if q' =? 2 ^ 53 then 2 ^ 52 else q' in
  let e' := if q' =? 2 ^ 53 then e + 1 else e in
  if 971 <? e' then FInf neg
  else if m =? 0 then FFin neg 0 0
  else FFin neg m e'.

(** The float denoted by the decimal [(-1)^neg * m * 10^e]. *)
Definition float_of_decimal (neg : bool) (m e : Z) : pyfloat :=
  if 0 <=? e then round_ratio neg (m * 10 ^ e) 1
  else round_ratio neg m (10 ^ (- e)).

(** [int(f)]: truncation toward zero. *)
Definition int_of_float (f : pyfloat) : result Z :=
  match f with
  | FNan => inl (ValueError (lit "cannot convert float NaN to integer"))
  | FInf _ =>
      inl (OverflowError (lit "cannot convert float infinity to integer"))
  | FFin neg m e =>
      let a := if 0 <=? e then m * 2 ^ e else m / 2 ^ (- e) in
      inr (if neg then - a else a)
  end.

(** [bool(f)] *)
Definition float_truthy (f : pyfloat) : bool :=
  match f with
  | FFin _ m _ => negb (m =? 0)
  | _ => true
  end.

End Floats.

(** ** What the repository does not contain *)

Record Platform : Type := {
  (** [client.models.generate_content(...)] followed by [.text], for the
      [n]-th call of a request and its prompt (the model name and the
      generation settings are those of the one call site in
      [match_resumes]): it raises, or yields [resp.text], which may be
      [None]. *)
  generate_content : nat -> str -> result (option str);
  (** [pdfplumber.open(...)] and [extract_text()] on each page. *)
  pdf_page_texts : bytes -> result (list (option str));
  (** [docx.Document(...)] and [.text] of each paragraph. *)
  docx_paragraph_texts : bytes -> result (list str);
  (** The number of recursive calls the interpreter's recursion limit
      still allows where the scanner of [json.loads] runs, when
      [match_resumes] calls it. *)
  json_max_depth : nat;
  (** [repr] of a float and of a string. *)
  float_repr : pyfloat -> str;
  str_repr : str -> str;
  (** Unicode character database: the decimal digit value of a code point
      above ASCII ([Py_UNICODE_TODECIMAL]), and [str.lower]. *)
  unicode_decimal : char -> option N;
  str_lower : str -> str
}.

(** ** Python values, as [json.loads] builds them *)

#[local] Unset Elimination Schemes.
Inductive pyval : Type :=
| PNone
| PBool (b : bool)
| PInt (z : Z)
| PFloat (f : pyfloat)
| PStr (s : str)
| PList (l : list pyval)
| PDict (d : list (str * pyval)).
#[local] Set Elimination Schemes.

(** A [dict] is kept as its items in insertion order, keys distinct. *)
Definition pydict := list (str * pyval).

(** [d[k] = v] *)
Fixpoint dict_set (d : pydict) (k : str) (v : pyval) : pydict :=
  match d with
  | [] => [(k, v)]
  | (k', v') :: d' =>
      if str_eqb k' k then (k', v) :: d' else (k', v') :: dict_set d' k v
  end.

(** [dict(pairs)] *)
Definition dict_of_pairs (pairs : list (str * pyval)) : pydict :=
  fold_left (fun d kv => dict_set d (fst kv) (snd kv)) pairs [].

(** [d.get(k, default)] *)
Fixpoint dict_get (d : pydict) (k : str) (default : pyval) : pyval :=
  match d with
  | [] => default
  | (k', v) :: d' => if str_eqb k' k then v else dict_get d' k default
  end.

(** [bool(v)], the test behind [v or ""]. *)
Definition truthy (v : pyval) : bool :=
  match v with
  | PNone => false
  | PBool b => b
  | PInt z => negb (Z.eqb z 0)
  | PFloat f => float_truthy f
  | PStr s => match s with [] => false | _ => true end
  | PList l => match l with [] => false | _ => true end
  | PDict d => match d with [] => false | _ => true end
  end.

(** [type(v).__name__] *)
Definition type_name (v : pyval) : str :=
  match v with
  | PNone => lit "NoneType"
  | PBool _ => lit "bool"
  | PInt _ => lit "int"
  | PFloat _ => lit "float"
  | PStr _ => lit "str"
  | PList _ => lit "list"
  | PDict _ => lit "dict"
  end.

(** ** Integers from text: [int(s)] and the decoder's integer literals *)

Section IntOfStr.
Local Open Scope N_scope.

Definition is_digit (c : char) : bool := (48 <=? c) && (c <=? 57).

(** C's [isspace] in the "C" locale ([Py_ISSPACE]). *)
Definition c_isspace (c : char) : bool :=
  (9 <=? c) && (c <=? 13) || (c =? 32).

Fixpoint skip_c_space (s : str) : str :=
  match s with
  | c :: s' => if c_isspace c then skip_c_space s' else s
  | [] => []
  end.

(** [sys.get_int_max_str_digits()] *)
Definition int_max_str_digits : nat := 4300.

Inductive scanned : Type := Nothing | Digit | Underscore.

(** The digit loop of [PyLong_FromString] in base 10: digits with single
    underscores between them.  It yields the value, the number of digits
    and what follows, or [None] where CPython reports a syntax error. *)
Fixpoint scan_digits (prev : scanned) (acc : Z) (n : nat) (s : str)
  : option (Z * nat * str) :=
  let finish := match prev with
                | Digit => Some (acc, n, s)
                | _ => None
                end in
  match s with
  | [] => finish
  | c :: s' =>
      if is_digit c
      then scan_digits Digit (10 * acc + Z.of_N (c - 48))%Z (S n) s'
      else if c =? 95
      then match prev with
           | Digit => scan_digits Underscore acc n s'
           | _ => None
           end
      else finish
  end.

(** [PyLong_FromString(s, NULL, 10)] on text already reduced to ASCII. *)
Definition long_from_string (s : str) : option (result Z) :=
  let s1 := skip_c_space s in
  let neg := match s1 with c :: _ => c =? 45 | [] => false end in
  let s2 := match s1 with
            | c :: s' => if (c =? 43) || (c =? 45) then s' else s1
            | [] => s1
            end in
  match scan_digits Nothing 0%Z 0%nat s2 with
  | None => None
  | Some (v, n, rest) =>
      if Nat.ltb int_max_str_digits n
      then Some (inl (ValueError
             (lit "Exceeds the limit (4300 digits) for integer string conversion: value has "
              ++ str_of_nat n
              ++ lit " digits; use sys.set_int_max_str_digits() to increase the limit")))
      else
        match skip_c_space rest with
        | [] => Some (inr (if neg then (- v)%Z else v))
        | _ :: _ => None
        end
  end.

End IntOfStr.

(** ** [json.loads]

    The decoder of CPython's [json] package with its default settings
    (strict strings, [NaN] and the infinities accepted, objects as [dict]),
    written after [scan_once], [scanstring], the object and array loops and
    the number matcher of the C scanner.  The functions consume a suffix of
    the document and return what is left; an error records how many
    characters were left where it was raised, from which [loads] recovers
    the position.

    The interpreter's recursion limit (CPython 3.11) is part of the
    decoder: [depth] is the number of recursive calls the limit still
    allows where the scanner runs.  The scanner uses one for every array
    and every object it has open, needs one to look up [NaN] or an
    infinity, and needs three to build a [JSONDecodeError] where it finds
    a syntax error; without them it raises [RecursionError]. *)

Module Json.
Section Decoder.
Local Open Scope N_scope.

Inductive scan_error : Type :=
| Syntax (msg : str) (remaining : nat)
| Stop (remaining : nat)
| Raised (e : exn)
| Exhausted.

Definition scan (A : Type) : Type := (scan_error + (A * str))%type.

(** [RecursionError] as [_Py_CheckRecursiveCall] raises it. *)
Definition recursion_error (where_ : string) : exn :=
  RecursionError (lit "maximum recursion depth exceeded" ++ lit where_).

(** Calling [JSONDecodeError(msg, doc, pos)] with [depth] recursive calls
    left: the call of the class, the frame of [__init__] and a method call
    inside it each need one. *)
Definition construction_failure (depth : nat) : option exn :=
  match depth with
  | 0%nat => Some (recursion_error " while calling a Python object")
  | 1%nat => Some (recursion_error "")
  | 2%nat => Some (recursion_error " while calling a Python object")
  | _ => None
  end.

(** [raise_errmsg] of the C scanner, [depth] recursive calls being left. *)
Definition errmsg (depth : nat) (msg : string) (remaining : nat)
  : scan_error :=
  match construction_failure depth with
  | Some e => Raised e
  | None => Syntax (lit msg) remaining
  end.

Definition is_ws (c : char) : bool :=
  (c =? 32) || (c =? 9) || (c =? 10) || (c =? 13).

Fixpoint skip_ws (s : str) : str :=
  match s with
  | c :: s' => if is_ws c then skip_ws s' else s
  | [] => []
  end.

Definition hex_value (c : char) : option N :=
  if (48 <=? c) && (c <=? 57) then Some (c - 48)
  else if (97 <=? c) && (c <=? 102) then Some (c - 87)
  else if (65 <=? c) && (c <=? 70) then Some (c - 55)
  else None.

Definition hex4 (a b c d : char) : option N :=
  match hex_value a, hex_value b, hex_value c, hex_value d with
  | Some x, Some y, Some z, Some w => Some (((x * 16 + y) * 16 + z) * 16 + w)
  | _, _, _, _ => None
  end.

Definition is_high_surrogate (c : N) : bool := (55296 <=? c) && (c <=? 56319).
Definition is_low_surrogate (c : N) : bool := (56320 <=? c) && (c <=? 57343).
Definition join_surrogates (hi lo : N) : N :=
  65536 + (hi - 55296) * 1024 + (lo - 56320).

(** The character a one-letter escape stands for. *)
Definition simple_escape (c : char) : option char :=
  if (c =? 34) || (c =? 92) || (c =? 47) then Some c
  else if c =? 98 then Some 8
  else if c =? 102 then Some 12
  else if c =? 110 then Some 10
  else if c =? 114 then Some 13
  else if c =? 116 then Some 9
  else None.

(** [scanstring]: [s] follows the opening quote, which had [start]
    characters left; [acc] holds the characters read so far, last first.
    As in the C scanner, the four digits of a [\u] escape must not be the
    last characters of the document, and a second escape is looked at for a
    surrogate pair only when something follows it. *)
Fixpoint scanstring (start : nat) (acc : str) (s : str) : scan str :=
  match s with
  | [] => inl (Syntax (lit "Unterminated string starting at") start)
  | c :: s1 =>
      if c =? 34 then inr (rev acc, s1)
      else if c =? 92 then
        match s1 with
        | [] => inl (Syntax (lit "Unterminated string starting at") start)
        | e :: s2 =>
            if e =? 117 then
              match s2 with
              | h1 :: h2 :: h3 :: h4 :: ((_ :: _) as s3) =>
                  match hex4 h1 h2 h3 h4 with
                  | None =>
                      inl (Syntax (lit "Invalid \uXXXX escape") (length s1))
                  | Some u =>
                      match s3 with
                      | b :: v :: g1 :: g2 :: g3 :: g4 :: ((_ :: _) as s4) =>
                          if is_high_surrogate u && (b =? 92) && (v =? 117)
                          then
                            match hex4 g1 g2 g3 g4 with
                            | None =>
                                inl (Syntax (lit "Invalid \uXXXX escape")
                                       (S (length (g1 :: g2 :: g3 :: g4 :: s4))))
                            | Some u2 =>
                                if is_low_surrogate u2
                                then scanstring start
                                       (join_surrogates u u2 :: acc) s4
                                else scanstring start (u :: acc) s3
                            end
                          else scanstring start (u :: acc) s3
                      | _ => scanstring start (u :: acc) s3
                      end
                  end
              | _ => inl (Syntax (lit "Invalid \uXXXX escape") (length s1))
              end
            else
              match simple_escape e with
              | Some x => scanstring start (x :: acc) s2
              | None => inl (Syntax (lit "Invalid \escape") (length s))
              end
        end
      else if c <=? 31
      then inl (Syntax (lit "Invalid control character at") (length s))
      else scanstring start (c :: acc) s1
  end.

(** Leading decimal digits of [s], and what follows them. *)
Fixpoint span_digits (s : str) : str * str :=
  match s with
  | c :: s' =>
      if is_digit c
      then let (ds, rest) := span_digits s' in (c :: ds, rest)
      else ([], s)
  | [] => ([], [])
  end.

Definition digits_value (ds : str) : Z :=
  fold_left (fun acc c => (10 * acc + Z.of_N (c - 48))%Z) ds 0%Z.

(** The integer part of a number: [0], or a digit from 1 to 9 and more
    digits. *)
Definition int_part (s : str) : option (str * str) :=
  match s with
  | c :: s' =>
      if c =? 48 then Some ([c], s')
      else if (49 <=? c) && (c <=? 57)
      then let (ds, rest) := span_digits s' in Some (c :: ds, rest)
      else None
  | [] => None
  end.

(** [.digits], when a dot and a digit follow. *)
Definition frac_part (s : str) : option (str * str) :=
  match s with
  | c :: s' =>
      if c =? 46 then
        match span_digits s' with
        | ([], _) => None
        | (ds, rest) => Some (ds, rest)
        end
      else None
  | [] => None
  end.

(** [e], an optional sign and digits; nothing is consumed when no digit
    follows. *)
Definition exp_part (s : str) : option (Z * str) :=
  match s with
  | c :: s' =>
      if (c =? 101) || (c =? 69) then
        let neg := match s' with d :: _ => d =? 45 | [] => false end in
        let s'' := match s' with
                   | d :: t => if (d =? 45) || (d =? 43) then t else s'
                   | [] => s'
                   end in
        match span_digits s'' with
        | ([], _) => None
        | (ds, rest) =>
            Some (if neg then (- digits_value ds)%Z else digits_value ds, rest)
        end
      else None
  | [] => None
  end.

(** [_match_number]: [None] is the scanner's [StopIteration]. *)
Definition match_number (s : str) : option (result pyval * str) :=
  let neg := match s with c :: _ => c =? 45 | [] => false end in
  let s0 := if neg then tl s else s in
  match int_part s0 with
  | None => None
  | Some (ip, s1) =>
      let (fp, s2) := match frac_part s1 with
                      | Some (ds, rest) => (Some ds, rest)
                      | None => (None, s1)
                      end in
      let (ep, s3) := match exp_part s2 with
                      | Some (x, rest) => (Some x, rest)
                      | None => (None, s2)
                      end in
      match fp, ep with
      | None, None =>
          let v := digits_value ip in
          Some (if Nat.ltb int_max_str_digits (length ip)
                then inl (ValueError
                  (lit "Exceeds the limit (4300 digits) for integer string conversion: value has "
                   ++ str_of_nat (length ip)
                   ++ lit " digits; use sys.set_int_max_str_digits() to increase the limit"))
                else inr (PInt (if neg then (- v)%Z else v)), s3)
      | _, _ =>
          let fd := match fp with Some ds => ds | None => [] end in
          let x := match ep with Some x => x | None => 0%Z end in
          Some (inr (PFloat (float_of_decimal neg (digits_value (ip ++ fd))
                               (x - Z.of_nat (length fd))%Z)), s3)
      end
  end.

(** The named constants of [scan_once]. *)
Definition constants : list (str * pyval) :=
  [ (lit "null", PNone); (lit "true", PBool true); (lit "false", PBool false);
    (lit "NaN", PFloat FNan); (lit "Infinity", PFloat (FInf false));
    (lit "-Infinity", PFloat (FInf true)) ].

Fixpoint match_constant (table : list (str * pyval)) (s : str)
  : option (pyval * str) :=
  match table with
  | [] => None
  | (name, v) :: table' =>
      if startswith s name then Some (v, skipn (length name) s)
      else match_constant table' s
  end.

(** [StopIteration(idx)]: no value starts here. *)
Definition expecting_value (s : str) : scan_error := Stop (length s).

(** An error of [scanstring], raised with [depth] recursive calls left. *)
Definition raised_at (depth : nat) (e : scan_error) : scan_error :=
  match e, construction_failure depth with
  | Syntax _ _, Some r => Raised r
  | _, _ => e
  end.

(** [_parse_constant] calls the decoder's table of constants for [NaN] and
    the infinities. *)
Definition looked_up (depth : nat) (v : pyval) : bool :=
  match v, depth with
  | PFloat _, O => false
  | _, _ => true
  end.

(** [_Py_EnterRecursiveCall] failing at an opening brace or bracket. *)
Definition too_deep (what : string) : scan_error :=
  Raised (RecursionError
    (lit "maximum recursion depth exceeded while decoding a JSON "
     ++ lit what ++ lit " from a unicode string")).

Definition no_lookup : scan_error :=
  Raised (recursion_error " while calling a Python object").

(** [scan_once], with the loops of [_parse_object] and [_parse_array].
    [depth] is the room the recursion limit leaves; [fuel] only makes the
    definition structural: [Exhausted] is not an outcome of the decoder,
    and [loads] gives enough fuel for it never to occur. *)
Fixpoint scan_once (fuel depth : nat) (s : str) : scan pyval :=
  match fuel with
  | O => inl Exhausted
  | S f =>
      match s with
      | [] => inl (expecting_value s)
      | c :: s1 =>
          if c =? 34 then
            match scanstring (length s) [] s1 with
            | inr (x, rest) => inr (PStr x, rest)
            | inl e => inl (raised_at depth e)
            end
          else if c =? 123 then
            match depth with
            | O => inl (too_deep "object")
            | S inner =>
                match skip_ws s1 with
                | d :: s2 =>
                    if d =? 125 then inr (PDict [], s2)
                    else object_items f inner [] (d :: s2)
                | [] => object_items f inner [] []
                end
            end
          else if c =? 91 then
            match depth with
            | O => inl (too_deep "array")
            | S inner =>
                match skip_ws s1 with
                | d :: s2 =>
                    if d =? 93 then inr (PList [], s2)
                    else array_items f inner [] (d :: s2)
                | [] => array_items f inner [] []
                end
            end
          else
            match match_constant constants s with
            | Some (v, rest) =>
                if looked_up depth v then inr (v, rest) else inl no_lookup
            | None =>
                match match_number s with
                | Some (inr v, rest) => inr (v, rest)
                | Some (inl e, _) => inl (Raised e)
                | None => inl (expecting_value s)
                end
            end
      end
  end

with object_items (fuel depth : nat) (pairs : list (str * pyval)) (s : str)
  : scan pyval :=
  match fuel with
  | O => inl Exhausted
  | S f =>
      match s with
      | c :: s1 =>
          if c =? 34 then
            match scanstring (length s) [] s1 with
            | inl e => inl (raised_at depth e)
            | inr (key, s2) =>
                match skip_ws s2 with
                | d :: s3 =>
                    if d =? 58 then
                      match scan_once f depth (skip_ws s3) with
                      | inl e => inl e
                      | inr (v, s4) =>
                          let pairs' := pairs ++ [(key, v)] in
                          match skip_ws s4 with
                          | x :: s5 =>
                              if x =? 125
                              then inr (PDict (dict_of_pairs pairs'), s5)
                              else if x =? 44
                              then object_items f depth pairs' (skip_ws s5)
                              else inl (errmsg depth "Expecting ',' delimiter"
                                          (length (x :: s5)))
                          | [] =>
                              inl (errmsg depth "Expecting ',' delimiter" 0)
                          end
                      end
                    else inl (errmsg depth "Expecting ':' delimiter"
                                (length (d :: s3)))
                | [] => inl (errmsg depth "Expecting ':' delimiter" 0)
                end
            end
          else inl (errmsg depth
                 "Expecting property name enclosed in double quotes"
                 (length s))
      | [] => inl (errmsg depth
                "Expecting property name enclosed in double quotes" 0)
      end
  end

with array_items (fuel depth : nat) (items : list pyval) (s : str)
  : scan pyval :=
  match fuel with
  | O => inl Exhausted
  | S f =>
      match scan_once f depth s with
      | inl e => inl e
      | inr (v, s1) =>
          let items' := items ++ [v] in
          match skip_ws s1 with
          | x :: s2 =>
              if x =? 93 then inr (PList items', s2)
              else if x =? 44 then array_items f depth items' (skip_ws s2)
              else inl (errmsg depth "Expecting ',' delimiter"
                          (length (x :: s2)))
          | [] => inl (errmsg depth "Expecting ',' delimiter" 0)
          end
      end
  end.

(** [JSONDecodeError(msg, doc, pos)] *)
Definition decode_error (msg doc : str) (pos : nat) : exn :=
  let before := firstn pos doc in
  let lineno := S (count_occ N.eq_dec before 10) in
  let last_line := match before_last_newline before with
                   | Some t => skipn (S (length t)) before
                   | None => before
                   end in
  JSONDecodeError msg lineno (S (length last_line)) pos.

(** Enough fuel for any document of the length of [s]. *)
Definition fuel_for (s : str) : nat := (2 * length s + 2)%nat.

(** A [JSONDecodeError] raised by the Python code of the decoder, with
    [depth] recursive calls left. *)
Definition raise_decode_error {A} (depth : nat) (msg doc : str) (pos : nat)
  : result A :=
  match construction_failure depth with
  | Some e => inl e
  | None => inl (decode_error msg doc pos)
  end.

(** [json.loads(s)] for a [str] argument, with [depth] recursive calls left
    where the scanner runs: one more where [raw_decode] turns
    [StopIteration] into an error, two more where [decode] finds extra
    data. *)
Definition loads (depth : nat) (s : str) : result pyval :=
  if startswith s [65279]
  then inl (decode_error
              (lit "Unexpected UTF-8 BOM (decode using utf-8-sig)") s 0)
  else
    match scan_once (fuel_for s) depth (skip_ws s) with
    | inl (Syntax msg remaining) =>
        inl (decode_error msg s (length s - remaining))
    | inl (Stop remaining) =>
        raise_decode_error (1 + depth) (lit "Expecting value") s
          (length s - remaining)
    | inl (Raised e) => inl e
    | inl Exhausted => inl (decode_error (lit "Expecting value") s 0)
    | inr (v, rest) =>
        match skip_ws rest with
        | [] => inr v
        | rest' => raise_decode_error (2 + depth) (lit "Extra data") s
                     (length s - length rest')
        end
    end.

(** [rest] is what is left of [s] after a prefix. *)
Definition suffix (rest s : str) : Prop := exists c, s = c ++ rest.

(** What a successful scan has read: at least one character; an object
    starts with its opening and ends with its closing brace. *)
Definition reads_value (s : str) (v : pyval) (rest : str) : Prop :=
  (exists a c, s = a :: c ++ rest)
  /\ (forall d, v = PDict d -> exists mid, s = 123 :: mid ++ 125 :: rest).

(** The scan did not stop for want of fuel. *)
Definition in_fuel {A} (r : scan A) : Prop := r <> inl Exhausted.

End Decoder.
End Json.

(** ** [re.search(r"(\{.*\})", text, re.S)]

    With [re.S] the dot matches every character, so the leftmost match
    starts at the first opening brace and, [.*] being greedy, ends at the
    last closing brace after it; there is no match when no closing brace
    follows the first opening brace. *)

Section Regex.
Local Open Scope N_scope.

(** The suffix of [s] that starts at its first opening brace. *)
Fixpoint from_first_open (s : str) : option str :=
  match s with
  | [] => None
  | c :: s' => if c =? 123 then Some s else from_first_open s'
  end.

(** The longest prefix of [s] that ends with a closing brace. *)
Fixpoint upto_last_close (s : str) : option str :=
  match s with
  | [] => None
  | c :: s' =>
      match upto_last_close s' with
      | Some t => Some (c :: t)
      | None => if c =? 125 then Some [c] else None
      end
  end.

(** [m.group(1)] of the search, [None] when [m] is [None]. *)
Definition search_braces (text : str) : option str :=
  match from_first_open text with
  | Some (c :: rest) =>
      match upto_last_close rest with
      | Some t => Some (c :: t)
      | None => None
      end
  | _ => None
  end.

End Regex.

(** ** [content.decode("utf-8", errors="ignore")]

    CPython's UTF-8 decoder on the values of the bytes.  An ill-formed
    sequence is an error whose extent the decoder fixes (one byte for a bad
    start byte or a bad first continuation, the well-formed bytes read so
    far for a later one, everything left for a sequence cut by the end of
    the data); the [ignore] handler skips that extent and decoding goes
    on. *)

Section Utf8.
Local Open Scope N_scope.

Definition is_continuation (b : N) : bool := (128 <=? b) && (b <? 192).

(** Second bytes that would give an overlong form, a surrogate or a code
    point above U+10FFFF. *)
Definition bad_second (b0 b1 : N) : bool :=
  ((b0 =? 224) && (b1 <? 160)) || ((b0 =? 237) && (160 <=? b1))
  || ((b0 =? 240) && (b1 <? 144)) || ((b0 =? 244) && (144 <=? b1)).

Fixpoint utf8_decode_ignore (bs : list N) : str :=
  match bs with
  | [] => []
  | b0 :: r0 =>
      if b0 <? 128 then b0 :: utf8_decode_ignore r0
      else if b0 <? 194 then utf8_decode_ignore r0
      else if b0 <? 224 then
        match r0 with
        | [] => []
        | b1 :: r1 =>
            if is_continuation b1
            then ((b0 - 192) * 64 + (b1 - 128)) :: utf8_decode_ignore r1
            else utf8_decode_ignore r0
        end
      else if b0 <? 240 then
        match r0 with
        | [] => []
        | b1 :: r1 =>
            if negb (is_continuation b1) || bad_second b0 b1
            then utf8_decode_ignore r0
            else
              match r1 with
              | [] => []
              | b2 :: r2 =>
                  if is_continuation b2
                  then ((b0 - 224) * 4096 + (b1 - 128) * 64 + (b2 - 128))
                         :: utf8_decode_ignore r2
                  else utf8_decode_ignore r1
              end
        end
      else if b0 <? 245 then
        match r0 with
        | [] => []
        | b1 :: r1 =>
            if negb (is_continuation b1) || bad_second b0 b1
            then utf8_decode_ignore r0
            else
              match r1 with
              | [] => []
              | b2 :: r2 =>
                  if is_continuation b2 then
                    match r2 with
                    | [] => []
                    | b3 :: r3 =>
                        if is_continuation b3
                        then ((b0 - 240) * 262144 + (b1 - 128) * 4096
                              + (b2 - 128) * 64 + (b3 - 128))
                               :: utf8_decode_ignore r3
                        else utf8_decode_ignore r2
                    end
                  else utf8_decode_ignore r1
              end
        end
      else utf8_decode_ignore r0
  end.

(** [content.decode("utf-8", errors="ignore")] *)
Definition decode_ignore (content : bytes) : str :=
  utf8_decode_ignore (map Byte.to_N content).

(** The UTF-8 form of one code point, and [s.encode("utf-8")]. *)
Definition utf8_encode_char (c : char) : list N :=
  if c <? 128 then [c]
  else if c <? 2048 then [192 + c / 64; 128 + c mod 64]
  else if c <? 65536
  then [224 + c / 4096; 128 + (c / 64) mod 64; 128 + c mod 64]
  else [240 + c / 262144; 128 + (c / 4096) mod 64; 128 + (c / 64) mod 64;
        128 + c mod 64].

Definition utf8_encode (s : str) : list N := flat_map utf8_encode_char s.

End Utf8.

(** ** The program *)

(** An [UploadFile]: its [filename] and what [file.read()] returns. *)
Record UploadFile : Type := {
  up_filename : option str;
  up_content : bytes
}.

(** One entry of [results]: the dict with the keys [filename], [score],
    [missing_skills] and [remarks]. *)
Record ScoreRecord : Type := {
  filename : option str;
  score : Z;
  missing_skills : list pyval;
  remarks : pyval
}.

(** The dict [match_resumes] returns. *)
Record MatchReport : Type := {
  matches : list ScoreRecord;
  best_candidate : option ScoreRecord
}.

(** What a request does to the outside world, in order. *)
Inductive event : Type :=
| Closed (name : option str)
| Generated (prompt : str).

Definition is_generated (ev : event) : bool :=
  match ev with Generated _ => true | Closed _ => false end.

(** A computation that may raise and that extends the log of events. *)
Definition io (A : Type) : Type := list event -> result A * list event.

Definition ret {A} (a : A) : io A := fun log => (inr a, log).
Definition raise {A} (e : exn) : io A := fun log => (inl e, log).
Definition io_bind {A B} (m : io A) (k : A -> io B) : io B :=
  fun log =>
    match m log with
    | (inr a, log') => k a log'
    | (inl e, log') => (inl e, log')
    end.
Definition emit (ev : event) : io unit := fun log => (inr tt, log ++ [ev]).
Definition lift {A} (r : result A) : io A := fun log => (r, log).

(** [try: m finally: cleanup], for a [cleanup] that does not raise. *)
Definition finally {A} (m : io A) (cleanup : io unit) : io A :=
  fun log =>
    let (r, log1) := m log in
    let (_, log2) := cleanup log1 in
    (r, log2).

(** [m] with its outcome, raised or returned, handed to what follows: the
    view a [try] with an [except Exception] clause has of its body. *)
Definition attempt {A} (m : io A) : io (result A) :=
  fun log => let (r, log1) := m log in (inr r, log1).

Notation "x <- m ;; k" := (io_bind m (fun x => k))
  (at level 61, m at next level, right associativity).

Section Program.
Variable P : Platform.

(** *** Built-in conversions *)

(** [_PyUnicode_TransformDecimalAndSpaceToASCII] *)
Fixpoint to_ascii_decimal (s : str) : str :=
  match s with
  | [] => []
  | c :: s' =>
      if (c <? 127)%N then c :: to_ascii_decimal s'
      else if isspace c then 32%N :: to_ascii_decimal s'
      else match unicode_decimal P c with
           | Some d => (48 + d)%N :: to_ascii_decimal s'
           | None => [63%N]
           end
  end.

(** [int(v)]; the message for a string that is no numeral shows at most
    200 characters of its [repr] (the format [%.200R]). *)
Definition py_int (v : pyval) : result Z :=
  match v with
  | PBool b => inr (if b then 1 else 0)%Z
  | PInt z => inr z
  | PFloat f => int_of_float f
  | PStr s =>
      match long_from_string (to_ascii_decimal s) with
      | Some r => r
      | None => inl (ValueError
                  (lit "invalid literal for int() with base 10: "
                   ++ firstn 200 (str_repr P s)))
      end
  | PNone | PList _ | PDict _ =>
      inl (TypeError
        (lit "int() argument must be a string, a bytes-like object or a real number, not '"
         ++ type_name v ++ lit "'"))
  end.

(** [repr(v)] *)
Fixpoint py_repr (v : pyval) : str :=
  match v with
  | PNone => lit "None"
  | PBool b => if b then lit "True" else lit "False"
  | PInt z => str_of_Z z
  | PFloat f => float_repr P f
  | PStr s => str_repr P s
  | PList l => lit "[" ++ join (lit ", ") (map py_repr l) ++ lit "]"
  | PDict d =>
      lit "{"
      ++ join (lit ", ")
           (map (fun kv => let '(k, x) := kv in
                           str_repr P k ++ lit ": " ++ py_repr x) d)
      ++ lit "}"
  end.

(** [str(v)] *)
Definition py_str (v : pyval) : str :=
  match v with
  | PStr s => s
  | _ => py_repr v
  end.

(** *** [_read_upload_text] *)

(** [t or ""] for an optional string. *)
Definition or_empty (t : option str) : str :=
  match t with Some s => s | None => [] end.

Definition newline : str := [10%N].

(** The body of the [try]. *)
Definition extract_text (fname : str) (content : bytes) : result str :=
  if endswith fname (lit ".pdf") then
    let* texts := pdf_page_texts P content in
    inr (join newline (map or_empty texts))
  else if endswith fname (lit ".docx") || endswith fname (lit ".doc") then
    let* paragraphs := docx_paragraph_texts P content in
    inr (join newline paragraphs)
  else inr (decode_ignore content).

(** The [finally] clause closes the file on every path; an error of
    [close] itself is swallowed. *)
Definition _read_upload_text (up : UploadFile) : io str :=
  let content := up_content up in
  let fname := str_lower P (or_empty (up_filename up)) in
  finally (lift (extract_text fname content))
          (emit (Closed (up_filename up))).

(** *** [_shorten] *)

Definition _shorten (text : str) (max_chars : nat) : str :=
  if Nat.leb (length text) max_chars then text
  else rsplit_newline_head (firstn max_chars text).

(** *** [_gemini_generate] *)

Definition generated_so_far (log : list event) : nat :=
  length (filter is_generated log).

(** The [try] and its handler, for the [n]-th call of the request. *)
Definition call_service (n : nat) (prompt : str) : result str :=
  match generate_content P n prompt with
  | inr text => inr (strip (or_empty text))
  | inl e => inl (HTTPException 500 (lit "Gemini API error: " ++ exn_str e))
  end.

Definition _gemini_generate (prompt : str) : io str :=
  fun log =>
    (call_service (generated_so_far log) prompt, log ++ [Generated prompt]).

(** *** [_scoring_prompt] *)

Definition _scoring_prompt (jd_text resume_text : str) : str :=
  let jd_trim := _shorten jd_text 2500 in
  let res_trim := _shorten resume_text 2500 in
  dq "
You are an expert technical recruiter. Given the Job Description (JD) and a candidate's resume text, evaluate how well the candidate fits the JD.

Instructions:
- Read the JD and resume.
- Produce a JSON object ONLY (no extra commentary) with these keys:
  - `score`: integer between 0 and 100 representing fit (100 = perfect fit).
  - `missing_skills`: an array of strings listing important JD skills/requirements not found in the resume (max 20).
  - `remarks`: a short string (1-2 sentences) summarizing strengths/weaknesses and suggested fit level.

Evaluation guidance:
- Consider technical skills, experience level, role fit, and relevant keywords.
- Be conservative: if something is not clearly present in the resume, consider it missing.
- Use the JD to determine `must-have` vs `nice-to-have`.

Provide only valid JSON, example:
{`score`: 78, `missing_skills`: [`aws sagemaker`, `production monitoring`], `remarks`: `Good ML background but lacks specific AWS MLOps experience.`}

JD:
```" ++ jd_trim ++ dq "```

Resume:
```" ++ res_trim ++ dq "```
".

(** *** [match_resumes]: one resume *)

(** Lines 198 to 202: the located text, parsed. *)
Definition locate_and_load (resp_text : str) : result pyval :=
  match search_braces resp_text with
  | None => Json.loads (json_max_depth P) resp_text
  | Some group => Json.loads (json_max_depth P) group
  end.

(** [parsed.get(key, default)]; anything but a [dict] has no [get]. *)
Definition get (parsed : pyval) (key : str) (default : pyval)
  : result pyval :=
  match parsed with
  | PDict d => inr (dict_get d key default)
  | _ => inl (AttributeError
            (lit "'" ++ type_name parsed
             ++ lit "' object has no attribute 'get'"))
  end.

(** Lines 207 and 208: anything but a list becomes the list of its string
    form. *)
Definition as_list (missing_skills : pyval) : list pyval :=
  match missing_skills with
  | PList l => l
  | _ => [PStr (py_str missing_skills)]
  end.

(** [value or ""] *)
Definition or_empty_str (value : pyval) : pyval :=
  if truthy value then value else PStr [].

(** Lines 203 to 208. *)
Definition extract_fields (parsed : pyval)
  : result (Z * list pyval * pyval) :=
  let* score_value := get parsed (lit "score") (PInt 0) in
  let* score := py_int score_value in
  let* missing_skills := get parsed (lit "missing_skills") (PList []) in
  let* remarks := get parsed (lit "remarks") (PStr []) in
  inr (score, as_list missing_skills, or_empty_str remarks).

(** The body of the [try], given how the generation call ended. *)
Definition try_body (generated : result str)
  : result (Z * list pyval * pyval) :=
  let* resp_text := generated in
  let* parsed := locate_and_load resp_text in
  extract_fields parsed.

(** The [try] with its [except Exception] handler, and the dict appended to
    [results]. *)
Definition score_record (name : option str) (generated : result str)
  : ScoreRecord :=
  match try_body generated with
  | inr (score, missing_skills, remarks) =>
      {| filename := name; score := score;
         missing_skills := missing_skills; remarks := remarks |}
  | inl e =>
      {| filename := name; score := 0; missing_skills := [];
         remarks := PStr (lit "Scoring failed: " ++ exn_str e) |}
  end.

(** One turn of the loop. *)
Definition evaluate_one (jd_raw : str) (up : UploadFile) : io ScoreRecord :=
  res_text <- _read_upload_text up ;;
  let prompt := _scoring_prompt jd_raw res_text in
  generated <- attempt (_gemini_generate prompt) ;;
  ret (score_record (up_filename up) generated).

(** The loop, [results] growing at its end. *)
Fixpoint evaluate_all (jd_raw : str) (resumes : list UploadFile)
  (results : list ScoreRecord) : io (list ScoreRecord) :=
  match resumes with
  | [] => ret results
  | up :: rest =>
      r <- evaluate_one jd_raw up ;;
      evaluate_all jd_raw rest (results ++ [r])
  end.

(** *** [results.sort(key=lambda x: x["score"], reverse=True)]

    [list.sort] is stable, and stays so with [reverse=True]: records with
    equal scores keep their order.  Each record is put in front of the first
    sorted record whose score is not greater than its own. *)

Fixpoint insert_desc (r : ScoreRecord) (sorted : list ScoreRecord)
  : list ScoreRecord :=
  match sorted with
  | [] => [r]
  | x :: rest =>
      if (score x <=? score r)%Z then r :: sorted
      else x :: insert_desc r rest
  end.

Definition sort_by_score_desc (results : list ScoreRecord)
  : list ScoreRecord :=
  fold_right insert_desc [] results.

(** Lines 223 to 225. *)
Definition rank (results : list ScoreRecord) : MatchReport :=
  let sorted := sort_by_score_desc results in
  {| matches := sorted; best_candidate := hd_error sorted |}.

(** *** [match_resumes] *)

Definition bad_request {A} (detail : string) : io A :=
  raise (HTTPException 400 (lit detail)).

(** Lines 174 to 183. *)
Definition read_jd (jd_mode : str) (jd_file : option UploadFile)
  (jd_text : option str) : io str :=
  if negb (str_eqb jd_mode (lit "file") || str_eqb jd_mode (lit "text"))
  then bad_request "jd_mode must be 'file' or 'text'"
  else if str_eqb jd_mode (lit "file") then
    match jd_file with
    | None => bad_request "JD file required when jd_mode='file'"
    | Some f => _read_upload_text f
    end
  else
    match jd_text with
    | Some (c :: t) =>
        match strip (c :: t) with
        | [] => bad_request "jd_text is required when jd_mode='text'"
        | _ => ret (c :: t)
        end
    | _ => bad_request "jd_text is required when jd_mode='text'"
    end.

Definition match_resumes (jd_mode : str) (jd_file : option UploadFile)
  (jd_text : option str) (resumes : list UploadFile) : io MatchReport :=
  jd_raw <- read_jd jd_mode jd_file jd_text ;;
  match resumes with
  | [] => bad_request "At least one resume must be uploaded"
  | _ =>
      if Nat.ltb 20 (length resumes)
      then bad_request "Maximum 20 resumes allowed"
      else
        results <- evaluate_all jd_raw resumes [] ;;
        ret (rank results)
  end.

End Program.

(** ** The other endpoints: [generate_jd], [generate_email], [health]

    Here the generation service sees the whole call: the model name, the
    prompt and the settings.  A request body is what is left of it once
    pydantic has validated it. *)

Module JDGenerateRequest.
Record t : Type := {
  title : str;
  experience : Z;
  skills : str;
  company : str;
  employment_type : option str;
  industry : option str;
  location : option str
}.
End JDGenerateRequest.

Module EmailRequest.
Record t : Type := {
  candidate_name : str;
  job_title : str;
  jd_text : str;
  company : str;
  status : str;
  interview_date : option str;
  location : option str
}.
End EmailRequest.

Module Endpoints.

Definition GEMINI_MODEL : str := lit "gemini-2.0-flash".

(** The [config] dict and the keyword arguments of [generate_content]. *)
Record GenerationConfig : Type := {
  temperature : pyfloat;
  top_p : pyfloat;
  top_k : Z;
  max_output_tokens : Z
}.

Record GenerationCall : Type := {
  model : str;
  contents : str;
  config : GenerationConfig
}.

(** The service, for the [n]-th call it receives: it raises, or yields
    [resp.text]. *)
Definition Service : Type := nat -> GenerationCall -> result (option str).

(** A computation that may raise and that records the calls it makes. *)
Definition act (A : Type) : Type :=
  list GenerationCall -> result A * list GenerationCall.

Definition act_bind {A B} (m : act A) (k : A -> act B) : act B :=
  fun calls =>
    match m calls with
    | (inr a, calls') => k a calls'
    | (inl e, calls') => (inl e, calls')
    end.

(** The float a decimal literal with [digits] and [places] decimal places
    denotes: [0.6] is [decimal 6 1]. *)
Definition decimal (digits places : Z) : pyfloat :=
  float_of_decimal false digits (- places).

(** [f"{x}"] for an optional string. *)
Definition fmt_optional (x : option str) : str :=
  match x with Some s => s | None => lit "None" end.

(** [x or default] for an optional string. *)
Definition or_default (x : option str) (default : string) : str :=
  match x with
  | Some (c :: s) => c :: s
  | _ => lit default
  end.

Section WithService.
Variable service : Service.

Definition _gemini_generate (prompt : str) (max_output_tokens : Z)
  (temperature : pyfloat) : act str :=
  fun calls =>
    let call := {| model := GEMINI_MODEL; contents := prompt;
                   config := {| temperature := temperature;
                                top_p := decimal 95 2;
                                top_k := 40;
                                max_output_tokens := max_output_tokens |} |} in
    (match service (length calls) call with
     | inr text => inr (strip (or_empty text))
     | inl e =>
         inl (HTTPException 500 (lit "Gemini API error: " ++ exn_str e))
     end,
     calls ++ [call]).

Definition _jd_prompt (req : JDGenerateRequest.t) : str :=
  dq "
You are an expert HR recruiter and technical writer. Produce a polished, inclusive, SEO-friendly job description in Markdown.
Use the inputs below. The output MUST contain these headings in order: `## Company Overview`, `## Role Overview`, `## Key Responsibilities`, `## Required Qualifications`, `## Preferred Qualifications`, `## Benefits`.
Responsibilities: 6-10 bullet points. Required Qualifications: concrete skills and years. Tone: professional and engaging. Length: ~250-400 words.

Inputs:
Job Title: "
  ++ JDGenerateRequest.title req
  ++ dq "
Experience (years): "
  ++ str_of_Z (JDGenerateRequest.experience req)
  ++ dq "
Must-have Skills: "
  ++ JDGenerateRequest.skills req
  ++ dq "
Company: "
  ++ JDGenerateRequest.company req
  ++ dq "
Employment Type: "
  ++ fmt_optional (JDGenerateRequest.employment_type req)
  ++ dq "
Industry: "
  ++ fmt_optional (JDGenerateRequest.industry req)
  ++ dq "
Location: "
  ++ fmt_optional (JDGenerateRequest.location req)
  ++ dq "

Write the job description now in Markdown using the required headings.".

Definition _email_prompt (req : EmailRequest.t) : str :=
  if str_eqb (EmailRequest.status req) (lit "accept") then
    dq "
Write a short professional interview invitation email. Output only the email text; first line should be the subject.
Candidate: "
    ++ EmailRequest.candidate_name req
    ++ dq "
Role: "
    ++ EmailRequest.job_title req
    ++ dq " at "
    ++ EmailRequest.company req
    ++ dq "
Context: Use the provided JD for context but do not repeat it.
Interview date/time (user-provided): "
    ++ or_default (EmailRequest.interview_date req) "TBD"
    ++ dq "
Location/mode: "
    ++ or_default (EmailRequest.location req) "Online"
    ++ dq "

Tone: Warm, professional, concise. Include what to expect in interview and ask for confirmation. Keep under 180 words."
  else
    dq "
Write a short, empathetic rejection email. Output only the email text; first line should be the subject.
Candidate: "
    ++ EmailRequest.candidate_name req
    ++ dq "
Role: "
    ++ EmailRequest.job_title req
    ++ dq " at "
    ++ EmailRequest.company req
    ++ dq "

Tone: Respectful and encouraging. Thank them for their time; brief reason (e.g., stronger match) and encouragement to apply in future. Keep under 130 words.

".

(** [GET /health] *)
Definition health : pydict :=
  [(lit "status", PStr (lit "ok")); (lit "gemini_model", PStr GEMINI_MODEL)].

(** [POST /generate_jd] *)
Definition generate_jd (req : JDGenerateRequest.t) : act pydict :=
  let prompt := _jd_prompt req in
  act_bind (_gemini_generate prompt 900 (decimal 6 1)) (fun jd_text =>
  fun calls =>
    (inr [(lit "job_description", PStr jd_text);
          (lit "model", PStr GEMINI_MODEL)], calls)).

(** [POST /generate_email] *)
Definition generate_email (req : EmailRequest.t) : act pydict :=
  if negb (str_eqb (EmailRequest.status req) (lit "accept")
           || str_eqb (EmailRequest.status req) (lit "reject"))
  then fun calls =>
         (inl (HTTPException 400 (lit "status must be 'accept' or 'reject'")),
          calls)
  else
    let prompt := _email_prompt req in
    act_bind (_gemini_generate prompt 400 (decimal 6 1)) (fun email_text =>
    fun calls =>
      (inr [(lit "email", PStr email_text); (lit "model", PStr GEMINI_MODEL)],
       calls)).

End WithService.

(** The call [match_resumes] makes, as the generation service of a
    [Platform]. *)
Definition scoring_call (prompt : str) : GenerationCall :=
  {| model := GEMINI_MODEL; contents := prompt;
     config := {| temperature := FFin false 0 0; top_p := decimal 95 2;
                  top_k := 40; max_output_tokens := 400 |} |}.

End Endpoints.

(** ** Vocabulary of the properties *)

(** Scores in descending order, and the records of one score. *)
Definition score_ge (a b : ScoreRecord) : Prop := (score b <= score a)%Z.
Definition has_score (z : Z) (r : ScoreRecord) : bool := (score r =? z)%Z.

(** [l1] is [l2] with some elements left out. *)
Inductive subseq : list N -> list N -> Prop :=
| subseq_nil : subseq [] []
| subseq_keep a l1 l2 : subseq l1 l2 -> subseq (a :: l1) (a :: l2)
| subseq_drop a l1 l2 : subseq l1 l2 -> subseq l1 (a :: l2).

(** Unicode scalar values: code points that are not surrogates. *)
Definition is_scalar (c : char) : bool :=
  ((c <? 55296) || (57344 <=? c) && (c <? 1114112))%N.

(** The well-formed byte sequences of the Unicode standard (table 3-7),
    as the bytes at the head of [bs]. *)
Definition well_formed_head (bs : list N) : Prop :=
  match bs with
  | [] => False
  | b0 :: r0 =>
      (b0 < 128)%N
      \/ ((194 <= b0 < 224)%N
          /\ exists b1 r1, r0 = b1 :: r1 /\ is_continuation b1 = true)
      \/ ((224 <= b0 < 240)%N
          /\ exists b1 b2 r2,
               r0 = b1 :: b2 :: r2 /\ is_continuation b1 = true
               /\ bad_second b0 b1 = false /\ is_continuation b2 = true)
      \/ ((240 <= b0 < 245)%N
          /\ exists b1 b2 b3 r3,
               r0 = b1 :: b2 :: b3 :: r3 /\ is_continuation b1 = true
               /\ bad_second b0 b1 = false /\ is_continuation b2 = true
               /\ is_continuation b3 = true)
  end.

(** Decoding as UTF-8 with the errors ignored, after the Unicode standard:
    the bytes are read from left to right; where the well-formed encoding
    of a scalar value starts it is read as that character, and a byte at
    which no well-formed encoding starts is left out. *)
Inductive decoded_ignoring_errors : list N -> str -> Prop :=
| nothing_left : decoded_ignoring_errors [] []
| character c rest s :
    is_scalar c = true -> decoded_ignoring_errors rest s ->
    decoded_ignoring_errors (utf8_encode_char c ++ rest) (c :: s)
| ill_formed_byte b rest s :
    (forall c tail,
       is_scalar c = true -> b :: rest <> utf8_encode_char c ++ tail) ->
    decoded_ignoring_errors rest s ->
    decoded_ignoring_errors (b :: rest) s.

(** [z] is the integer part of the float [(-1)^neg * m * 2^e]. *)
Definition integer_part (neg : bool) (m e z : Z) : Prop :=
  exists a : Z,
    z = (if neg then - a else a)%Z
    /\ if (0 <=? e)%Z then a = (m * 2 ^ e)%Z
       else (a * 2 ^ (- e) <= m < (a + 1) * 2 ^ (- e))%Z.

(** The record the [except] handler builds for the exception [e]. *)
Definition fallback_record (name : option str) (e : exn) : ScoreRecord :=
  {| filename := name; score := 0; missing_skills := [];
     remarks := PStr (lit "Scoring failed: " ++ exn_str e) |}.

(** [d.get(k)]: [None] when the key is absent. *)
Fixpoint dict_find (d : pydict) (k : str) : option pyval :=
  match d with
  | [] => None
  | (k', v) :: d' => if str_eqb k' k then Some v else dict_find d' k
  end.

Section Vocabulary.
Variable P : Platform.

(** The text of an upload, as [_read_upload_text] extracts it. *)
Definition upload_text (up : UploadFile) : result str :=
  extract_text P (str_lower P (or_empty (up_filename up))) (up_content up).

(** The ways in which locating, parsing or coercing a response fails,
    each with the exception that is raised: the decoder rejects the located
    text, or what it returns cannot be turned into the fields. *)
Inductive parse_failure (resp_text : str) : exn -> Prop :=
| malformed_json e :
    locate_and_load P resp_text = inl e -> parse_failure resp_text e
| coercion_failure parsed e :
    locate_and_load P resp_text = inr parsed ->
    extract_fields P parsed = inl e -> parse_failure resp_text e.

(** The first extraction error of a batch, in upload order. *)
Fixpoint first_failure (resumes : list UploadFile) : option exn :=
  match resumes with
  | [] => None
  | up :: rest =>
      match upload_text up with
      | inl e => Some e
      | inr _ => first_failure rest
      end
  end.

End Vocabulary.

Arguments lit : simpl never.
Arguments exn_str : simpl never.

(** ** Test doubles

    A platform for running the program on examples: the generation service
    answers its [n]-th call with the [n]-th of a list of canned outcomes;
    the PDF reader accepts only data that starts with the PDF signature and
    the DOCX reader only data that starts with the ZIP signature. *)

Definition ascii_lower (s : str) : str :=
  map (fun c => if ((65 <=? c) && (c <=? 90))%N then (c + 32)%N else c) s.

Definition bytes_of (s : string) : bytes := list_byte_of_string s.

Definition has_signature (sig : string) (content : bytes) : bool :=
  startswith (map Byte.to_N content) (lit sig).

Definition stub (responses : list (result (option str))) : Platform := {|
  generate_content := fun n _ =>
    nth n responses (inl (LibraryError (lit "503 UNAVAILABLE")));
  pdf_page_texts := fun content =>
    if has_signature "%PDF-" content then inr [None]
    else inl (LibraryError (lit "No /Root object! - Is this really a PDF?"));
  docx_paragraph_texts := fun content =>
    if has_signature "PK" content then inr []
    else inl (LibraryError (lit "File is not a zip file"));
  json_max_depth := 900;
  float_repr := fun _ => lit "0.0";
  str_repr := fun s => lit "'" ++ s ++ lit "'";
  unicode_decimal := fun _ => None;
  str_lower := ascii_lower
|}.

(** A platform whose PDF reader finds the given pages in any data that
    starts with the PDF signature. *)
Definition with_pages (pages : list (option str)) (P : Platform)
  : Platform := {|
  generate_content := generate_content P;
  pdf_page_texts := fun content =>
    if has_signature "%PDF-" content then inr pages
    else pdf_page_texts P content;
  docx_paragraph_texts := docx_paragraph_texts P;
  json_max_depth := json_max_depth P;
  float_repr := float_repr P;
  str_repr := str_repr P;
  unicode_decimal := unicode_decimal P;
  str_lower := str_lower P
|}.

Definition answers (texts : list string) : list (result (option str)) :=
  map (fun t => inr (Some (dq t))) texts.

Definition upload (name : string) (content : bytes) : UploadFile :=
  {| up_filename := Some (lit name); up_content := content |}.

Definition cv (name : string) : UploadFile :=
  upload name (bytes_of "Python, SQL, Docker").

(** A request with a pasted job description. *)
Definition pasted (P : Platform) (resumes : list UploadFile)
  : result MatchReport * list event :=
  match_resumes P (lit "text") None (Some (lit "Python developer")) resumes [].

(** ** Vocabulary of the further properties *)

(** The newlines of a text. *)
Definition newlines (s : str) : nat := count_occ N.eq_dec s 10%N.

(** No white space at the start of [s]. *)
Definition starts_clean (s : str) : bool :=
  match s with
  | [] => true
  | c :: _ => negb (isspace c)
  end.

(** No white space at either end of [s]. *)
Definition clean_ends (s : str) : bool :=
  starts_clean s && starts_clean (rev s).

(** What one turn of the loop of [match_resumes] does to the outside
    world. *)
Definition turn_events (P : Platform) (jd_raw : str) (up : UploadFile)
  : list event :=
  match upload_text P up with
  | inr text =>
      [Closed (up_filename up); Generated (_scoring_prompt jd_raw text)]
  | inl _ => [Closed (up_filename up)]
  end.

(** A generation service that answers its [n]-th call with the [n]-th of
    a list of canned outcomes. *)
Definition canned (responses : list (result (option str)))
  : Endpoints.Service :=
  fun n _ => nth n responses (inl (LibraryError (lit "503 UNAVAILABLE"))).

(** The report and the log of a request that was run. *)
Definition report_of (run : result MatchReport * list event) : MatchReport :=
  match fst run with
  | inr report => report
  | inl _ => {| matches := []; best_candidate := None |}
  end.

(** A request of two resumes that succeeds. *)
Definition two_resumes : result MatchReport * list event :=
  pasted (stub (answers ["{`score`: 40}"; "{`score`: 85}"]%string))
    [cv "a.txt"; cv "b.txt"].

(** A request whose second resume cannot be read. *)
Definition unreadable_resume : result MatchReport * list event :=
  pasted (stub (answers ["{`score`: 40}"]%string))
    [cv "a.txt"; upload "b.pdf" (bytes_of "not a pdf")].

(** An email request with the given status. *)
Definition email_request (status : string) (jd : string)
  (date : option str) : EmailRequest.t :=
  {| EmailRequest.candidate_name := lit "Asha Rao";
     EmailRequest.job_title := lit "Data Engineer";
     EmailRequest.jd_text := lit jd;
     EmailRequest.company := lit "Acme";
     EmailRequest.status := lit status;
     EmailRequest.interview_date := date;
     EmailRequest.location := None |}.

(** ** Properties of the run-time model *)

Lemma str_eqb_eq a b : str_eqb a b = true <-> a = b.
Proof.
  unfold str_eqb; destruct (list_eq_dec N.eq_dec a b); split; congruence.
Qed.

Lemma str_eqb_refl a : str_eqb a a = true.
Proof. now apply str_eqb_eq. Qed.

(** *** The ranker *)

Section Ranker.
Local Open Scope Z_scope.

Lemma insert_desc_perm r l : Permutation (r :: l) (insert_desc r l).
Proof.
  induction l as [|x l IH]; simpl.
  - apply Permutation_refl.
  - destruct (score x <=? score r).
    + apply Permutation_refl.
    + eapply perm_trans; [apply perm_swap | apply perm_skip, IH].
Qed.

Lemma insert_desc_in r x l : In x (insert_desc r l) -> x = r \/ In x l.
Proof.
  intros H.
  apply (Permutation_in _ (Permutation_sym (insert_desc_perm r l))) in H.
  destruct H; auto.
Qed.

Lemma insert_desc_sorted r l :
  StronglySorted score_ge l -> StronglySorted score_ge (insert_desc r l).
Proof.
  induction 1 as [|x l Hl IH Hx]; simpl.
  - constructor; constructor.
  - destruct (score x <=? score r) eqn:E.
    + apply Z.leb_le in E.
      constructor; [constructor; assumption|].
      constructor; [exact E|].
      rewrite Forall_forall in Hx |- *.
      intros y Hy. specialize (Hx y Hy). unfold score_ge in *. lia.
    + apply Z.leb_gt in E.
      constructor; [exact IH|].
      rewrite Forall_forall in Hx |- *.
      intros y Hy. apply insert_desc_in in Hy as [->|Hy].
      * unfold score_ge. lia.
      * now apply Hx.
Qed.

Lemma insert_desc_filter z r l :
  filter (has_score z) (insert_desc r l) = filter (has_score z) (r :: l).
Proof.
  induction l as [|x l IH]; [reflexivity|].
  cbn [insert_desc].
  destruct (score x <=? score r) eqn:E; [reflexivity|].
  apply Z.leb_gt in E.
  cbn [filter] in *. rewrite IH.
  unfold has_score.
  destruct (score r =? z) eqn:Er, (score x =? z) eqn:Ex; try reflexivity.
  apply Z.eqb_eq in Er, Ex. lia.
Qed.

Lemma sort_perm l : Permutation l (sort_by_score_desc l).
Proof.
  induction l as [|r l IH]; simpl; [constructor|].
  eapply perm_trans; [apply perm_skip, IH | apply insert_desc_perm].
Qed.

Lemma sort_sorted l : StronglySorted score_ge (sort_by_score_desc l).
Proof.
  induction l; simpl; [constructor | now apply insert_desc_sorted].
Qed.

Lemma sort_stable z l :
  filter (has_score z) (sort_by_score_desc l) = filter (has_score z) l.
Proof.
  induction l as [|r l IH]; [reflexivity|].
  cbn [sort_by_score_desc fold_right].
  rewrite insert_desc_filter. cbn [filter].
  fold (sort_by_score_desc l). now rewrite IH.
Qed.

(** There is only one stable descending sort: a list that is sorted and
    keeps, score by score, the records of [l] in their order is
    [sort_by_score_desc l]. *)
Lemma stable_sorted_unique l1 l2 :
  StronglySorted score_ge l1 -> StronglySorted score_ge l2 ->
  (forall z, filter (has_score z) l1 = filter (has_score z) l2) ->
  l1 = l2.
Proof.
  intros S1; revert l2.
  induction S1 as [|x l1 S1 IH Hx]; intros l2 S2 Hf.
  - destruct l2 as [|y l2]; [reflexivity|].
    specialize (Hf (score y)). cbn in Hf. unfold has_score in Hf.
    rewrite Z.eqb_refl in Hf. discriminate.
  - destruct S2 as [|y l2 S2 Hy].
    + specialize (Hf (score x)). cbn in Hf. unfold has_score in Hf.
      rewrite Z.eqb_refl in Hf. discriminate.
    + assert (Hxy : score x = score y).
      { pose proof (Hf (score x)) as Fx. pose proof (Hf (score y)) as Fy.
        cbn [filter] in Fx, Fy. unfold has_score in Fx, Fy.
        rewrite Z.eqb_refl in Fx, Fy.
        destruct (score y =? score x) eqn:E1; [apply Z.eqb_eq in E1; lia|].
        destruct (score x =? score y) eqn:E2; [apply Z.eqb_eq in E2; lia|].
        assert (In x l2).
        { eapply proj1, filter_In. rewrite <- Fx. now left. }
        assert (In y l1).
        { eapply proj1, filter_In. rewrite Fy. now left. }
        rewrite Forall_forall in Hx, Hy.
        pose proof (Hx y ltac:(assumption)).
        pose proof (Hy x ltac:(assumption)).
        unfold score_ge in *. lia. }
      assert (x = y).
      { specialize (Hf (score x)). cbn [filter] in Hf. unfold has_score in Hf.
        rewrite <- Hxy, Z.eqb_refl in Hf. congruence. }
      subst y. f_equal. apply IH; [exact S2|].
      intros z. specialize (Hf z). cbn [filter] in Hf.
      destruct (has_score z x); congruence.
Qed.

(** Hence any stable descending sort of [l] is [sort_by_score_desc l]. *)
Corollary sort_by_score_desc_characterised l l' :
  StronglySorted score_ge l' ->
  (forall z, filter (has_score z) l' = filter (has_score z) l) ->
  l' = sort_by_score_desc l.
Proof.
  intros Hs Hf. apply stable_sorted_unique; [exact Hs | apply sort_sorted|].
  intros z. now rewrite Hf, sort_stable.
Qed.

(** The head of the sorted list has the highest score. *)
Lemma best_is_maximum l best r :
  hd_error (sort_by_score_desc l) = Some best -> In r l ->
  score r <= score best.
Proof.
  intros Hb Hr.
  apply (Permutation_in _ (sort_perm l)) in Hr.
  pose proof (sort_sorted l) as Hs.
  destruct (sort_by_score_desc l) as [|x t]; [discriminate|].
  injection Hb as ->. inversion Hs as [|? ? _ Hall]; subst.
  destruct Hr as [->|Hr]; [lia|].
  rewrite Forall_forall in Hall. exact (Hall r Hr).
Qed.

End Ranker.

(** *** The brace search *)

Section RegexFacts.
Local Open Scope N_scope.

Lemma upto_last_close_none s : ~ In 125 s -> upto_last_close s = None.
Proof.
  induction s as [|c s IH]; intros H; [reflexivity|].
  cbn. rewrite IH by (intros ?; apply H; now right).
  destruct (N.eqb_spec c 125); [|reflexivity].
  exfalso; apply H; now left.
Qed.

Lemma upto_last_close_some s : In 125 s -> upto_last_close s <> None.
Proof.
  induction s as [|c s IH]; intros H; [destruct H|].
  cbn. destruct (upto_last_close s) eqn:E; [discriminate|].
  destruct H as [->|H]; [discriminate|].
  now apply IH in H.
Qed.

Lemma upto_last_close_app body post :
  ~ In 125 post -> upto_last_close (body ++ 125 :: post) = Some (body ++ [125]).
Proof.
  intros H. induction body as [|c body IH]; cbn.
  - now rewrite upto_last_close_none.
  - now rewrite IH.
Qed.

Lemma from_first_open_app pre s :
  ~ In 123 pre -> from_first_open (pre ++ 123 :: s) = Some (123 :: s).
Proof.
  induction pre as [|c pre IH]; intros H; cbn; [reflexivity|].
  destruct (N.eqb_spec c 123) as [->|_].
  - exfalso; apply H; now left.
  - apply IH. intros ?; apply H; now right.
Qed.

Lemma search_braces_object pre body post :
  ~ In 123 pre -> ~ In 125 post ->
  search_braces (pre ++ 123 :: body ++ 125 :: post) = Some (123 :: body ++ [125]).
Proof.
  intros H1 H2. unfold search_braces.
  now rewrite from_first_open_app, upto_last_close_app.
Qed.

Lemma search_braces_found pre mid post :
  search_braces (pre ++ 123 :: mid ++ 125 :: post) <> None.
Proof.
  unfold search_braces.
  induction pre as [|c pre IH]; cbn.
  - destruct (upto_last_close (mid ++ 125 :: post)) eqn:E; [discriminate|].
    exfalso. revert E. apply upto_last_close_some.
    apply in_or_app; right; now left.
  - destruct (c =? 123); [|exact IH].
    destruct (upto_last_close (pre ++ 123 :: mid ++ 125 :: post)) eqn:E;
      [discriminate|].
    exfalso. revert E. apply upto_last_close_some.
    apply in_or_app; right; right. apply in_or_app; right; now left.
Qed.

Lemma from_first_open_some s u :
  from_first_open s = Some u ->
  exists pre r, s = pre ++ 123 :: r /\ u = 123 :: r /\ ~ In 123 pre.
Proof.
  induction s as [|c s IH]; [discriminate|]. cbn.
  destruct (N.eqb_spec c 123) as [->|Hc].
  - intros H; injection H as <-. exists [], s. now repeat split.
  - intros H. destruct (IH H) as (pre & r & -> & -> & Hn).
    exists (c :: pre), r. repeat split.
    intros [E|Hin]; [congruence | contradiction].
Qed.

Lemma upto_last_close_some' s t :
  upto_last_close s = Some t ->
  exists body post, s = body ++ 125 :: post /\ t = body ++ [125]
                    /\ ~ In 125 post.
Proof.
  revert t; induction s as [|c s IH]; intros t; [discriminate|]. cbn.
  destruct (upto_last_close s) as [t'|] eqn:E.
  - intros H; injection H as <-.
    destruct (IH t' eq_refl) as (body & post & -> & -> & Hn).
    now exists (c :: body), post.
  - destruct (N.eqb_spec c 125) as [->|_]; [|discriminate].
    intros H; injection H as <-. exists [], s. repeat split.
    intros Hin. now apply upto_last_close_some in Hin.
Qed.

End RegexFacts.

(** *** The decoder consumes a prefix of its input *)

Module JsonFacts.
Import Json.
Local Open Scope N_scope.

Lemma suffix_refl s : suffix s s.
Proof. now exists []. Qed.

Lemma suffix_cons a rest s : suffix rest s -> suffix rest (a :: s).
Proof. intros [c ->]. now exists (a :: c). Qed.

Lemma suffix_trans a b c : suffix a b -> suffix b c -> suffix a c.
Proof. intros [x ->] [y ->]. exists (y ++ x). now rewrite app_assoc. Qed.

Lemma suffix_length rest s : suffix rest s -> (length rest <= length s)%nat.
Proof. intros [c ->]. rewrite length_app. lia. Qed.

Lemma skip_ws_suffix s : suffix (skip_ws s) s.
Proof.
  induction s as [|c s IH]; cbn; [apply suffix_refl|].
  destruct (is_ws c); [now apply suffix_cons | apply suffix_refl].
Qed.

Create HintDb suffix.
#[local] Hint Resolve suffix_refl suffix_cons skip_ws_suffix : suffix.

Ltac break_match H :=
  match type of H with
  | context [match ?x with _ => _ end] => destruct x eqn:?
  end.

Lemma scanstring_suffix n : forall s start acc x rest,
  (length s <= n)%nat ->
  scanstring start acc s = inr (x, rest) -> suffix rest s.
Proof.
  induction n as [|n IH]; intros s start acc x rest Hn H.
  - destruct s; [discriminate | cbn in Hn; lia].
  - destruct s as [|c s1]; [discriminate|].
    cbn [scanstring] in H. cbn [length] in Hn.
    repeat (break_match H; try discriminate; cbn [length] in Hn);
      try (injection H as <- <-; auto with suffix);
      try (apply IH in H;
           [eapply suffix_trans; [exact H|];
            repeat first [apply suffix_refl | apply suffix_cons]
           | cbn [length]; lia]).
Qed.

Lemma span_digits_suffix s : forall ds rest,
  span_digits s = (ds, rest) -> s = ds ++ rest.
Proof.
  induction s as [|c s IH]; intros ds rest H; cbn in H.
  - now injection H as <- <-.
  - destruct (is_digit c).
    + destruct (span_digits s) as [ds' rest'] eqn:E.
      injection H as <- <-. cbn. f_equal. now apply IH.
    + now injection H as <- <-.
Qed.

Lemma int_part_suffix s ds rest :
  int_part s = Some (ds, rest) -> exists a c, s = a :: c ++ rest.
Proof.
  unfold int_part. intros H.
  destruct s as [|c s]; [discriminate|].
  destruct (c =? 48).
  - injection H as <- <-. now exists c, [].
  - destruct ((49 <=? c) && (c <=? 57)); [|discriminate].
    destruct (span_digits s) as [ds' rest'] eqn:E.
    injection H as <- <-. apply span_digits_suffix in E. subst s.
    now exists c, ds'.
Qed.

Lemma frac_part_suffix s ds rest :
  frac_part s = Some (ds, rest) -> suffix rest s.
Proof.
  unfold frac_part. intros H.
  destruct s as [|c s]; [discriminate|].
  destruct (c =? 46); [|discriminate].
  destruct (span_digits s) as [ds' rest'] eqn:E.
  apply span_digits_suffix in E. subst s.
  destruct ds'; [discriminate|].
  injection H as <- <-. apply suffix_cons. now eexists.
Qed.

Lemma exp_part_suffix s x rest :
  exp_part s = Some (x, rest) -> suffix rest s.
Proof.
  unfold exp_part. intros H.
  destruct s as [|c s]; [discriminate|].
  destruct ((c =? 101) || (c =? 69)); [|discriminate].
  match type of H with
  | context [span_digits ?t] =>
      assert (Ht : suffix t s);
      [| destruct (span_digits t) as [ds' rest'] eqn:E ]
  end.
  { destruct s as [|d t]; [apply suffix_refl|].
    destruct ((d =? 45) || (d =? 43)); auto with suffix. }
  apply span_digits_suffix in E.
  destruct ds'; [discriminate|].
  injection H as _ <-. apply suffix_cons.
  eapply suffix_trans; [|exact Ht]. eexists; exact E.
Qed.

Lemma match_number_suffix s r rest :
  match_number s = Some (r, rest) -> exists a c, s = a :: c ++ rest.
Proof.
  unfold match_number. intros H.
  destruct (int_part _) as [[ip s1]|] eqn:Ei; [|discriminate].
  assert (H1 : exists a c, s = a :: c ++ s1).
  { apply int_part_suffix in Ei as (a & c & E).
    destruct s as [|x s]; [discriminate|].
    destruct (x =? 45); cbn in E.
    - exists x, (a :: c). now rewrite E.
    - now exists a, c. }
  assert (H2 : suffix rest s1).
  { destruct (frac_part s1) as [[fd s2]|] eqn:Ef;
      destruct (exp_part _) as [[x s3]|] eqn:Ee;
      repeat (break_match H; try discriminate);
      injection H as _ <-;
      repeat match goal with
      | E : frac_part _ = Some _ |- _ => apply frac_part_suffix in E
      | E : exp_part _ = Some _ |- _ => apply exp_part_suffix in E
      end;
      eauto using suffix_trans, suffix_refl. }
  destruct H1 as (a & c & ->), H2 as [c' ->].
  exists a, (c ++ c'). now rewrite <- app_assoc.
Qed.

Lemma startswith_app s p : startswith s p = true -> s = p ++ skipn (length p) s.
Proof.
  revert s; induction p as [|c p IH]; intros s H; [reflexivity|].
  destruct s as [|d s]; [discriminate|].
  cbn in H. apply andb_prop in H as [E H]. apply N.eqb_eq in E. subst d.
  cbn. f_equal. now apply IH.
Qed.

Lemma match_constant_suffix table s v rest :
  Forall (fun nv => fst nv <> []) table ->
  match_constant table s = Some (v, rest) -> exists a c, s = a :: c ++ rest.
Proof.
  induction 1 as [|[name w] table Hn _ IH]; cbn; [discriminate|].
  destruct (startswith s name) eqn:E; [|exact IH].
  intros H; injection H as _ <-.
  apply startswith_app in E. cbn in Hn.
  destruct name as [|a c]; [congruence|].
  exists a, c. exact E.
Qed.

Lemma constants_nonempty : Forall (fun nv => fst nv <> []) constants.
Proof. repeat constructor; discriminate. Qed.


Lemma match_number_not_dict s v rest d :
  match_number s = Some (inr v, rest) -> v <> PDict d.
Proof.
  unfold match_number. intros H.
  repeat (break_match H; try discriminate);
    injection H as <- _; discriminate.
Qed.

Lemma match_constant_not_dict s v rest d :
  match_constant constants s = Some (v, rest) -> v <> PDict d.
Proof.
  cbn. intros H.
  repeat (break_match H; try discriminate);
    injection H as <- _; discriminate.
Qed.

Lemma scan_shapes fuel :
  (forall depth s v rest,
     scan_once fuel depth s = inr (v, rest) -> reads_value s v rest)
  /\ (forall depth pairs s v rest,
        object_items fuel depth pairs s = inr (v, rest) ->
        exists c, s = c ++ 125 :: rest)
  /\ (forall depth items s v rest,
        array_items fuel depth items s = inr (v, rest) ->
        (exists a c, s = a :: c ++ rest) /\ exists l, v = PList l).
Proof.
  induction fuel as [|f (IHv & IHo & IHa)];
    [repeat split; intros; discriminate|].
  repeat apply conj.
  - (* scan_once *)
    intros depth s v rest H. cbn [scan_once] in H.
    destruct s as [|c s1]; [discriminate|].
    destruct (N.eqb_spec c 34) as [->|_].
    { destruct (scanstring _ _ _) as [|[x r]] eqn:E; [discriminate|].
      injection H as <- <-.
      apply (scanstring_suffix (n := length s1)) in E as [w ->]; [|lia].
      split; [now exists 34, w | discriminate]. }
    destruct (N.eqb_spec c 123) as [->|_].
    { destruct depth as [|inner]; [discriminate|].
      destruct (skip_ws_suffix s1) as [w Hw].
      assert (Ho : exists c, skip_ws s1 = c ++ 125 :: rest).
      { destruct (skip_ws s1) as [|d s2].
        - now apply IHo in H.
        - destruct (N.eqb_spec d 125) as [->|_].
          + injection H as _ <-. now exists [].
          + now apply IHo in H. }
      destruct Ho as [c' Ho]. rewrite Ho in Hw. subst s1.
      split.
      - exists 123, (w ++ c' ++ [125]).
        now rewrite <- !app_assoc.
      - intros _ _. exists (w ++ c'). now rewrite <- app_assoc. }
    destruct (N.eqb_spec c 91) as [->|_].
    { destruct depth as [|inner]; [discriminate|].
      destruct (skip_ws_suffix s1) as [w Hw].
      assert (Ho : suffix rest (skip_ws s1) /\ exists l, v = PList l).
      { destruct (skip_ws s1) as [|d s2].
        - apply IHa in H as [(a & c & E) ?]. discriminate.
        - destruct (N.eqb_spec d 93) as [->|_].
          + injection H as <- <-. split; [now exists [93] | now exists []].
          + apply IHa in H as [(a & c & E) ?].
            split; [exists (a :: c); exact E | assumption]. }
      destruct Ho as [[c' Ho] [l ->]]. rewrite Ho in Hw. subst s1.
      split; [|discriminate].
      exists 91, (w ++ c'). now rewrite <- app_assoc. }
    destruct (match_constant constants (c :: s1)) as [[w r]|] eqn:Ec.
    { destruct (looked_up depth w); [|discriminate].
      injection H as <- <-. split.
      - eapply match_constant_suffix; [apply constants_nonempty | exact Ec].
      - intros d ->.
        exfalso. eapply match_constant_not_dict; [exact Ec | reflexivity]. }
    destruct (match_number (c :: s1)) as [[[e|w] r]|] eqn:En;
      try discriminate.
    injection H as <- <-. split.
    + eapply match_number_suffix; exact En.
    + intros d ->. exfalso.
      eapply match_number_not_dict; [exact En | reflexivity].
  - (* object_items *)
    intros depth pairs s v rest H. cbn [object_items] in H.
    destruct s as [|c s1]; [discriminate|].
    destruct (c =? 34); [|discriminate].
    destruct (scanstring _ _ _) as [|[key s2]] eqn:Ek; [discriminate|].
    apply (scanstring_suffix (n := length s1)) in Ek; [|lia].
    pose proof (skip_ws_suffix s2) as Hw2.
    destruct (skip_ws s2) as [|d s3]; [discriminate|].
    destruct (d =? 58); [|discriminate].
    pose proof (skip_ws_suffix s3) as Hw3.
    destruct (scan_once f depth (skip_ws s3)) as [|[x s4]] eqn:Ev;
      [discriminate|].
    apply IHv in Ev as [(a & cv & Ev) _].
    pose proof (skip_ws_suffix s4) as Hw4.
    assert (Hr : exists c, skip_ws s4 = c ++ 125 :: rest).
    { destruct (skip_ws s4) as [|y s5]; [discriminate|].
      destruct (N.eqb_spec y 125) as [->|_].
      - injection H as _ <-. now exists [].
      - destruct (y =? 44); [|discriminate].
        apply IHo in H as [c' H].
        destruct (skip_ws_suffix s5) as [w5 Hw5]. rewrite H in Hw5.
        exists (y :: w5 ++ c'). rewrite Hw5. cbn. now rewrite <- app_assoc. }
    destruct Hr as [c4 Hr]. rewrite Hr in Hw4.
    assert (Hs : suffix (c4 ++ 125 :: rest) (c :: s1)).
    { apply suffix_cons.
      eapply suffix_trans; [|exact Ek].
      eapply suffix_trans; [|exact Hw2].
      apply suffix_cons.
      eapply suffix_trans; [|exact Hw3].
      rewrite Ev. apply suffix_cons.
      destruct Hw4 as [w4 ->]. exists (cv ++ w4). now rewrite app_assoc. }
    destruct Hs as [c0 ->]. exists (c0 ++ c4). now rewrite <- app_assoc.
  - (* array_items *)
    intros depth items s v rest H. cbn [array_items] in H.
    destruct (scan_once f depth s) as [|[x s1]] eqn:Ev; [discriminate|].
    apply IHv in Ev as [(a & cv & ->) _].
    pose proof (skip_ws_suffix s1) as [w1 Hw1].
    destruct (skip_ws s1) as [|y s2]; [discriminate|].
    destruct (N.eqb_spec y 93) as [->|_].
    + injection H as <- <-. split; [|eexists; reflexivity].
      exists a, (cv ++ w1 ++ [93]). rewrite Hw1.
      now rewrite <- !app_assoc.
    + destruct (y =? 44); [|discriminate].
      apply IHa in H as [(a' & c' & H) Hl]. split; [|exact Hl].
      destruct (skip_ws_suffix s2) as [w2 Hw2]. rewrite H in Hw2.
      exists a, (cv ++ w1 ++ y :: w2 ++ a' :: c').
      rewrite Hw1, Hw2.
      repeat (rewrite <- app_assoc || rewrite <- app_comm_cons).
      reflexivity.
Qed.


Lemma loads_dict_shape depth s d :
  loads depth s = inr (PDict d) ->
  exists pre mid post, s = pre ++ 123 :: mid ++ 125 :: post.
Proof.
  unfold loads, raise_decode_error. intros H.
  destruct (startswith s [65279]); [discriminate|].
  destruct (scan_once _ _ _) as [[]|[v rest]] eqn:E;
    try discriminate;
    try (destruct (construction_failure _); discriminate).
  destruct (skip_ws rest);
    [|destruct (construction_failure _); discriminate].
  injection H as ->.
  apply scan_shapes in E as [_ E].
  destruct (E d eq_refl) as [mid Hm].
  destruct (skip_ws_suffix s) as [w Hw].
  exists w, mid, rest. now rewrite <- Hm.
Qed.

(** *** The fuel of [loads] is never used up *)

Lemma scanstring_in_fuel s : forall start acc,
  in_fuel (scanstring start acc s).
Proof.
  assert (G : forall n s start acc, (length s <= n)%nat ->
                in_fuel (scanstring start acc s)).
  { induction n as [|n IH]; intros s0 start acc Hn.
    - destruct s0; [discriminate | cbn in Hn; lia].
    - destruct s0 as [|c s1]; [discriminate|].
      unfold in_fuel. cbn [scanstring]. cbn [length] in Hn.
      repeat (match goal with
              | |- context [match ?x with _ => _ end] => destruct x eqn:?
              end; try discriminate; cbn [length] in Hn);
        apply IH; cbn [length]; lia. }
  intros. now apply (G (length s)).
Qed.

Lemma skip_ws_length s : (length (skip_ws s) <= length s)%nat.
Proof. apply suffix_length, skip_ws_suffix. Qed.

Lemma errmsg_in_fuel {A} depth msg n :
  @in_fuel A (inl (errmsg depth msg n)).
Proof.
  unfold in_fuel, errmsg.
  destruct (construction_failure depth); discriminate.
Qed.

Lemma raised_at_in_fuel {A} depth e :
  e <> Exhausted -> @in_fuel A (inl (raised_at depth e)).
Proof.
  unfold in_fuel, raised_at. intros He.
  destruct e; try congruence;
    destruct (construction_failure depth); congruence.
Qed.

Lemma scan_in_fuel fuel :
  (forall depth s, (2 * length s + 1 <= fuel)%nat ->
     in_fuel (scan_once fuel depth s))
  /\ (forall depth pairs s, (2 * length s + 1 <= fuel)%nat ->
        in_fuel (object_items fuel depth pairs s))
  /\ (forall depth items s, (2 * length s + 2 <= fuel)%nat ->
        in_fuel (array_items fuel depth items s)).
Proof.
  induction fuel as [|f (IHv & IHo & IHa)];
    [repeat split; intros; lia|].
  repeat apply conj.
  - intros depth s Hf. unfold in_fuel. cbn [scan_once].
    destruct s as [|c s1]; [discriminate|].
    cbn [length] in Hf. pose proof (skip_ws_length s1).
    destruct (c =? 34).
    { destruct (scanstring _ _ _) as [e|[x r]] eqn:E; [|discriminate].
      apply raised_at_in_fuel. intros ->.
      eapply scanstring_in_fuel, E. }
    destruct (c =? 123).
    { destruct depth as [|inner]; [discriminate|].
      destruct (skip_ws s1) as [|d s2] eqn:E.
      - apply IHo. cbn. lia.
      - destruct (d =? 125); [discriminate|]. apply IHo. lia. }
    destruct (c =? 91).
    { destruct depth as [|inner]; [discriminate|].
      destruct (skip_ws s1) as [|d s2] eqn:E.
      - apply IHa. cbn. lia.
      - destruct (d =? 93); [discriminate|]. apply IHa. lia. }
    destruct (match_constant _ _) as [[w r]|];
      [unfold no_lookup; destruct (looked_up depth w); discriminate|].
    destruct (match_number (c :: s1)) as [[[e|w] r]|] eqn:En;
      discriminate.
  - intros depth pairs s Hf. unfold in_fuel. cbn [object_items].
    destruct s as [|c s1]; [apply errmsg_in_fuel|].
    cbn [length] in Hf.
    destruct (c =? 34); [|apply errmsg_in_fuel].
    destruct (scanstring _ _ _) as [e|[key s2]] eqn:Ek.
    { apply raised_at_in_fuel. intros ->.
      eapply scanstring_in_fuel, Ek. }
    apply (scanstring_suffix (n := length s1)) in Ek; [|lia].
    apply suffix_length in Ek.
    pose proof (skip_ws_length s2).
    destruct (skip_ws s2) as [|d s3]; [apply errmsg_in_fuel|].
    destruct (d =? 58); [|apply errmsg_in_fuel].
    pose proof (skip_ws_length s3). cbn [length] in *.
    destruct (scan_once f depth (skip_ws s3)) as [|[x s4]] eqn:Ev.
    { intros H'; injection H' as ->. eapply IHv; [|exact Ev]. lia. }
    apply scan_shapes in Ev as [(a & cv & Ev) _].
    apply (f_equal (@length _)) in Ev. cbn [length] in Ev.
    rewrite length_app in Ev.
    pose proof (skip_ws_length s4).
    destruct (skip_ws s4) as [|y s5]; [apply errmsg_in_fuel|].
    destruct (y =? 125); [discriminate|].
    destruct (y =? 44); [|apply errmsg_in_fuel].
    pose proof (skip_ws_length s5). cbn [length] in *.
    apply IHo. lia.
  - intros depth items s Hf. unfold in_fuel. cbn [array_items].
    destruct (scan_once f depth s) as [|[x s1]] eqn:Ev.
    { intros H'; injection H' as ->. eapply IHv; [|exact Ev]. lia. }
    apply scan_shapes in Ev as [(a & cv & Ev) _].
    apply (f_equal (@length _)) in Ev. cbn [length] in Ev.
    rewrite length_app in Ev.
    pose proof (skip_ws_length s1).
    destruct (skip_ws s1) as [|y s2]; [apply errmsg_in_fuel|].
    destruct (y =? 93); [discriminate|].
    destruct (y =? 44); [|apply errmsg_in_fuel].
    pose proof (skip_ws_length s2). cbn [length] in *.
    apply IHa. lia.
Qed.

(** [loads] never stops for want of fuel: what it returns or raises is
    what the scanner returned or raised. *)
Lemma loads_in_fuel depth s :
  in_fuel (scan_once (fuel_for s) depth (skip_ws s)).
Proof.
  apply scan_in_fuel.
  pose proof (skip_ws_length s). unfold fuel_for. lia.
Qed.

End JsonFacts.

(** *** Decoding with [errors="ignore"] only drops bytes *)

Section Utf8Facts.
Local Open Scope N_scope.

Lemma subseq_empty l : subseq [] l.
Proof. induction l; now constructor. Qed.

Lemma subseq_refl l : subseq l l.
Proof. induction l; now constructor. Qed.

Ltac split_bools :=
  repeat match goal with
  | H : (_ && _)%bool = true |- _ => apply andb_prop in H as [? ?]
  | H : (_ || _)%bool = false |- _ => apply orb_false_elim in H as [? ?]
  | H : (_ && _)%bool = false |- _ => apply andb_false_iff in H
  | H : negb _ = false |- _ => apply negb_false_iff in H
  | H : (_ <=? _) = true |- _ => apply N.leb_le in H
  | H : (_ <=? _) = false |- _ => apply N.leb_gt in H
  | H : (_ <? _) = true |- _ => apply N.ltb_lt in H
  | H : (_ <? _) = false |- _ => apply N.ltb_ge in H
  | H : (_ =? _) = true |- _ => apply N.eqb_eq in H
  | H : (_ =? _) = false |- _ => apply N.eqb_neq in H
  end.

Lemma encode_two b0 b1 :
  194 <= b0 -> b0 < 224 -> is_continuation b1 = true ->
  utf8_encode_char ((b0 - 192) * 64 + (b1 - 128)) = [b0; b1].
Proof.
  unfold is_continuation, utf8_encode_char. intros H0 H0' H1. split_bools.
  destruct (N.ltb_spec ((b0 - 192) * 64 + (b1 - 128)) 128); [lia|].
  destruct (N.ltb_spec ((b0 - 192) * 64 + (b1 - 128)) 2048); [|lia].
  set (c := (b0 - 192) * 64 + (b1 - 128)) in *.
  assert (c / 64 = b0 - 192) by (symmetry; apply (N.div_unique c 64 _ (b1 - 128)); lia).
  assert (c mod 64 = b1 - 128) by (symmetry; apply (N.mod_unique c 64 (b0 - 192)); lia).
  f_equal; [lia | f_equal; lia].
Qed.


Lemma bad_second_false b0 b1 :
  bad_second b0 b1 = false ->
  (b0 = 224 -> 160 <= b1) /\ (b0 = 237 -> b1 < 160)
  /\ (b0 = 240 -> 144 <= b1) /\ (b0 = 244 -> b1 < 144).
Proof.
  unfold bad_second.
  destruct (N.eqb_spec b0 224), (N.eqb_spec b0 237), (N.eqb_spec b0 240),
    (N.eqb_spec b0 244), (N.ltb_spec b1 160), (N.leb_spec 160 b1),
    (N.ltb_spec b1 144), (N.leb_spec 144 b1);
    cbn; intros; try discriminate; repeat split; intros; lia.
Qed.

Lemma encode_three b0 b1 b2 :
  224 <= b0 -> b0 < 240 ->
  is_continuation b1 = true -> bad_second b0 b1 = false ->
  is_continuation b2 = true ->
  utf8_encode_char ((b0 - 224) * 4096 + (b1 - 128) * 64 + (b2 - 128))
  = [b0; b1; b2].
Proof.
  unfold is_continuation, utf8_encode_char. intros H0 H0' H1 Hb H2.
  apply bad_second_false in Hb as (Hb & _). split_bools.
  set (c := (b0 - 224) * 4096 + (b1 - 128) * 64 + (b2 - 128)) in *.
  assert (2048 <= c < 65536) by (subst c; lia).
  destruct (N.ltb_spec c 128); [lia|].
  destruct (N.ltb_spec c 2048); [lia|].
  destruct (N.ltb_spec c 65536); [|lia].
  assert (c / 4096 = b0 - 224)
    by (symmetry;
        apply (N.div_unique c 4096 _ ((b1 - 128) * 64 + (b2 - 128))); lia).
  assert (c / 64 = (b0 - 224) * 64 + (b1 - 128))
    by (symmetry; apply (N.div_unique c 64 _ (b2 - 128)); lia).
  assert ((c / 64) mod 64 = b1 - 128)
    by (symmetry; apply (N.mod_unique _ 64 (b0 - 224)); lia).
  assert (c mod 64 = b2 - 128)
    by (symmetry;
        apply (N.mod_unique c 64 ((b0 - 224) * 64 + (b1 - 128))); lia).
  repeat (f_equal; try lia).
Qed.

Lemma encode_four b0 b1 b2 b3 :
  240 <= b0 -> b0 < 245 ->
  is_continuation b1 = true -> bad_second b0 b1 = false ->
  is_continuation b2 = true -> is_continuation b3 = true ->
  utf8_encode_char ((b0 - 240) * 262144 + (b1 - 128) * 4096
                    + (b2 - 128) * 64 + (b3 - 128))
  = [b0; b1; b2; b3].
Proof.
  unfold is_continuation, utf8_encode_char. intros H0 H0' H1 Hb H2 H3.
  apply bad_second_false in Hb as (_ & _ & Hb & _). split_bools.
  set (c := (b0 - 240) * 262144 + (b1 - 128) * 4096
            + (b2 - 128) * 64 + (b3 - 128)) in *.
  assert (65536 <= c) by (subst c; lia).
  destruct (N.ltb_spec c 128); [lia|].
  destruct (N.ltb_spec c 2048); [lia|].
  destruct (N.ltb_spec c 65536); [lia|].
  assert (c / 262144 = b0 - 240)
    by (symmetry;
        apply (N.div_unique c 262144 _
                 ((b1 - 128) * 4096 + (b2 - 128) * 64 + (b3 - 128))); lia).
  assert (c / 4096 = (b0 - 240) * 64 + (b1 - 128))
    by (symmetry;
        apply (N.div_unique c 4096 _ ((b2 - 128) * 64 + (b3 - 128))); lia).
  assert ((c / 4096) mod 64 = b1 - 128)
    by (symmetry; apply (N.mod_unique _ 64 (b0 - 240)); lia).
  assert (c / 64 = (b0 - 240) * 4096 + (b1 - 128) * 64 + (b2 - 128))
    by (symmetry; apply (N.div_unique c 64 _ (b3 - 128)); lia).
  assert ((c / 64) mod 64 = b2 - 128)
    by (symmetry;
        apply (N.mod_unique _ 64 ((b0 - 240) * 64 + (b1 - 128))); lia).
  assert (c mod 64 = b3 - 128)
    by (symmetry;
        apply (N.mod_unique c 64
                 ((b0 - 240) * 4096 + (b1 - 128) * 64 + (b2 - 128))); lia).
  repeat (f_equal; try lia).
Qed.

Lemma decode_ignore_subseq_N bs :
  subseq (utf8_encode (utf8_decode_ignore bs)) bs.
Proof.
  assert (G : forall n bs, (length bs <= n)%nat ->
                subseq (utf8_encode (utf8_decode_ignore bs)) bs).
  { clear bs. induction n as [|n IH]; intros bs Hn.
    - destruct bs; [constructor | cbn in Hn; lia].
    - destruct bs as [|b0 r0]; [constructor|].
      cbn [length] in Hn. cbn [utf8_decode_ignore].
      destruct (N.ltb_spec b0 128).
      { cbn. unfold utf8_encode_char.
        destruct (N.ltb_spec b0 128); [|lia].
        cbn. constructor. apply IH. lia. }
      destruct (N.ltb_spec b0 194).
      { constructor. apply IH. lia. }
      destruct (N.ltb_spec b0 224).
      { destruct r0 as [|b1 r1]; [apply subseq_empty|]. cbn [length] in Hn.
        destruct (is_continuation b1) eqn:C1.
        - cbn [utf8_encode flat_map]. rewrite encode_two by assumption.
          cbn. do 2 constructor. apply IH. lia.
        - constructor. apply IH. cbn. lia. }
      destruct (N.ltb_spec b0 240).
      { destruct r0 as [|b1 r1]; [apply subseq_empty|]. cbn [length] in Hn.
        destruct (is_continuation b1) eqn:C1; cbn [negb orb];
          [|constructor; apply IH; cbn; lia].
        destruct (bad_second b0 b1) eqn:B1;
          [constructor; apply IH; cbn; lia|].
        destruct r1 as [|b2 r2]; [apply subseq_empty|]. cbn [length] in Hn.
        destruct (is_continuation b2) eqn:C2.
        - cbn [utf8_encode flat_map]. rewrite encode_three by assumption.
          cbn. do 3 constructor. apply IH. lia.
        - do 2 constructor. apply IH. cbn. lia. }
      destruct (N.ltb_spec b0 245).
      { destruct r0 as [|b1 r1]; [apply subseq_empty|]. cbn [length] in Hn.
        destruct (is_continuation b1) eqn:C1; cbn [negb orb];
          [|constructor; apply IH; cbn; lia].
        destruct (bad_second b0 b1) eqn:B1;
          [constructor; apply IH; cbn; lia|].
        destruct r1 as [|b2 r2]; [apply subseq_empty|]. cbn [length] in Hn.
        destruct (is_continuation b2) eqn:C2;
          [|do 2 constructor; apply IH; cbn; lia].
        destruct r2 as [|b3 r3]; [apply subseq_empty|]. cbn [length] in Hn.
        destruct (is_continuation b3) eqn:C3.
        - cbn [utf8_encode flat_map]. rewrite encode_four by assumption.
          cbn. do 4 constructor. apply IH. lia.
        - do 3 constructor. apply IH. cbn. lia. }
      constructor. apply IH. lia. }
  now apply (G (length bs)).
Qed.

End Utf8Facts.

(** *** Well-formed UTF-8 decodes to the text it encodes *)

Section Utf8Roundtrip.
Local Open Scope N_scope.

Ltac lead_byte :=
  repeat match goal with
  | |- context [?a <? ?b] =>
      first [ rewrite (proj2 (N.ltb_lt a b)) by assumption
            | rewrite (proj2 (N.ltb_ge a b)) by assumption ]
  end.

Lemma decode_two b0 b1 rest :
  194 <= b0 -> b0 < 224 -> is_continuation b1 = true ->
  utf8_decode_ignore (b0 :: b1 :: rest)
  = ((b0 - 192) * 64 + (b1 - 128)) :: utf8_decode_ignore rest.
Proof.
  intros H0 H1 C1. cbn [utf8_decode_ignore].
  assert (128 <= b0) by lia.
  lead_byte. now rewrite C1.
Qed.

Lemma decode_three b0 b1 b2 rest :
  224 <= b0 -> b0 < 240 ->
  is_continuation b1 = true -> bad_second b0 b1 = false ->
  is_continuation b2 = true ->
  utf8_decode_ignore (b0 :: b1 :: b2 :: rest)
  = ((b0 - 224) * 4096 + (b1 - 128) * 64 + (b2 - 128))
      :: utf8_decode_ignore rest.
Proof.
  intros H0 H1 C1 B1 C2. cbn [utf8_decode_ignore].
  assert (128 <= b0) by lia. assert (194 <= b0) by lia.
  lead_byte. now rewrite C1, B1, C2.
Qed.

Lemma decode_four b0 b1 b2 b3 rest :
  240 <= b0 -> b0 < 245 ->
  is_continuation b1 = true -> bad_second b0 b1 = false ->
  is_continuation b2 = true -> is_continuation b3 = true ->
  utf8_decode_ignore (b0 :: b1 :: b2 :: b3 :: rest)
  = ((b0 - 240) * 262144 + (b1 - 128) * 4096 + (b2 - 128) * 64 + (b3 - 128))
      :: utf8_decode_ignore rest.
Proof.
  intros H0 H1 C1 B1 C2 C3. cbn [utf8_decode_ignore].
  assert (128 <= b0) by lia. assert (194 <= b0) by lia.
  assert (224 <= b0) by lia.
  lead_byte. now rewrite C1, B1, C2, C3.
Qed.

Lemma is_continuation_low r : r < 64 -> is_continuation (128 + r) = true.
Proof.
  intros H. unfold is_continuation.
  apply andb_true_intro; split; [apply N.leb_le | apply N.ltb_lt]; lia.
Qed.

Lemma bad_second_ok b0 b1 :
  (b0 = 224 -> 160 <= b1) -> (b0 = 237 -> b1 < 160) ->
  (b0 = 240 -> 144 <= b1) -> (b0 = 244 -> b1 < 144) ->
  bad_second b0 b1 = false.
Proof.
  unfold bad_second. intros.
  destruct (N.eqb_spec b0 224), (N.eqb_spec b0 237), (N.eqb_spec b0 240),
    (N.eqb_spec b0 244), (N.ltb_spec b1 160), (N.leb_spec 160 b1),
    (N.ltb_spec b1 144), (N.leb_spec 144 b1);
    cbn; try reflexivity; lia.
Qed.

Lemma decode_encode_char c rest :
  is_scalar c = true ->
  utf8_decode_ignore (utf8_encode_char c ++ rest)
  = c :: utf8_decode_ignore rest.
Proof.
  unfold is_scalar, utf8_encode_char. intros Hc.
  assert (Hs : c < 55296 \/ 57344 <= c < 1114112).
  { apply orb_prop in Hc as [H|H]; [left | right].
    - now apply N.ltb_lt.
    - apply andb_prop in H as [H1 H2].
      apply N.leb_le in H1. apply N.ltb_lt in H2. lia. }
  clear Hc.
  pose proof (N.div_mod c 64 ltac:(discriminate)) as D1.
  pose proof (N.mod_lt c 64 ltac:(discriminate)) as M1.
  pose proof (N.div_mod (c / 64) 64 ltac:(discriminate)) as D2.
  pose proof (N.mod_lt (c / 64) 64 ltac:(discriminate)) as M2.
  pose proof (N.div_mod (c / 64 / 64) 64 ltac:(discriminate)) as D3.
  pose proof (N.mod_lt (c / 64 / 64) 64 ltac:(discriminate)) as M3.
  replace (c / 4096) with (c / 64 / 64)
    by (rewrite N.Div0.div_div; reflexivity).
  replace (c / 262144) with (c / 64 / 64 / 64)
    by (rewrite !N.Div0.div_div; reflexivity).
  set (q1 := c / 64) in *. set (r1 := c mod 64) in *.
  set (q2 := q1 / 64) in *. set (r2 := q1 mod 64) in *.
  set (q3 := q2 / 64) in *. set (r3 := q2 mod 64) in *.
  clearbody q1 r1 q2 r2 q3 r3.
  destruct (N.ltb_spec c 128) as [L1|L1].
  { cbn [app utf8_decode_ignore].
    now rewrite (proj2 (N.ltb_lt c 128) L1). }
  destruct (N.ltb_spec c 2048) as [L2|L2].
  { cbn [app]. rewrite decode_two.
    - f_equal. lia.
    - lia.
    - lia.
    - apply is_continuation_low, M1. }
  destruct (N.ltb_spec c 65536) as [L3|L3].
  { cbn [app]. rewrite decode_three.
    - f_equal. lia.
    - lia.
    - lia.
    - apply is_continuation_low, M2.
    - apply bad_second_ok; lia.
    - apply is_continuation_low, M1. }
  cbn [app]. rewrite decode_four.
  - f_equal. lia.
  - lia.
  - lia.
  - apply is_continuation_low, M3.
  - apply bad_second_ok; lia.
  - apply is_continuation_low, M2.
  - apply is_continuation_low, M1.
Qed.

Lemma decode_encode s :
  forallb is_scalar s = true -> utf8_decode_ignore (utf8_encode s) = s.
Proof.
  induction s as [|c s IH]; [reflexivity|].
  cbn [forallb utf8_encode flat_map]. intros H.
  apply andb_prop in H as [Hc Hs].
  rewrite decode_encode_char by exact Hc. f_equal. now apply IH.
Qed.

End Utf8Roundtrip.

(** *** The decoder against the Unicode standard *)

Section Utf8Spec.
Local Open Scope N_scope.

Ltac split_bools :=
  repeat match goal with
  | H : (_ && _)%bool = true |- _ => apply andb_prop in H as [? ?]
  | H : (_ || _)%bool = false |- _ => apply orb_false_elim in H as [? ?]
  | H : negb _ = false |- _ => apply negb_false_iff in H
  | H : negb _ = true |- _ => apply negb_true_iff in H
  | H : (_ <=? _) = true |- _ => apply N.leb_le in H
  | H : (_ <=? _) = false |- _ => apply N.leb_gt in H
  | H : (_ <? _) = true |- _ => apply N.ltb_lt in H
  | H : (_ <? _) = false |- _ => apply N.ltb_ge in H
  | H : (_ =? _) = true |- _ => apply N.eqb_eq in H
  | H : (_ =? _) = false |- _ => apply N.eqb_neq in H
  end.

Lemma is_scalar_range c :
  is_scalar c = true -> c < 55296 \/ 57344 <= c < 1114112.
Proof.
  unfold is_scalar. intros Hc.
  apply orb_prop in Hc as [H|H]; [left | right].
  - now apply N.ltb_lt.
  - apply andb_prop in H as [H1 H2].
    apply N.leb_le in H1. apply N.ltb_lt in H2. lia.
Qed.

Lemma encode_well_formed c tail :
  is_scalar c = true -> well_formed_head (utf8_encode_char c ++ tail).
Proof.
  intros Hc. apply is_scalar_range in Hc as Hs. clear Hc.
  unfold utf8_encode_char.
  pose proof (N.div_mod c 64 ltac:(discriminate)) as D1.
  pose proof (N.mod_lt c 64 ltac:(discriminate)) as M1.
  pose proof (N.div_mod (c / 64) 64 ltac:(discriminate)) as D2.
  pose proof (N.mod_lt (c / 64) 64 ltac:(discriminate)) as M2.
  pose proof (N.div_mod (c / 64 / 64) 64 ltac:(discriminate)) as D3.
  pose proof (N.mod_lt (c / 64 / 64) 64 ltac:(discriminate)) as M3.
  replace (c / 4096) with (c / 64 / 64)
    by (rewrite N.Div0.div_div; reflexivity).
  replace (c / 262144) with (c / 64 / 64 / 64)
    by (rewrite !N.Div0.div_div; reflexivity).
  set (q1 := c / 64) in *. set (r1 := c mod 64) in *.
  set (q2 := q1 / 64) in *. set (r2 := q1 mod 64) in *.
  set (q3 := q2 / 64) in *. set (r3 := q2 mod 64) in *.
  clearbody q1 r1 q2 r2 q3 r3.
  destruct (N.ltb_spec c 128) as [L1|L1]; [now left|].
  destruct (N.ltb_spec c 2048) as [L2|L2].
  { right; left. split; [lia|]. eexists _, _. split; [reflexivity|].
    apply is_continuation_low, M1. }
  destruct (N.ltb_spec c 65536) as [L3|L3].
  { right; right; left. split; [lia|]. eexists _, _, _.
    split; [reflexivity|]. repeat split.
    - apply is_continuation_low, M2.
    - apply bad_second_ok; lia.
    - apply is_continuation_low, M1. }
  right; right; right. split; [lia|]. eexists _, _, _, _.
  split; [reflexivity|]. repeat split.
  - apply is_continuation_low, M3.
  - apply bad_second_ok; lia.
  - apply is_continuation_low, M2.
  - apply is_continuation_low, M1.
Qed.

Lemma continuation_dropped b rest :
  is_continuation b = true ->
  utf8_decode_ignore (b :: rest) = utf8_decode_ignore rest.
Proof.
  unfold is_continuation. intros H. split_bools.
  cbn [utf8_decode_ignore].
  rewrite (proj2 (N.ltb_ge b 128)) by assumption.
  now rewrite (proj2 (N.ltb_lt b 194)) by lia.
Qed.

Lemma scalar_two b0 b1 :
  194 <= b0 -> b0 < 224 -> is_continuation b1 = true ->
  is_scalar ((b0 - 192) * 64 + (b1 - 128)) = true.
Proof.
  unfold is_continuation, is_scalar. intros. split_bools.
  apply orb_true_intro; left. apply N.ltb_lt. lia.
Qed.

Lemma scalar_three b0 b1 b2 :
  224 <= b0 -> b0 < 240 ->
  is_continuation b1 = true -> bad_second b0 b1 = false ->
  is_continuation b2 = true ->
  is_scalar ((b0 - 224) * 4096 + (b1 - 128) * 64 + (b2 - 128)) = true.
Proof.
  unfold is_continuation, is_scalar. intros H0 H0' H1 Hb H2.
  apply bad_second_false in Hb as (_ & Hb & _). split_bools.
  apply orb_true_iff.
  destruct (N.lt_trichotomy b0 237) as [L|[E|G]].
  - left. apply N.ltb_lt. lia.
  - left. apply N.ltb_lt. specialize (Hb E). lia.
  - right. apply andb_true_intro; split;
      [apply N.leb_le | apply N.ltb_lt]; lia.
Qed.

Lemma scalar_four b0 b1 b2 b3 :
  240 <= b0 -> b0 < 245 ->
  is_continuation b1 = true -> bad_second b0 b1 = false ->
  is_continuation b2 = true -> is_continuation b3 = true ->
  is_scalar ((b0 - 240) * 262144 + (b1 - 128) * 4096
             + (b2 - 128) * 64 + (b3 - 128)) = true.
Proof.
  unfold is_continuation, is_scalar. intros H0 H0' H1 Hb H2 H3.
  apply bad_second_false in Hb as (_ & _ & Hlow & Hb). split_bools.
  apply orb_true_iff. right.
  apply andb_true_intro; split; [apply N.leb_le | apply N.ltb_lt].
  - destruct (N.eq_dec b0 240) as [E|E]; [specialize (Hlow E)|]; lia.
  - destruct (N.eq_dec b0 244) as [E|E]; [specialize (Hb E)|]; lia.
Qed.

(** What the decoder does with the first byte: it reads the well-formed
    encoding of a scalar value that starts there, or there is none and it
    goes on behind the byte. *)
Lemma decode_step b0 r0 :
  (exists c rest,
     is_scalar c = true /\ b0 :: r0 = utf8_encode_char c ++ rest
     /\ utf8_decode_ignore (b0 :: r0) = c :: utf8_decode_ignore rest)
  \/ (~ well_formed_head (b0 :: r0)
      /\ utf8_decode_ignore (b0 :: r0) = utf8_decode_ignore r0).
Proof.
  destruct (N.ltb_spec b0 128) as [L1|L1].
  { left. exists b0, r0. repeat split.
    - unfold is_scalar. apply orb_true_intro; left. apply N.ltb_lt. lia.
    - unfold utf8_encode_char.
      now rewrite (proj2 (N.ltb_lt b0 128)) by assumption.
    - cbn [utf8_decode_ignore].
      now rewrite (proj2 (N.ltb_lt b0 128)) by assumption. }
  destruct (N.ltb_spec b0 194) as [L2|L2].
  { right. split.
    - cbn. intros [H|[[H _]|[[H _]|[H _]]]]; lia.
    - cbn [utf8_decode_ignore].
      rewrite (proj2 (N.ltb_ge b0 128)) by assumption.
      now rewrite (proj2 (N.ltb_lt b0 194)) by assumption. }
  assert (E128 : (b0 <? 128) = false) by (apply N.ltb_ge; lia).
  assert (E194 : (b0 <? 194) = false) by (apply N.ltb_ge; lia).
  destruct (N.ltb_spec b0 224) as [L3|L3].
  { destruct r0 as [|b1 r1].
    { right. split.
      - cbn. intros [H|[(_ & b1 & r1 & H & _)|[[H _]|[H _]]]];
          try lia; discriminate.
      - cbn [utf8_decode_ignore].
        now rewrite E128, E194, (proj2 (N.ltb_lt b0 224)) by assumption. }
    destruct (is_continuation b1) eqn:C1.
    - left. exists ((b0 - 192) * 64 + (b1 - 128)), r1. repeat split.
      + apply scalar_two; assumption.
      + now rewrite encode_two by assumption.
      + now apply decode_two.
    - right. split.
      + cbn. intros [H|[(_ & x & r & H & Hc)|[[H _]|[H _]]]]; try lia.
        injection H as <- <-. congruence.
      + cbn [utf8_decode_ignore].
        now rewrite E128, E194, (proj2 (N.ltb_lt b0 224)), C1
          by assumption. }
  assert (E224 : (b0 <? 224) = false) by (apply N.ltb_ge; lia).
  destruct (N.ltb_spec b0 240) as [L4|L4].
  { assert (E240 : (b0 <? 240) = true) by (apply N.ltb_lt; lia).
    destruct r0 as [|b1 r1].
    { right. split.
      - cbn. intros [H|[[H _]|[(_ & x & y & r & H & _)|[H _]]]];
          try lia; discriminate.
      - cbn [utf8_decode_ignore]. now rewrite E128, E194, E224, E240. }
    destruct (is_continuation b1) eqn:C1.
    2:{ right. split.
        - cbn. intros [H|[[H _]|[(_ & x & y & r & H & Hc & _)|[H _]]]];
            try lia.
          injection H as <- _. congruence.
        - cbn [utf8_decode_ignore].
          now rewrite E128, E194, E224, E240, C1. }
    destruct (bad_second b0 b1) eqn:B1.
    { right. split.
      - cbn. intros [H|[[H _]|[(_ & x & y & r & H & _ & Hb & _)|[H _]]]];
          try lia.
        injection H as <- _. congruence.
      - cbn [utf8_decode_ignore].
        now rewrite E128, E194, E224, E240, C1, B1. }
    destruct r1 as [|b2 r2].
    { right. split.
      - cbn. intros [H|[[H _]|[(_ & x & y & r & H & _)|[H _]]]];
          try lia; discriminate.
      - rewrite (@continuation_dropped b1 _ C1).
        cbn [utf8_decode_ignore].
        now rewrite E128, E194, E224, E240, C1, B1. }
    destruct (is_continuation b2) eqn:C2.
    - left.
      exists ((b0 - 224) * 4096 + (b1 - 128) * 64 + (b2 - 128)), r2.
      repeat split.
      + apply scalar_three; assumption.
      + now rewrite encode_three by assumption.
      + now apply decode_three.
    - right. split.
      + cbn. intros [H|[[H _]|[(_ & x & y & r & H & _ & _ & Hc)|[H _]]]];
          try lia.
        injection H as _ <- _. congruence.
      + rewrite (@continuation_dropped b1 _ C1).
        cbn [utf8_decode_ignore].
        now rewrite E128, E194, E224, E240, C1, B1, C2. }
  assert (E240 : (b0 <? 240) = false) by (apply N.ltb_ge; lia).
  destruct (N.ltb_spec b0 245) as [L5|L5].
  { assert (E245 : (b0 <? 245) = true) by (apply N.ltb_lt; lia).
    destruct r0 as [|b1 r1].
    { right. split.
      - cbn. intros [H|[[H _]|[[H _]|(_ & x & y & z & r & H & _)]]];
          try lia; discriminate.
      - cbn [utf8_decode_ignore].
        now rewrite E128, E194, E224, E240, E245. }
    destruct (is_continuation b1) eqn:C1.
    2:{ right. split.
        - cbn. intros [H|[[H _]|[[H _]|(_ & x & y & z & r & H & Hc & _)]]];
            try lia.
          injection H as <- _. congruence.
        - cbn [utf8_decode_ignore].
          now rewrite E128, E194, E224, E240, E245, C1. }
    destruct (bad_second b0 b1) eqn:B1.
    { right. split.
      - cbn.
        intros [H|[[H _]|[[H _]|(_ & x & y & z & r & H & _ & Hb & _)]]];
          try lia.
        injection H as <- _. congruence.
      - cbn [utf8_decode_ignore].
        now rewrite E128, E194, E224, E240, E245, C1, B1. }
    destruct r1 as [|b2 r2].
    { right. split.
      - cbn. intros [H|[[H _]|[[H _]|(_ & x & y & z & r & H & _)]]];
          try lia; discriminate.
      - rewrite (@continuation_dropped b1 _ C1).
        cbn [utf8_decode_ignore].
        now rewrite E128, E194, E224, E240, E245, C1, B1. }
    destruct (is_continuation b2) eqn:C2.
    2:{ right. split.
        - cbn.
          intros [H|[[H _]|[[H _]|(_ & x & y & z & r & H & _ & _ & Hc & _)]]];
            try lia.
          injection H as _ <- _. congruence.
        - rewrite (@continuation_dropped b1 _ C1).
          cbn [utf8_decode_ignore].
          now rewrite E128, E194, E224, E240, E245, C1, B1, C2. }
    destruct r2 as [|b3 r3].
    { right. split.
      - cbn. intros [H|[[H _]|[[H _]|(_ & x & y & z & r & H & _)]]];
          try lia; discriminate.
      - rewrite (@continuation_dropped b1 _ C1), (@continuation_dropped b2 _ C2).
        cbn [utf8_decode_ignore].
        now rewrite E128, E194, E224, E240, E245, C1, B1, C2. }
    destruct (is_continuation b3) eqn:C3.
    - left.
      exists ((b0 - 240) * 262144 + (b1 - 128) * 4096
              + (b2 - 128) * 64 + (b3 - 128)), r3.
      repeat split.
      + apply scalar_four; assumption.
      + now rewrite encode_four by assumption.
      + now apply decode_four.
    - right. split.
      + cbn.
        intros [H|[[H _]|[[H _]|(_ & x & y & z & r & H & _ & _ & _ & Hc)]]];
          try lia.
        injection H as _ _ <- _. congruence.
      + rewrite (@continuation_dropped b1 _ C1), (@continuation_dropped b2 _ C2).
        cbn [utf8_decode_ignore].
        now rewrite E128, E194, E224, E240, E245, C1, B1, C2, C3. }
  right. split.
  - cbn. intros [H|[[H _]|[[H _]|[H _]]]]; lia.
  - cbn [utf8_decode_ignore].
    rewrite E128, E194, E224, E240.
    now rewrite (proj2 (N.ltb_ge b0 245)) by assumption.
Qed.

Lemma encode_nonempty c : utf8_encode_char c <> [].
Proof.
  unfold utf8_encode_char.
  destruct (c <? 128); [discriminate|].
  destruct (c <? 2048); [discriminate|].
  destruct (c <? 65536); discriminate.
Qed.

(** The decoder meets the standard's description, and nothing else
    does. *)
Lemma decode_ignore_spec bs :
  decoded_ignoring_errors bs (utf8_decode_ignore bs).
Proof.
  assert (G : forall n bs, (length bs <= n)%nat ->
                decoded_ignoring_errors bs (utf8_decode_ignore bs)).
  { clear bs. induction n as [|n IH]; intros bs Hn.
    - destruct bs; [constructor | cbn in Hn; lia].
    - destruct bs as [|b0 r0]; [constructor|]. cbn [length] in Hn.
      destruct (decode_step b0 r0) as [(c & rest & Hc & E & D)|[Hw D]].
      + rewrite D, E. apply character; [exact Hc|]. apply IH.
        apply (f_equal (@length _)) in E. rewrite length_app in E.
        cbn [length] in E.
        pose proof (encode_nonempty c) as Hne.
        destruct (utf8_encode_char c); [congruence|]. cbn [length] in E. lia.
      + rewrite D. apply ill_formed_byte; [|apply IH; lia].
        intros c tail Hc E. apply Hw. rewrite E.
        now apply encode_well_formed. }
  now apply (G (length bs)).
Qed.

Lemma decode_ignore_unique bs s :
  decoded_ignoring_errors bs s -> s = utf8_decode_ignore bs.
Proof.
  induction 1 as [|c rest s Hc _ IH|b rest s Hb _ IH].
  - reflexivity.
  - rewrite decode_encode_char by exact Hc. now f_equal.
  - destruct (decode_step b rest) as [(c & tail & Hc & E & _)|[_ D]].
    + now destruct (Hb c tail Hc E).
    + now rewrite D.
Qed.

End Utf8Spec.

(** *** [int] of a decimal numeral *)

Section IntOfNumeral.
Variable P : Platform.
Local Open Scope Z_scope.

Lemma lit_cons (c : ascii) (s : string) :
  lit (String c s) = N_of_ascii c :: lit s.
Proof. reflexivity. Qed.

Lemma scan_digits_step prev acc n c s :
  is_digit c = true ->
  scan_digits prev acc n (c :: s)
  = scan_digits Digit (10 * acc + Z.of_N (c - 48)) (S n) s.
Proof. intros H. cbn [scan_digits]. now rewrite H. Qed.

Ltac read_digit :=
  rewrite lit_cons, scan_digits_step by reflexivity;
  match goal with
  | |- context [Z.of_N ?x] =>
      let v := eval vm_compute in (Z.of_N x) in change (Z.of_N x) with v
  end.

Lemma scan_digits_acc d : forall (acc : positive) n,
  scan_digits Digit (Z.pos acc) n (lit (NilEmpty.string_of_uint d))
  = Some (Z.pos (Pos.of_uint_acc d acc), (n + Decimal.nb_digits d)%nat, []).
Proof.
  induction d; intros acc n;
    cbn [NilEmpty.string_of_uint Pos.of_uint_acc Decimal.nb_digits];
    [cbn; now rewrite Nat.add_0_r|..];
    read_digit;
    match goal with
    | |- scan_digits Digit ?a _ _ = Some (Z.pos (Pos.of_uint_acc d ?b), _, _) =>
        replace a with (Z.pos b) by lia
    end;
    rewrite IHd; do 3 f_equal; lia.
Qed.

Lemma scan_digits_numeral d : forall prev n,
  d <> Decimal.Nil \/ prev = Digit ->
  scan_digits prev 0 n (lit (NilEmpty.string_of_uint d))
  = Some (Z.of_N (Pos.of_uint d), (n + Decimal.nb_digits d)%nat, []).
Proof.
  induction d; intros prev n H;
    cbn [NilEmpty.string_of_uint Pos.of_uint Decimal.nb_digits];
    [destruct H as [H| ->]; [congruence|]; cbn; now rewrite Nat.add_0_r
    |read_digit; rewrite IHd by (now right); do 3 f_equal; lia
    |read_digit;
     match goal with
     | |- scan_digits Digit ?a _ _
          = Some (Z.of_N (N.pos (Pos.of_uint_acc d ?b)), _, _) =>
         change a with (Z.pos b)
     end;
     rewrite scan_digits_acc; do 3 f_equal; lia ..].
Qed.

Lemma numeral_is_ascii d :
  Forall (fun c => (c <? 127)%N = true) (lit (NilEmpty.string_of_uint d)).
Proof.
  induction d; cbn [NilEmpty.string_of_uint];
    [constructor | rewrite lit_cons; constructor; [reflexivity | exact IHd] ..].
Qed.

Lemma to_ascii_decimal_ascii s :
  Forall (fun c => (c <? 127)%N = true) s -> to_ascii_decimal P s = s.
Proof.
  induction 1 as [|c s Hc _ IH]; [reflexivity|].
  cbn [to_ascii_decimal]. now rewrite Hc, IH.
Qed.

Lemma numeral_length d :
  length (lit (NilEmpty.string_of_uint d)) = Decimal.nb_digits d.
Proof.
  induction d; cbn [NilEmpty.string_of_uint Decimal.nb_digits];
    [reflexivity | rewrite lit_cons; cbn [length]; now f_equal ..].
Qed.

Lemma numeral_starts_with_digit d :
  d <> Decimal.Nil ->
  exists c s, lit (NilEmpty.string_of_uint d) = c :: s /\ is_digit c = true.
Proof.
  destruct d; [congruence|..]; intros _;
    cbn [NilEmpty.string_of_uint]; rewrite lit_cons;
    eexists _, _; (split; [reflexivity | reflexivity]).
Qed.

(** [int] reads a decimal numeral of at most 4300 digits as the number it
    denotes. *)
Lemma long_from_numeral d (neg : bool) :
  d <> Decimal.Nil ->
  (Decimal.nb_digits d <= 4300)%nat ->
  long_from_string
    ((if neg then [45%N] else []) ++ lit (NilEmpty.string_of_uint d))
  = Some (inr (if neg then - Z.of_N (Pos.of_uint d)
               else Z.of_N (Pos.of_uint d))).
Proof.
  intros Hd Hn.
  destruct (numeral_starts_with_digit Hd) as (c & s & E & Hc).
  assert (Hsp : c_isspace c = false /\ (c =? 45)%N = false
                /\ (c =? 43)%N = false).
  { unfold is_digit in Hc. apply andb_prop in Hc as [H1 H2].
    apply N.leb_le in H1. apply N.leb_le in H2. unfold c_isspace.
    repeat split;
      repeat match goal with
      | |- context [(?a <=? ?b)%N] => destruct (N.leb_spec a b)
      | |- context [(?a =? ?b)%N] => destruct (N.eqb_spec a b)
      end; try reflexivity; lia. }
  destruct Hsp as (S1 & S2 & S3).
  unfold long_from_string.
  destruct neg; cbn [app].
  - cbn [skip_c_space c_isspace N.leb N.eqb N.compare Pos.compare
         Pos.compare_cont andb orb].
    change (skip_c_space (45%N :: lit (NilEmpty.string_of_uint d)))
      with (45%N :: lit (NilEmpty.string_of_uint d)).
    cbn [N.eqb Pos.eqb orb].
    rewrite (@scan_digits_numeral d Nothing 0%nat (or_introl Hd)).
    cbn [Nat.add].
    replace (Nat.ltb int_max_str_digits (Decimal.nb_digits d)) with false
      by (symmetry; apply Nat.ltb_ge; exact Hn).
    reflexivity.
  - rewrite E. cbn [skip_c_space]. rewrite S1, S2, S3. cbn [orb].
    rewrite <- E.
    rewrite (@scan_digits_numeral d Nothing 0%nat (or_introl Hd)).
    cbn [Nat.add].
    replace (Nat.ltb int_max_str_digits (Decimal.nb_digits d)) with false
      by (symmetry; apply Nat.ltb_ge; exact Hn).
    reflexivity.
Qed.

Lemma py_int_of_numeral (z : Z) :
  (length (lit (NilZero.string_of_int (Z.to_int z))) <= 4300)%nat ->
  py_int P (PStr (lit (NilZero.string_of_int (Z.to_int z)))) = inr z.
Proof.
  intros Hlen. cbn [py_int].
  assert (G : forall d (neg : bool),
            d <> Decimal.Nil ->
            (length ((if neg then [45%N] else [])
                     ++ lit (NilEmpty.string_of_uint d)) <= 4300)%nat ->
            long_from_string
              (to_ascii_decimal P
                 ((if neg then [45%N] else [])
                  ++ lit (NilEmpty.string_of_uint d)))
            = Some (inr (if neg then - Z.of_N (Pos.of_uint d)
                         else Z.of_N (Pos.of_uint d)))).
  { intros d neg Hd Hl.
    rewrite to_ascii_decimal_ascii.
    - rewrite long_from_numeral; [reflexivity | exact Hd|].
      rewrite length_app, numeral_length in Hl. lia.
    - apply Forall_app. split; [|apply numeral_is_ascii].
      destruct neg; repeat constructor. }
  destruct z as [|p|p]; cbn [Z.to_int NilZero.string_of_int] in *.
  - reflexivity.
  - pose proof (Unsigned.to_uint_nonnil p) as Hd.
    assert (E : NilZero.string_of_uint (Pos.to_uint p)
                = NilEmpty.string_of_uint (Pos.to_uint p))
      by (destruct (Pos.to_uint p); [congruence | reflexivity ..]).
    rewrite E in *.
    pose proof (G (Pos.to_uint p) false Hd Hlen) as G'.
    cbn [app] in G'. rewrite G'. now rewrite Unsigned.of_to.
  - pose proof (Unsigned.to_uint_nonnil p) as Hd.
    assert (E : NilZero.string_of_uint (Pos.to_uint p)
                = NilEmpty.string_of_uint (Pos.to_uint p))
      by (destruct (Pos.to_uint p); [congruence | reflexivity ..]).
    rewrite E in *. rewrite lit_cons in *.
    change (N_of_ascii _) with 45%N in *.
    pose proof (G (Pos.to_uint p) true Hd Hlen) as G'.
    cbn [app] in G'. rewrite G'. now rewrite Unsigned.of_to.
Qed.

End IntOfNumeral.

(** ** The claims *)

Section Claims.
Variable P : Platform.
Local Open Scope Z_scope.

Lemma dict_get_find d k default :
  dict_get d k default =
  match dict_find d k with Some v => v | None => default end.
Proof.
  induction d as [|[k' v] d IH]; cbn; [reflexivity|].
  now destruct (str_eqb k' k).
Qed.

Lemma score_record_fallback name generated e :
  try_body P generated = inl e ->
  score_record P name generated = fallback_record name e.
Proof. unfold score_record. now intros ->. Qed.

Lemma extract_fields_not_dict parsed :
  (forall d, parsed <> PDict d) ->
  extract_fields P parsed
  = inl (AttributeError (lit "'" ++ type_name parsed
                         ++ lit "' object has no attribute 'get'")).
Proof.
  intros H. destruct parsed; try reflexivity.
  now destruct (H d).
Qed.

Lemma no_braces_not_dict depth resp_text d :
  search_braces resp_text = None ->
  Json.loads depth resp_text <> inr (PDict d).
Proof.
  intros Hs Hl.
  apply JsonFacts.loads_dict_shape in Hl as (pre & mid & post & ->).
  now apply search_braces_found in Hs.
Qed.

Lemma try_body_failure resp_text e :
  parse_failure P resp_text e -> try_body P (inr resp_text) = inl e.
Proof.
  intros [e' H|parsed e' H1 H2]; cbn.
  - now rewrite H.
  - now rewrite H1.
Qed.

(** C2. Whatever the response text, the parser ends with a record.  When
    locating, parsing or coercing fails with an exception [e], it is the
    fallback record: score 0, no missing skills and the remark
    [Scoring failed: ] followed by [str(e)], the message of that very
    exception (for a decoding error its message, line, column and
    position).  A text without a JSON-like substring always fails: the
    decoder rejects it, or what it returns is not an object and has no
    [get].  A score given as a string that is no numeral fails with the
    message of [int], which shows the first 200 characters of the
    string's [repr]. *)
Theorem parse_failure_gives_fallback (name : option str) (resp_text : str) :
  (forall e,
     parse_failure P resp_text e ->
     score_record P name (inr resp_text)
     = {| filename := name; score := 0; missing_skills := [];
          remarks := PStr (lit "Scoring failed: " ++ exn_str e) |}
     /\ lit "Scoring failed: " ++ exn_str e <> [])
  /\ (search_braces resp_text = None ->
      exists e,
        parse_failure P resp_text e
        /\ (Json.loads (json_max_depth P) resp_text = inl e
            \/ exists parsed,
                 Json.loads (json_max_depth P) resp_text = inr parsed
                 /\ (forall d, parsed <> PDict d)
                 /\ e = AttributeError
                          (lit "'" ++ type_name parsed
                           ++ lit "' object has no attribute 'get'")))
  /\ (forall msg lineno colno pos,
        exn_str (JSONDecodeError msg lineno colno pos)
        = msg ++ lit ": line " ++ str_of_nat lineno ++ lit " column "
            ++ str_of_nat colno ++ lit " (char " ++ str_of_nat pos
            ++ lit ")")
  /\ (forall msg,
        exn_str (ValueError msg) = msg /\ exn_str (TypeError msg) = msg
        /\ exn_str (AttributeError msg) = msg
        /\ exn_str (OverflowError msg) = msg
        /\ exn_str (RecursionError msg) = msg)
  /\ (forall d s,
        locate_and_load P resp_text = inr (PDict d) ->
        dict_find d (lit "score") = Some (PStr s) ->
        long_from_string (to_ascii_decimal P s) = None ->
        parse_failure P resp_text
          (ValueError (lit "invalid literal for int() with base 10: "
                       ++ firstn 200 (str_repr P s)))).
Proof.
  repeat apply conj.
  - intros e H. apply try_body_failure in H.
    rewrite (score_record_fallback _ _ H).
    split; [reflexivity | discriminate].
  - intros Hs.
    assert (Hl : locate_and_load P resp_text
                 = Json.loads (json_max_depth P) resp_text)
      by (unfold locate_and_load; now rewrite Hs).
    destruct (Json.loads (json_max_depth P) resp_text) as [e|parsed] eqn:E.
    + exists e. split; [now apply malformed_json | now left].
    + assert (Hd : forall d, parsed <> PDict d).
      { intros d ->. now apply no_braces_not_dict in E. }
      eexists. split.
      * eapply coercion_failure; [exact Hl|].
        now apply extract_fields_not_dict.
      * right. now exists parsed.
  - reflexivity.
  - intros msg. now repeat split.
  - intros d s Hl Hf Hn. eapply coercion_failure; [exact Hl|].
    unfold extract_fields. cbn [get bind]. rewrite dict_get_find, Hf.
    cbn [py_int]. now rewrite Hn.
Qed.

Lemma try_body_dict resp_text d :
  locate_and_load P resp_text = inr (PDict d) ->
  try_body P (inr resp_text) = extract_fields P (PDict d).
Proof. intros H. cbn. now rewrite H. Qed.

Lemma extract_fields_dict d z :
  py_int P (dict_get d (lit "score") (PInt 0)) = inr z ->
  extract_fields P (PDict d) =
  inr (z,
       as_list P (dict_get d (lit "missing_skills") (PList [])),
       or_empty_str (dict_get d (lit "remarks") (PStr []))).
Proof. intros H. unfold extract_fields. cbn [get bind]. now rewrite H. Qed.

Lemma extract_fields_bad_score d e :
  py_int P (dict_get d (lit "score") (PInt 0)) = inl e ->
  extract_fields P (PDict d) = inl e.
Proof. intros H. unfold extract_fields. cbn [get bind]. now rewrite H. Qed.

Lemma score_of_dict name resp_text d :
  locate_and_load P resp_text = inr (PDict d) ->
  score (score_record P name (inr resp_text))
  = match py_int P (dict_get d (lit "score") (PInt 0)) with
    | inr z => z
    | inl _ => 0
    end.
Proof.
  intros H. unfold score_record. rewrite (try_body_dict _ H).
  destruct (py_int P (dict_get d (lit "score") (PInt 0))) as [e|z] eqn:Ez.
  - now rewrite (extract_fields_bad_score _ Ez).
  - now rewrite (extract_fields_dict _ Ez).
Qed.

Lemma int_of_float_integer_part neg m e :
  exists z, int_of_float (FFin neg m e) = inr z /\ integer_part neg m e z.
Proof.
  cbn [int_of_float]. eexists. split; [reflexivity|].
  unfold integer_part.
  destruct (Z.leb_spec 0 e) as [He|He].
  - exists (m * 2 ^ e). now split.
  - exists (m / 2 ^ (- e)). split; [reflexivity|].
    assert (Hp : 0 < 2 ^ (- e)) by (apply Z.pow_pos_nonneg; lia).
    pose proof (Z.div_mod m (2 ^ (- e)) ltac:(lia)) as Hd.
    pose proof (Z.mod_pos_bound m (2 ^ (- e)) Hp) as Hm.
    set (k := 2 ^ (- e)) in *. set (q := m / k) in *.
    set (r := m mod k) in *. clearbody k q r.
    split; nia.
Qed.

(** C1, as the code has it.  The score of a record is what [int] makes of
    the value under [score] in the parsed object, and nothing is done to
    it afterwards: a JSON integer is the score, whatever its size and its
    sign; [true] and [false] give 1 and 0; a finite float gives its
    integer part; a string gives what [int] reads in it, a decimal numeral
    of at most 4300 characters the number it denotes.  The score is 0
    when the key is absent, and in the fallback record: after a failed
    generation call, for a response that is not a JSON object, and for a
    value [int] rejects ([null], an array, an object, a string that is no
    numeral, [NaN], an infinity). *)
Theorem score_is_coerced_value_unclamped
  (name : option str) (generated : result str) :
  let r := score_record P name generated in
  match generated with
  | inl _ => score r = 0
  | inr resp_text =>
      match locate_and_load P resp_text with
      | inr (PDict d) =>
          match dict_find d (lit "score") with
          | None => score r = 0
          | Some (PInt z) => score r = z
          | Some (PBool b) => score r = (if b then 1 else 0)
          | Some (PFloat (FFin neg m e)) => integer_part neg m e (score r)
          | Some (PStr s) =>
              match py_int P (PStr s) with
              | inr z => score r = z
              | inl _ => score r = 0
              end
              /\ forall z,
                   s = lit (NilZero.string_of_int (Z.to_int z)) ->
                   (length s <= 4300)%nat -> score r = z
          | Some (PFloat _) | Some PNone | Some (PList _) | Some (PDict _) =>
              score r = 0
          end
      | _ => score r = 0
      end
  end.
Proof.
  intros r. subst r.
  destruct generated as [e|resp_text]; [reflexivity|].
  destruct (locate_and_load P resp_text) as [e|parsed] eqn:E;
    [unfold score_record; cbn; now rewrite E|].
  destruct parsed as [| | | | | |d];
    try (unfold score_record; cbn; rewrite E; reflexivity).
  rewrite (@score_of_dict name resp_text d E), dict_get_find.
  destruct (dict_find d (lit "score")) as [[|b|z|[|neg|neg m e]|s|l|o]|];
    try reflexivity.
  - destruct (int_of_float_integer_part neg m e) as (z & Hz & Hi).
    cbn [py_int]. now rewrite Hz.
  - split; [now destruct (py_int P (PStr s))|].
    intros z -> Hlen. now rewrite (py_int_of_numeral P z Hlen).
Qed.

(** C3, as the code has it.  When the prose before a JSON object holds no
    opening brace and the prose after it no closing brace, the search finds
    exactly the object, and the record is the one the object alone gives.
    In general the text handed to [json.loads] is the span from the first
    opening brace of the text to its last closing brace, and the whole text
    when no closing brace follows an opening one.  The object is one the
    decoder accepts where [match_resumes] calls it: valid, and within what
    the recursion limit allows. *)
Theorem object_between_prose_is_parsed
  (name : option str) (pre body post : str) (d : pydict) (text : str) :
  ~ In 123%N pre -> ~ In 125%N post ->
  Json.loads (json_max_depth P) (123%N :: body ++ [125%N]) = inr (PDict d) ->
  search_braces (pre ++ (123%N :: body ++ [125%N]) ++ post)
  = Some (123%N :: body ++ [125%N])
  /\ locate_and_load P (pre ++ (123%N :: body ++ [125%N]) ++ post)
     = inr (PDict d)
  /\ try_body P (inr (pre ++ (123%N :: body ++ [125%N]) ++ post))
     = extract_fields P (PDict d)
  /\ score_record P name (inr (pre ++ (123%N :: body ++ [125%N]) ++ post))
     = score_record P name (inr (123%N :: body ++ [125%N]))
  /\ match search_braces text with
     | Some group =>
         locate_and_load P text = Json.loads (json_max_depth P) group
         /\ exists before inside after,
              text = before ++ group ++ after
              /\ group = 123%N :: inside ++ [125%N]
              /\ ~ In 123%N before /\ ~ In 125%N after
     | None =>
         locate_and_load P text = Json.loads (json_max_depth P) text
         /\ ~ exists before inside after,
                text = before ++ 123%N :: inside ++ 125%N :: after
     end.
Proof.
  intros Hpre Hpost Hd.
  assert (Hs : search_braces (pre ++ (123%N :: body ++ [125%N]) ++ post)
               = Some (123%N :: body ++ [125%N])).
  { replace (pre ++ (123%N :: body ++ [125%N]) ++ post)
      with (pre ++ 123%N :: body ++ 125%N :: post)
      by (cbn; now rewrite <- app_assoc).
    now apply search_braces_object. }
  assert (Ho : search_braces (123%N :: body ++ [125%N])
               = Some (123%N :: body ++ [125%N])).
  { apply (search_braces_object [] body []); auto. }
  assert (Hl : locate_and_load P (pre ++ (123%N :: body ++ [125%N]) ++ post)
               = inr (PDict d)).
  { unfold locate_and_load. now rewrite Hs. }
  assert (Hl' : locate_and_load P (123%N :: body ++ [125%N])
                = inr (PDict d)).
  { unfold locate_and_load. now rewrite Ho. }
  split; [exact Hs|]. split; [exact Hl|].
  split; [now apply try_body_dict|]. split.
  - unfold score_record.
    etransitivity; [|symmetry];
      (erewrite try_body_dict; [reflexivity | eassumption]).
  - unfold locate_and_load.
    destruct (search_braces text) as [g|] eqn:E; (split; [reflexivity|]).
    + unfold search_braces in E.
      destruct (from_first_open text) as [[|c rest]|] eqn:Ef;
        try discriminate.
      destruct (upto_last_close rest) as [t|] eqn:Eu; [|discriminate].
      injection E as <-.
      apply from_first_open_some in Ef as (before & r & -> & Er & Hn).
      injection Er as -> ->.
      apply upto_last_close_some' in Eu as (inside & after & -> & -> & Hp).
      exists before, inside, after. repeat split; try assumption.
      cbn. now rewrite <- app_assoc.
    + intros (before & inside & after & ->).
      now apply search_braces_found in E.
Qed.

Lemma missing_skills_of_dict name resp_text d z :
  locate_and_load P resp_text = inr (PDict d) ->
  py_int P (dict_get d (lit "score") (PInt 0)) = inr z ->
  missing_skills (score_record P name (inr resp_text))
  = match dict_find d (lit "missing_skills") with
    | Some v => as_list P v
    | None => []
    end.
Proof.
  intros Hl Hz. unfold score_record.
  rewrite (try_body_dict _ Hl), (extract_fields_dict _ Hz).
  cbn [missing_skills]. rewrite dict_get_find.
  now destruct (dict_find d (lit "missing_skills")).
Qed.

(** C7. In a response that parses (a JSON object whose score can be
    coerced), a [missing_skills] value that is not a list is replaced by
    the one-element list of its string form: a string as it is, an integer
    in decimal, [True], [False] or [None] for the constants, the [repr] of
    a float or of an object.  Without the key the list is empty; a list is
    kept. *)
Theorem scalar_missing_skills_wrapped
  (name : option str) (resp_text : str) (d : pydict) (z : Z) :
  locate_and_load P resp_text = inr (PDict d) ->
  py_int P (dict_get d (lit "score") (PInt 0)) = inr z ->
  missing_skills (score_record P name (inr resp_text)) =
  match dict_find d (lit "missing_skills") with
  | None => []
  | Some (PList l) => l
  | Some (PStr s) => [PStr s]
  | Some (PInt n) => [PStr (lit (NilZero.string_of_int (Z.to_int n)))]
  | Some (PBool b) => [PStr (if b then lit "True" else lit "False")]
  | Some PNone => [PStr (lit "None")]
  | Some (PFloat f) => [PStr (float_repr P f)]
  | Some (PDict o) => [PStr (py_repr P (PDict o))]
  end.
Proof.
  intros Hl Hz. rewrite (@missing_skills_of_dict name resp_text d z Hl Hz).
  now destruct (dict_find d (lit "missing_skills")) as [[]|].
Qed.

(** C8, as the code has it.  [missing_skills] is always a list.  It is
    empty in the fallback record and when the key is absent; a list in the
    response is the field itself, whatever its length and its elements;
    anything else becomes the one-element list of its string form. *)
Theorem missing_skills_is_parsed_value
  (name : option str) (generated : result str) :
  let r := score_record P name generated in
  match generated with
  | inl _ => missing_skills r = []
  | inr resp_text =>
      match locate_and_load P resp_text with
      | inr (PDict d) =>
          match py_int P (dict_get d (lit "score") (PInt 0)) with
          | inl _ => missing_skills r = []
          | inr _ =>
              match dict_find d (lit "missing_skills") with
              | None => missing_skills r = []
              | Some (PList l) => missing_skills r = l
              | Some (PStr s) => missing_skills r = [PStr s]
              | Some (PInt n) =>
                  missing_skills r
                  = [PStr (lit (NilZero.string_of_int (Z.to_int n)))]
              | Some (PBool b) =>
                  missing_skills r
                  = [PStr (if b then lit "True" else lit "False")]
              | Some PNone => missing_skills r = [PStr (lit "None")]
              | Some (PFloat f) => missing_skills r = [PStr (float_repr P f)]
              | Some (PDict o) =>
                  missing_skills r = [PStr (py_repr P (PDict o))]
              end
          end
      | _ => missing_skills r = []
      end
  end.
Proof.
  intros r. subst r.
  destruct generated as [e|resp_text]; [reflexivity|].
  destruct (locate_and_load P resp_text) as [e|parsed] eqn:E;
    [unfold score_record; cbn; now rewrite E|].
  destruct parsed as [| | | | | |d];
    try (unfold score_record; cbn; rewrite E; reflexivity).
  destruct (py_int P (dict_get d (lit "score") (PInt 0))) as [e|z] eqn:Ez.
  - unfold score_record.
    now rewrite (try_body_dict _ E), (extract_fields_bad_score _ Ez).
  - rewrite (@missing_skills_of_dict name resp_text d z E Ez).
    now destruct (dict_find d (lit "missing_skills")) as [[]|].
Qed.

(** *** The loop *)

Lemma score_record_filename name generated :
  filename (score_record P name generated) = name.
Proof.
  unfold score_record.
  now destruct (try_body P generated) as [e|[[z ms] r]].
Qed.

Lemma generated_so_far_app log1 log2 :
  generated_so_far (log1 ++ log2)
  = (generated_so_far log1 + generated_so_far log2)%nat.
Proof. unfold generated_so_far. now rewrite filter_app, length_app. Qed.

Lemma read_upload_text_eq up log :
  _read_upload_text P up log
  = (upload_text P up, log ++ [Closed (up_filename up)]).
Proof. reflexivity. Qed.

(** One turn of the loop raises only what the extraction raises; after an
    extraction that succeeds it appends one record, whatever the generation
    call and the parsing do. *)
Lemma evaluate_one_eq jd_raw up log :
  evaluate_one P jd_raw up log =
  match upload_text P up with
  | inl e => (inl e, log ++ [Closed (up_filename up)])
  | inr text =>
      (inr (score_record P (up_filename up)
              (call_service P (generated_so_far log)
                 (_scoring_prompt jd_raw text))),
       log ++ [Closed (up_filename up);
               Generated (_scoring_prompt jd_raw text)])
  end.
Proof.
  unfold evaluate_one, io_bind. rewrite read_upload_text_eq.
  destruct (upload_text P up) as [e|text]; [reflexivity|].
  unfold attempt, _gemini_generate, ret.
  rewrite generated_so_far_app. cbn [generated_so_far filter is_generated
                                     length Nat.add].
  rewrite Nat.add_0_r, <- app_assoc. reflexivity.
Qed.

Lemma evaluate_all_spec jd_raw resumes : forall results log,
  match first_failure P resumes with
  | None =>
      exists new log',
        evaluate_all P jd_raw resumes results log = (inr (results ++ new), log')
        /\ map (@filename) new = map up_filename resumes
        /\ generated_so_far log'
           = (generated_so_far log + length resumes)%nat
  | Some e =>
      exists log', evaluate_all P jd_raw resumes results log = (inl e, log')
  end.
Proof.
  induction resumes as [|up rest IH]; intros results log.
  - cbn. exists [], log. rewrite app_nil_r, Nat.add_0_r. now repeat split.
  - cbn [first_failure evaluate_all]. unfold io_bind.
    rewrite evaluate_one_eq.
    destruct (upload_text P up) as [e|text]; [now eexists|].
    match goal with
    | |- context [evaluate_all P jd_raw rest ?r ?l] => specialize (IH r l)
    end.
    destruct (first_failure P rest) as [e|].
    + destruct IH as [log' IH]. now exists log'.
    + destruct IH as (new & log' & IH & Hn & Hg).
      eexists (_ :: new), log'. rewrite IH, <- app_assoc. cbn [app map].
      repeat split.
      * now rewrite score_record_filename, Hn.
      * rewrite Hg, generated_so_far_app. cbn. lia.
Qed.

(** The loop stops at the first resume whose text cannot be extracted:
    the resumes before it have had their turn, the file of this one has
    been closed, and nothing was done with those after it. *)
Lemma evaluate_all_stops jd_raw ok bad rest e : forall results log,
  Forall (fun up => exists text, upload_text P up = inr text) ok ->
  upload_text P bad = inl e ->
  evaluate_all P jd_raw (ok ++ bad :: rest) results log
  = (inl e,
     log ++ flat_map (turn_events P jd_raw) ok ++ [Closed (up_filename bad)]).
Proof.
  induction ok as [|up ok IH]; intros results log Hok Hbad.
  - cbn [app flat_map evaluate_all]. unfold io_bind.
    now rewrite evaluate_one_eq, Hbad.
  - inversion Hok as [|? ? [text Hup] Hok']; subst.
    cbn [app flat_map evaluate_all]. unfold io_bind.
    rewrite evaluate_one_eq. unfold turn_events at 1. rewrite Hup.
    rewrite IH by assumption. now rewrite <- !app_assoc.
Qed.

Lemma first_failure_split resumes e :
  first_failure P resumes = Some e ->
  exists ok bad rest,
    resumes = ok ++ bad :: rest
    /\ Forall (fun up => exists text, upload_text P up = inr text) ok
    /\ upload_text P bad = inl e.
Proof.
  induction resumes as [|up rest IH]; [discriminate|].
  cbn [first_failure].
  destruct (upload_text P up) as [e0|text] eqn:Eu.
  - intros H; injection H as <-. exists [], up, rest. now repeat split.
  - intros H. destruct (IH H) as (ok & bad & rest' & -> & Hok & Hbad).
    exists (up :: ok), bad, rest'. repeat split; [|exact Hbad].
    constructor; [now exists text | exact Hok].
Qed.

Lemma read_jd_generates_nothing jd_mode jd_file jd_text log :
  generated_so_far (snd (read_jd P jd_mode jd_file jd_text log))
  = generated_so_far log.
Proof.
  unfold read_jd, bad_request, raise, ret.
  destruct (negb _); [reflexivity|].
  destruct (str_eqb jd_mode (lit "file")).
  - destruct jd_file as [f|]; [|reflexivity].
    rewrite read_upload_text_eq. cbn [snd].
    rewrite generated_so_far_app. cbn. lia.
  - destruct jd_text as [[|c t]|]; try reflexivity.
    now destruct (strip (c :: t)).
Qed.

(** C4. The ranker returns the records sorted by score, highest first, as
    a permutation of what it was given, records of equal score in their
    original order, and the first of them as the best candidate; given no
    record it returns no record and no best candidate. *)
Theorem rank_sorted_stable_permutation (results : list ScoreRecord) :
  StronglySorted score_ge (matches (rank results))
  /\ Permutation results (matches (rank results))
  /\ (forall z, filter (has_score z) (matches (rank results))
                = filter (has_score z) results)
  /\ best_candidate (rank results) = hd_error (matches (rank results))
  /\ rank [] = {| matches := []; best_candidate := None |}.
Proof.
  unfold rank; cbn [matches best_candidate].
  repeat split.
  - apply sort_sorted.
  - apply sort_perm.
  - intros z. apply sort_stable.
Qed.

(** C5, as the code has it.  For a batch of 1 to 20 resumes and a job
    description that was read, every document whose text can be extracted
    gets exactly one record, in upload order before the ranking, whatever
    the generation service and the parser do.  The first document whose
    extraction raises ends the request with that exception and without
    records: the documents before it have had their turn, its own file has
    been closed, and the documents after it are neither read nor
    evaluated. *)
Theorem one_record_per_document_unless_extraction_raises
  (jd_mode : str) (jd_file : option UploadFile) (jd_text : option str)
  (resumes : list UploadFile) (log : list event)
  (jd_raw : str) (log1 : list event) :
  read_jd P jd_mode jd_file jd_text log = (inr jd_raw, log1) ->
  resumes <> [] -> (length resumes <= 20)%nat ->
  match first_failure P resumes with
  | None =>
      exists results log',
        match_resumes P jd_mode jd_file jd_text resumes log
        = (inr (rank results), log')
        /\ map (@filename) results = map up_filename resumes
        /\ Permutation results (matches (rank results))
        /\ length (matches (rank results)) = length resumes
  | Some e =>
      exists ok bad rest,
        resumes = ok ++ bad :: rest
        /\ Forall (fun up => exists text, upload_text P up = inr text) ok
        /\ upload_text P bad = inl e
        /\ match_resumes P jd_mode jd_file jd_text resumes log
           = (inl e,
              log1 ++ flat_map (turn_events P jd_raw) ok
                ++ [Closed (up_filename bad)])
  end.
Proof.
  intros Hjd Hne Hlen.
  unfold match_resumes, io_bind. rewrite Hjd.
  destruct resumes as [|up rest] eqn:Er; [congruence|]. rewrite <- Er in *.
  destruct (Nat.ltb_spec 20 (length resumes)); [lia|].
  pose proof (evaluate_all_spec jd_raw resumes [] log1) as H'.
  destruct (first_failure P resumes) as [e|] eqn:Ef.
  - apply first_failure_split in Ef as (ok & bad & rest' & E & Hok & Hbad).
    exists ok, bad, rest'. repeat split; try assumption.
    rewrite E.
    now rewrite (@evaluate_all_stops jd_raw ok bad rest' e [] log1 Hok Hbad).
  - destruct H' as (new & log' & -> & Hn & _). cbn [app].
    exists new, log'. unfold ret.
    pose proof (sort_perm new) as Hp.
    repeat split; try assumption.
    cbn [rank matches].
    rewrite <- (Permutation_length Hp), <- (length_map (@filename) new), Hn.
    apply length_map.
Qed.

(** C6, as the code has it.  An upload whose lower-cased name ends in none
    of [.pdf], [.docx] and [.doc] is decoded as UTF-8 and never raises.
    The text is the one decoding with the errors ignored gives, and the
    only one: every well-formed sequence is read as its character, and a
    byte at which no well-formed sequence starts is left out.  Nothing is
    put in the place of what is left out: encoded again, the text is the
    content with some bytes missing. *)
Theorem other_suffix_decoded_ignoring_errors
  (up : UploadFile) (log : list event) :
  endswith (str_lower P (or_empty (up_filename up))) (lit ".pdf") = false ->
  endswith (str_lower P (or_empty (up_filename up))) (lit ".docx") = false ->
  endswith (str_lower P (or_empty (up_filename up))) (lit ".doc") = false ->
  exists text,
    _read_upload_text P up log
    = (inr text, log ++ [Closed (up_filename up)])
    /\ decoded_ignoring_errors (map Byte.to_N (up_content up)) text
    /\ (forall s,
          decoded_ignoring_errors (map Byte.to_N (up_content up)) s ->
          s = text)
    /\ subseq (utf8_encode text) (map Byte.to_N (up_content up)).
Proof.
  intros H1 H2 H3. exists (decode_ignore (up_content up)). repeat split.
  - rewrite read_upload_text_eq. unfold upload_text, extract_text.
    now rewrite H1, H2, H3.
  - apply decode_ignore_spec.
  - apply decode_ignore_unique.
  - apply decode_ignore_subseq_N.
Qed.

(** C9, as the code has it.  A request with no resume or with more than 20
    ends without a report and without a call of the generation service:
    once the job description has been read, with the 400 of the batch
    check; otherwise with what reading the job description raised. *)
Theorem batch_size_rejected_before_evaluation
  (jd_mode : str) (jd_file : option UploadFile) (jd_text : option str)
  (resumes : list UploadFile) (log : list event) :
  resumes = [] \/ (20 < length resumes)%nat ->
  match_resumes P jd_mode jd_file jd_text resumes log
  = (match read_jd P jd_mode jd_file jd_text log with
     | (inr _, log1) =>
         (inl (HTTPException 400
                 (match resumes with
                  | [] => lit "At least one resume must be uploaded"
                  | _ => lit "Maximum 20 resumes allowed"
                  end)), log1)
     | (inl e, log1) => (inl e, log1)
     end)
  /\ generated_so_far
       (snd (match_resumes P jd_mode jd_file jd_text resumes log))
     = generated_so_far log.
Proof.
  intros H.
  assert (E : match_resumes P jd_mode jd_file jd_text resumes log
              = match read_jd P jd_mode jd_file jd_text log with
                | (inr _, log1) =>
                    (inl (HTTPException 400
                            (match resumes with
                             | [] => lit "At least one resume must be uploaded"
                             | _ => lit "Maximum 20 resumes allowed"
                             end)), log1)
                | (inl e, log1) => (inl e, log1)
                end).
  { unfold match_resumes, io_bind.
    destruct (read_jd P jd_mode jd_file jd_text log) as [[e|jd] log1];
      [reflexivity|].
    destruct H as [->|H]; [reflexivity|].
    destruct resumes as [|up rest]; [cbn in H; lia|].
    apply Nat.ltb_lt in H. now rewrite H. }
  split; [exact E|].
  rewrite E. pose proof (read_jd_generates_nothing jd_mode jd_file jd_text log).
  now destruct (read_jd P jd_mode jd_file jd_text log) as [[e|jd] log1].
Qed.

(** C10. When the generation call for a resume fails, the turn of the loop
    still ends normally with the fallback record of that resume, whose
    remark names the failure, and the loop goes on with the remaining
    resumes: the failure does not leave the loop, which ends with one
    record more for each remaining resume unless the text of one of them
    cannot be extracted. *)
Theorem generation_failure_absorbed
  (jd_raw : str) (up : UploadFile) (rest : list UploadFile)
  (results : list ScoreRecord) (log : list event) (text : str) (e : exn) :
  upload_text P up = inr text ->
  generate_content P (generated_so_far log) (_scoring_prompt jd_raw text)
  = inl e ->
  evaluate_one P jd_raw up log
  = (inr {| filename := up_filename up; score := 0; missing_skills := [];
            remarks := PStr (lit "Scoring failed: 500: Gemini API error: "
                             ++ exn_str e) |},
     log ++ [Closed (up_filename up);
             Generated (_scoring_prompt jd_raw text)])
  /\ evaluate_all P jd_raw (up :: rest) results log
     = evaluate_all P jd_raw rest
         (results ++
          [{| filename := up_filename up; score := 0; missing_skills := [];
              remarks := PStr (lit "Scoring failed: 500: Gemini API error: "
                               ++ exn_str e) |}])
         (log ++ [Closed (up_filename up);
                  Generated (_scoring_prompt jd_raw text)])
  /\ match first_failure P rest with
     | None =>
         exists new log',
           evaluate_all P jd_raw (up :: rest) results log
           = (inr (results ++
                   {| filename := up_filename up; score := 0;
                      missing_skills := [];
                      remarks :=
                        PStr (lit "Scoring failed: 500: Gemini API error: "
                              ++ exn_str e) |} :: new), log')
           /\ map (@filename) new = map up_filename rest
     | Some e' =>
         exists log',
           evaluate_all P jd_raw (up :: rest) results log = (inl e', log')
     end.
Proof.
  intros Ht Hg.
  assert (E : evaluate_one P jd_raw up log
    = (inr {| filename := up_filename up; score := 0; missing_skills := [];
              remarks := PStr (lit "Scoring failed: 500: Gemini API error: "
                               ++ exn_str e) |},
       log ++ [Closed (up_filename up);
               Generated (_scoring_prompt jd_raw text)])).
  { rewrite evaluate_one_eq, Ht. unfold call_service. rewrite Hg.
    reflexivity. }
  assert (E' : evaluate_all P jd_raw (up :: rest) results log
     = evaluate_all P jd_raw rest
         (results ++
          [{| filename := up_filename up; score := 0; missing_skills := [];
              remarks := PStr (lit "Scoring failed: 500: Gemini API error: "
                               ++ exn_str e) |}])
         (log ++ [Closed (up_filename up);
                  Generated (_scoring_prompt jd_raw text)])).
  { cbn [evaluate_all]. unfold io_bind. now rewrite E. }
  split; [exact E | split; [exact E'|]].
  rewrite E'.
  match goal with
  | |- context [evaluate_all P jd_raw rest ?r ?l] =>
      pose proof (evaluate_all_spec jd_raw rest r l) as H
  end.
  destruct (first_failure P rest) as [e'|].
  - destruct H as [log' H]. now exists log'.
  - destruct H as (new & log' & H & Hn & _).
    exists new, log'. rewrite H, <- app_assoc. now split.
Qed.

End Claims.

(** ** The claims on examples *)

Section Examples.
Local Open Scope Z_scope.

Lemma not_in_forallb (x : N) (l : list N) :
  forallb (fun c => negb (N.eqb c x)) l = true -> ~ In x l.
Proof.
  intros H Hin. rewrite forallb_forall in H.
  specialize (H x Hin). now rewrite N.eqb_refl in H.
Qed.

(** C1: a score of 150 in the response is the score of the record, and so
    is a negative one; 100.9 is cut to 100. *)
Lemma score_150_is_kept :
  exists report log,
    pasted (stub (answers ["{`score`: 150}"; "{`score`: -5}";
                           "{`score`: 100.9}"]%string))
      [cv "a.txt"; cv "b.txt"; cv "c.txt"]
    = (inr report, log)
    /\ map (@score) (matches report) = [150; 100; -5].
Proof. eexists _, _. split; vm_compute; reflexivity. Qed.

(** C2 on [not json at all]. *)
Lemma parse_failure_gives_fallback_witness :
  let text := lit "not json at all" in
  let e := JSONDecodeError (lit "Expecting value") 1 1 0 in
  parse_failure (stub []) text e
  /\ (score_record (stub []) None (inr text)
      = {| filename := None; score := 0; missing_skills := [];
           remarks := PStr (lit "Scoring failed: " ++ exn_str e) |}
      /\ lit "Scoring failed: " ++ exn_str e <> [])
  /\ lit "Scoring failed: " ++ exn_str e
     = lit "Scoring failed: Expecting value: line 1 column 1 (char 0)".
Proof.
  intros text e.
  assert (H : parse_failure (stub []) text e)
    by (apply malformed_json; vm_compute; reflexivity).
  split; [exact H|].
  split; [|vm_compute; reflexivity].
  exact (proj1 (@parse_failure_gives_fallback (stub []) None text) e H).
Defined.

(** C3: an opening brace in the prose before the object. *)
Lemma brace_in_prose_hides_object :
  Json.loads 900 (dq "{`score`: 85}") = inr (PDict [(lit "score", PInt 85)])
  /\ search_braces (lit "Output {final}: " ++ dq "{`score`: 85}")
     = Some (dq "{final}: {`score`: 85}")
  /\ score (score_record (stub []) None
              (inr (lit "Output {final}: " ++ dq "{`score`: 85}"))) = 0
  /\ score (score_record (stub []) None (inr (dq "{`score`: 85}"))) = 85.
Proof. repeat split; vm_compute; reflexivity. Qed.

(** C3 on the example of the specification. *)
Lemma object_between_prose_is_parsed_witness :
  let P := stub [] in
  let pre := lit "Sure, here you go:
" in
  let body := dq "`score`: 85, `missing_skills`: `AWS`, `remarks`: `Strong fit`" in
  let post := lit " Hope this helps." in
  let d := [(lit "score", PInt 85); (lit "missing_skills", PStr (lit "AWS"));
            (lit "remarks", PStr (lit "Strong fit"))] in
  let text := pre ++ (123%N :: body ++ [125%N]) ++ post in
  (~ In 123%N pre /\ ~ In 125%N post
   /\ Json.loads (json_max_depth P) (123%N :: body ++ [125%N])
      = inr (PDict d))
  /\ search_braces text = Some (123%N :: body ++ [125%N])
  /\ locate_and_load P text = inr (PDict d)
  /\ try_body P (inr text) = extract_fields P (PDict d)
  /\ score_record P None (inr text)
     = score_record P None (inr (123%N :: body ++ [125%N]))
  /\ match search_braces (lit "[1, 2]") with
     | Some group =>
         locate_and_load P (lit "[1, 2]")
         = Json.loads (json_max_depth P) group
         /\ exists before inside after,
              lit "[1, 2]" = before ++ group ++ after
              /\ group = 123%N :: inside ++ [125%N]
              /\ ~ In 123%N before /\ ~ In 125%N after
     | None =>
         locate_and_load P (lit "[1, 2]")
         = Json.loads (json_max_depth P) (lit "[1, 2]")
         /\ ~ exists before inside after,
                lit "[1, 2]" = before ++ 123%N :: inside ++ 125%N :: after
     end.
Proof.
  intros P pre body post d text.
  assert (H1 : ~ In 123%N pre) by (apply not_in_forallb; reflexivity).
  assert (H2 : ~ In 125%N post) by (apply not_in_forallb; reflexivity).
  assert (H3 : Json.loads (json_max_depth P) (123%N :: body ++ [125%N])
               = inr (PDict d))
    by (vm_compute; reflexivity).
  split; [split; [exact H1 | split; [exact H2 | exact H3]]|].
  exact (@object_between_prose_is_parsed P None pre body post d
           (lit "[1, 2]") H1 H2 H3).
Defined.

(** C5: the first upload is not a PDF document; the request ends there. *)
Lemma unreadable_pdf_aborts_batch :
  pasted (stub (answers ["{`score`: 70}"%string]))
    [upload "a.pdf" (bytes_of "not a pdf"); cv "b.txt"]
  = (inl (LibraryError (lit "No /Root object! - Is this really a PDF?")),
     [Closed (Some (lit "a.pdf"))]).
Proof. vm_compute. reflexivity. Qed.

(** C5 on a batch of two text files, the second answered with prose. *)
Lemma one_record_per_document_witness :
  let P := stub (answers ["{`score`: 70}"; "I cannot score this."]%string) in
  let resumes := [cv "a.txt"; cv "b.md"] in
  let jd := lit "Python developer" in
  (read_jd P (lit "text") None (Some jd) [] = (inr jd, [])
   /\ resumes <> [] /\ (length resumes <= 20)%nat)
  /\ match first_failure P resumes with
     | None =>
         exists results log',
           match_resumes P (lit "text") None (Some jd) resumes []
           = (inr (rank results), log')
           /\ map (@filename) results = map up_filename resumes
           /\ Permutation results (matches (rank results))
           /\ length (matches (rank results)) = length resumes
     | Some e =>
         exists ok bad rest,
           resumes = ok ++ bad :: rest
           /\ Forall (fun up => exists text, upload_text P up = inr text) ok
           /\ upload_text P bad = inl e
           /\ match_resumes P (lit "text") None (Some jd) resumes []
              = (inl e,
                 [] ++ flat_map (turn_events P jd) ok
                   ++ [Closed (up_filename bad)])
     end.
Proof.
  intros P resumes jd.
  assert (H1 : read_jd P (lit "text") None (Some jd) [] = (inr jd, []))
    by (vm_compute; reflexivity).
  assert (H2 : resumes <> []) by discriminate.
  assert (H3 : (length resumes <= 20)%nat) by (cbn; lia).
  split; [split; [exact H1 | split; [exact H2 | exact H3]]|].
  exact (@one_record_per_document_unless_extraction_raises
           P (lit "text") None (Some jd) resumes [] jd [] H1 H2 H3).
Defined.

(** C6: the byte FF cannot be decoded; it is left out and no replacement
    character (U+FFFD) stands for it. *)
Lemma undecodable_byte_is_dropped :
  _read_upload_text (stub []) (upload "notes.txt" [x61; xff; x62]) []
  = (inr (lit "ab"), [Closed (Some (lit "notes.txt"))])
  /\ ~ In 65533%N (decode_ignore [x61; xff; x62]).
Proof.
  split; [vm_compute; reflexivity | apply not_in_forallb; reflexivity].
Qed.

(** C6 on a text file with an ill-formed byte. *)
Lemma other_suffix_decoded_witness :
  let P := stub [] in
  let up := upload "Notes.TXT" [x61; xff; x62] in
  (endswith (str_lower P (or_empty (up_filename up))) (lit ".pdf") = false
   /\ endswith (str_lower P (or_empty (up_filename up))) (lit ".docx") = false
   /\ endswith (str_lower P (or_empty (up_filename up))) (lit ".doc") = false)
  /\ exists text,
       _read_upload_text P up []
       = (inr text, [] ++ [Closed (up_filename up)])
       /\ decoded_ignoring_errors (map Byte.to_N (up_content up)) text
       /\ (forall s,
             decoded_ignoring_errors (map Byte.to_N (up_content up)) s ->
             s = text)
       /\ subseq (utf8_encode text) (map Byte.to_N (up_content up)).
Proof.
  intros P up.
  assert (H1 : endswith (str_lower P (or_empty (up_filename up))) (lit ".pdf")
               = false) by reflexivity.
  assert (H2 : endswith (str_lower P (or_empty (up_filename up)))
                 (lit ".docx") = false) by reflexivity.
  assert (H3 : endswith (str_lower P (or_empty (up_filename up))) (lit ".doc")
               = false) by reflexivity.
  split; [split; [exact H1 | split; [exact H2 | exact H3]]|].
  exact (@other_suffix_decoded_ignoring_errors P up [] H1 H2 H3).
Defined.

(** C7 on the example of the specification: [AWS] becomes the list of the
    one string [AWS]. *)
Lemma scalar_missing_skills_witness :
  let P := stub [] in
  let text := dq "Sure, here you go:
{`score`: 85, `missing_skills`: `AWS`, `remarks`: `Strong fit`}" in
  let d := [(lit "score", PInt 85); (lit "missing_skills", PStr (lit "AWS"));
            (lit "remarks", PStr (lit "Strong fit"))] in
  (locate_and_load P text = inr (PDict d)
   /\ py_int P (dict_get d (lit "score") (PInt 0)) = inr 85)
  /\ missing_skills (score_record P None (inr text)) = [PStr (lit "AWS")].
Proof.
  intros P text d.
  assert (H1 : locate_and_load P text = inr (PDict d))
    by (vm_compute; reflexivity).
  assert (H2 : py_int P (dict_get d (lit "score") (PInt 0)) = inr 85)
    by reflexivity.
  split; [split; [exact H1 | exact H2]|].
  exact (@scalar_missing_skills_wrapped P None text d 85 H1 H2).
Defined.

(** C8: 21 skills in the response are 21 skills in the record, and numbers
    stay numbers. *)
Lemma long_and_untyped_skills_are_kept :
  exists report log,
    pasted (stub (answers
      ["{`score`: 9, `missing_skills`: [`s1`, `s2`, `s3`, `s4`, `s5`, `s6`, `s7`, `s8`, `s9`, `s10`, `s11`, `s12`, `s13`, `s14`, `s15`, `s16`, `s17`, `s18`, `s19`, `s20`, `s21`]}";
       "{`score`: 8, `missing_skills`: [7, null]}"]%string))
      [cv "a.txt"; cv "b.txt"]
    = (inr report, log)
    /\ map (fun r => length (missing_skills r)) (matches report)
       = [21%nat; 2%nat]
    /\ map (@missing_skills) (skipn 1 (matches report)) = [[PInt 7; PNone]].
Proof. eexists _, _. repeat split; vm_compute; reflexivity. Qed.

(** C9: 21 resumes and a job description file that is not a PDF document:
    the request ends with the reader's error, not with a 400. *)
Lemma unreadable_jd_precedes_batch_check :
  match_resumes (stub []) (lit "file")
    (Some (upload "jd.pdf" (bytes_of "not a pdf"))) None
    (repeat (cv "a.txt") 21) []
  = (inl (LibraryError (lit "No /Root object! - Is this really a PDF?")),
     [Closed (Some (lit "jd.pdf"))]).
Proof. vm_compute. reflexivity. Qed.

(** C9 on a batch of 21 resumes. *)
Lemma batch_size_rejected_witness :
  let P := stub [] in
  let resumes := repeat (cv "a.txt") 21 in
  let jd := Some (lit "Python developer") in
  (resumes = [] \/ (20 < length resumes)%nat)
  /\ match_resumes P (lit "text") None jd resumes []
     = (match read_jd P (lit "text") None jd [] with
        | (inr _, log1) =>
            (inl (HTTPException 400
                    (match resumes with
                     | [] => lit "At least one resume must be uploaded"
                     | _ => lit "Maximum 20 resumes allowed"
                     end)), log1)
        | (inl e, log1) => (inl e, log1)
        end)
  /\ generated_so_far
       (snd (match_resumes P (lit "text") None jd resumes []))
     = generated_so_far [].
Proof.
  intros P resumes jd.
  assert (H : resumes = [] \/ (20 < length resumes)%nat)
    by (right; vm_compute; lia).
  split; [exact H|].
  exact (@batch_size_rejected_before_evaluation P (lit "text") None
           jd resumes [] H).
Defined.

(** C10 on a service that is down. *)
Lemma generation_failure_absorbed_witness :
  let P := stub [] in
  let jd := lit "Python developer" in
  let text := lit "Python, SQL, Docker" in
  let fallback :=
    {| filename := Some (lit "a.txt"); score := 0; missing_skills := [];
       remarks := PStr (lit "Scoring failed: 500: Gemini API error: "
                        ++ exn_str (LibraryError (lit "503 UNAVAILABLE"))) |} in
  (upload_text P (cv "a.txt") = inr text
   /\ generate_content P (generated_so_far []) (_scoring_prompt jd text)
      = inl (LibraryError (lit "503 UNAVAILABLE")))
  /\ evaluate_one P jd (cv "a.txt") []
     = (inr fallback,
        [] ++ [Closed (Some (lit "a.txt")); Generated (_scoring_prompt jd text)])
  /\ evaluate_all P jd [cv "a.txt"; cv "b.txt"] [] []
     = evaluate_all P jd [cv "b.txt"] ([] ++ [fallback])
         ([] ++ [Closed (Some (lit "a.txt"));
                 Generated (_scoring_prompt jd text)])
  /\ match first_failure P [cv "b.txt"] with
     | None =>
         exists new log',
           evaluate_all P jd [cv "a.txt"; cv "b.txt"] [] []
           = (inr ([] ++ fallback :: new), log')
           /\ map (@filename) new = map up_filename [cv "b.txt"]
     | Some e' =>
         exists log',
           evaluate_all P jd [cv "a.txt"; cv "b.txt"] [] [] = (inl e', log')
     end.
Proof.
  intros P jd text fallback.
  assert (H1 : upload_text P (cv "a.txt") = inr text)
    by (vm_compute; reflexivity).
  assert (H2 : generate_content P (generated_so_far [])
                 (_scoring_prompt jd text)
               = inl (LibraryError (lit "503 UNAVAILABLE")))
    by reflexivity.
  split; [split; [exact H1 | exact H2]|].
  exact (@generation_failure_absorbed P jd (cv "a.txt") [cv "b.txt"] [] []
           text (LibraryError (lit "503 UNAVAILABLE")) H1 H2).
Defined.

End Examples.

(** ** Further properties of [main.py] *)

(** *** [_shorten] and [_scoring_prompt] *)

Section Shorten.
Local Open Scope nat_scope.

Lemma before_last_newline_some s t :
  before_last_newline s = Some t ->
  exists tail, s = t ++ 10%N :: tail /\ ~ In 10%N tail.
Proof.
  revert t; induction s as [|c s IH]; intros t H; [discriminate|].
  cbn in H. destruct (before_last_newline s) as [t'|] eqn:E.
  - injection H as <-. destruct (IH t' eq_refl) as (tail & -> & Hn).
    now exists tail.
  - destruct (N.eqb_spec c 10) as [->|_]; [|discriminate].
    injection H as <-. exists s. split; [reflexivity|].
    clear IH. induction s as [|d s IHs]; [now intros []|].
    cbn in E. destruct (before_last_newline s); [discriminate|].
    destruct (N.eqb_spec d 10); [discriminate|].
    intros [->|Hin]; [congruence | now apply IHs].
Qed.

Lemma before_last_newline_none s :
  before_last_newline s = None -> ~ In 10%N s.
Proof.
  induction s as [|d s IHs]; [now intros _ []|].
  cbn. destruct (before_last_newline s); [discriminate|].
  destruct (N.eqb_spec d 10); [discriminate|].
  intros _ [->|Hin]; [congruence | now apply IHs].
Qed.

Lemma rsplit_newline_head_prefix s :
  exists rest, s = rsplit_newline_head s ++ rest.
Proof.
  unfold rsplit_newline_head.
  destruct (before_last_newline s) as [t|] eqn:E.
  - apply before_last_newline_some in E as (tail & -> & _). now eexists.
  - exists []. now rewrite app_nil_r.
Qed.

(** X1. [_shorten] returns the beginning of the text and never more than
    [max_chars] characters of it. *)
Theorem shorten_is_bounded_prefix (text : str) (max_chars : nat) :
  (exists rest, text = _shorten text max_chars ++ rest)
  /\ length (_shorten text max_chars) <= max_chars.
Proof.
  unfold _shorten. destruct (Nat.leb_spec (length text) max_chars) as [H|H].
  - split; [exists []; now rewrite app_nil_r | exact H].
  - destruct (rsplit_newline_head_prefix (firstn max_chars text)) as [r Hr].
    split.
    + exists (r ++ skipn max_chars text).
      rewrite app_assoc, <- Hr. symmetry. apply firstn_skipn.
    + apply (f_equal (@length _)) in Hr.
      rewrite length_app, length_firstn in Hr. lia.
Qed.

(** X2. A text longer than [max_chars] is cut at a line boundary: at the
    last newline among its first [max_chars] characters, which is left
    out, and after exactly [max_chars] characters only when there is no
    newline among them. *)
Theorem shorten_cuts_at_last_newline (text : str) (max_chars : nat) :
  max_chars < length text ->
  (_shorten text max_chars = firstn max_chars text
   /\ ~ In 10%N (firstn max_chars text))
  \/ exists tail,
       firstn max_chars text = _shorten text max_chars ++ 10%N :: tail
       /\ ~ In 10%N tail.
Proof.
  intros H. unfold _shorten.
  destruct (Nat.leb_spec (length text) max_chars) as [H'|_]; [lia|].
  unfold rsplit_newline_head.
  destruct (before_last_newline (firstn max_chars text)) as [t|] eqn:E.
  - right. now apply before_last_newline_some.
  - left. split; [reflexivity | now apply before_last_newline_none].
Qed.

(** X3. Shortening twice is shortening once. *)
Theorem shorten_idempotent (text : str) (max_chars : nat) :
  _shorten (_shorten text max_chars) max_chars = _shorten text max_chars.
Proof.
  destruct (shorten_is_bounded_prefix text max_chars) as [_ H].
  unfold _shorten at 1. apply Nat.leb_le in H. now rewrite H.
Qed.

(** X4. What follows the first [max_chars] characters of a text that is
    too long has no influence on the result. *)
Theorem shorten_ignores_the_rest (text1 text2 : str) (max_chars : nat) :
  max_chars < length text1 -> max_chars < length text2 ->
  firstn max_chars text1 = firstn max_chars text2 ->
  _shorten text1 max_chars = _shorten text2 max_chars.
Proof.
  intros H1 H2 E. unfold _shorten.
  destruct (Nat.leb_spec (length text1) max_chars); [lia|].
  destruct (Nat.leb_spec (length text2) max_chars); [lia|].
  now rewrite E.
Qed.

Ltac literal_lengths :=
  repeat match goal with
  | |- context [length (dq ?s)] =>
      let n := eval vm_compute in (length (dq s)) in
      change (length (dq s)) with n
  end.

Lemma scoring_prompt_length jd_text resume_text :
  length (_scoring_prompt jd_text resume_text)
  = 1017 + length (_shorten jd_text 2500)
    + length (_shorten resume_text 2500).
Proof.
  unfold _scoring_prompt. rewrite !length_app. literal_lengths. lia.
Qed.

(** X5. The scoring prompt is never longer than 6017 characters, whatever
    the lengths of the job description and of the resume: 1017 characters
    of instructions and at most 2500 of each text. *)
Theorem scoring_prompt_is_bounded (jd_text resume_text : str) :
  length (_scoring_prompt jd_text resume_text) <= 1017 + 2500 + 2500.
Proof.
  rewrite scoring_prompt_length.
  pose proof (proj2 (shorten_is_bounded_prefix jd_text 2500)).
  pose proof (proj2 (shorten_is_bounded_prefix resume_text 2500)). lia.
Qed.

End Shorten.

(** *** Reading the job description and the uploads *)

Section Reading.
Variable P : Platform.
Local Open Scope nat_scope.

(** X6. Unless [jd_mode] is [file], no file is read or closed, and the job
    description is accepted only when [jd_mode] is [text] and the pasted
    text has a character that is not white space; it is then that text,
    unchanged.  Every other request ends with a 400. *)
Theorem pasted_jd_is_validated
  (jd_mode : str) (jd_file : option UploadFile) (jd_text : option str)
  (log : list event) :
  jd_mode <> lit "file" ->
  snd (read_jd P jd_mode jd_file jd_text log) = log
  /\ match fst (read_jd P jd_mode jd_file jd_text log) with
     | inr jd_raw =>
         jd_mode = lit "text" /\ jd_text = Some jd_raw /\ strip jd_raw <> []
     | inl e => exists detail, e = HTTPException 400 detail
     end.
Proof.
  intros Hm. unfold read_jd, bad_request, raise, ret.
  destruct (str_eqb jd_mode (lit "file")) eqn:Ef;
    [apply str_eqb_eq in Ef; contradiction|].
  destruct (str_eqb jd_mode (lit "text")) eqn:Et; cbn [orb negb];
    [|split; [reflexivity | now eexists]].
  apply str_eqb_eq in Et.
  destruct jd_text as [[|c t]|]; try (split; [reflexivity | now eexists]).
  destruct (strip (c :: t)) eqn:Es; [split; [reflexivity | now eexists]|].
  cbn [fst snd]. repeat split; [assumption | rewrite Es; discriminate].
Qed.

(** X7. A file that is not taken for a PDF or DOCX document and holds the
    UTF-8 encoding of a text is read back as that text. *)
Theorem well_formed_utf8_is_read_back
  (up : UploadFile) (log : list event) (s : str) :
  endswith (str_lower P (or_empty (up_filename up))) (lit ".pdf") = false ->
  endswith (str_lower P (or_empty (up_filename up))) (lit ".docx") = false ->
  endswith (str_lower P (or_empty (up_filename up))) (lit ".doc") = false ->
  forallb is_scalar s = true ->
  map Byte.to_N (up_content up) = utf8_encode s ->
  fst (_read_upload_text P up log) = inr s.
Proof.
  intros H1 H2 H3 Hs He.
  rewrite read_upload_text_eq. cbn [fst].
  unfold upload_text, extract_text. rewrite H1, H2, H3. cbn [orb].
  unfold decode_ignore. rewrite He. now rewrite decode_encode.
Qed.

Lemma newlines_app a b : newlines (a ++ b) = newlines a + newlines b.
Proof. apply count_occ_app. Qed.

Lemma newlines_join parts :
  newlines (join newline parts)
  = list_sum (map newlines parts) + pred (length parts).
Proof.
  induction parts as [|p [|q parts] IH];
    [reflexivity | cbn [join map list_sum fold_right length pred]; lia |].
  change (join newline (p :: q :: parts))
    with (p ++ newline ++ join newline (q :: parts)).
  rewrite !newlines_app, IH. cbn [map list_sum fold_right length pred].
  change (newlines newline) with 1. lia.
Qed.

Lemma length_join parts :
  length (join newline parts)
  = list_sum (map (@length _) parts) + pred (length parts).
Proof.
  induction parts as [|p [|q parts] IH];
    [reflexivity | cbn [join map list_sum fold_right length pred]; lia |].
  change (join newline (p :: q :: parts))
    with (p ++ newline ++ join newline (q :: parts)).
  rewrite !length_app, IH.
  cbn [map list_sum fold_right length pred newline]. lia.
Qed.

Lemma join_newline_pages parts :
  join newline parts
  = match parts with
    | [] => []
    | first :: more => first ++ flat_map (fun page => 10%N :: page) more
    end.
Proof.
  destruct parts as [|p more]; [reflexivity|].
  revert p; induction more as [|q more IH]; intros p.
  - cbn. now rewrite app_nil_r.
  - change (join newline (p :: q :: more))
      with (p ++ newline ++ join newline (q :: more)).
    rewrite IH. reflexivity.
Qed.

(** X8. The pages of a PDF document are joined by single newlines, in
    their order, a page without text counting as an empty one: the text is
    the first page followed, for every further page, by a newline and that
    page.  So it has one newline for each page after the first, besides
    those of the pages themselves. *)
Theorem pdf_pages_are_joined
  (up : UploadFile) (log : list event) (texts : list (option str)) :
  endswith (str_lower P (or_empty (up_filename up))) (lit ".pdf") = true ->
  pdf_page_texts P (up_content up) = inr texts ->
  exists text,
    fst (_read_upload_text P up log) = inr text
    /\ text = match texts with
              | [] => []
              | first :: more =>
                  or_empty first
                  ++ flat_map (fun page => 10%N :: or_empty page) more
              end
    /\ newlines text
       = list_sum (map (fun t => newlines (or_empty t)) texts)
         + pred (length texts)
    /\ length text
       = list_sum (map (fun t => length (or_empty t)) texts)
         + pred (length texts).
Proof.
  intros H1 Hp. eexists. split; [|split; [|split]].
  - rewrite read_upload_text_eq. cbn [fst].
    unfold upload_text, extract_text. rewrite H1, Hp. reflexivity.
  - rewrite join_newline_pages.
    destruct texts as [|first more]; [reflexivity|].
    cbn [map]. f_equal. now rewrite flat_map_concat_map, map_map,
      <- flat_map_concat_map.
  - rewrite newlines_join, map_map, length_map. reflexivity.
  - rewrite length_join, map_map, length_map. reflexivity.
Qed.

End Reading.

(** *** The generation call and the parsing of its answer *)

Section Answer.
Variable P : Platform.
Local Open Scope Z_scope.

Lemma lstrip_starts_clean s : starts_clean (lstrip s) = true.
Proof.
  induction s as [|c s IH]; [reflexivity|].
  cbn. destruct (isspace c) eqn:E; [exact IH|]. cbn. now rewrite E.
Qed.

Lemma lstrip_suffix s : exists w, s = w ++ lstrip s.
Proof.
  induction s as [|c s [w IH]]; [now exists []|].
  cbn. destruct (isspace c); [|now exists []].
  exists (c :: w). cbn. now f_equal.
Qed.

Lemma lstrip_spec s :
  exists w, s = w ++ lstrip s /\ forallb isspace w = true.
Proof.
  induction s as [|c s (w & IH & Hw)]; [now exists []|].
  cbn. destruct (isspace c) eqn:Ec; [|now exists []].
  exists (c :: w). cbn. rewrite Ec, Hw. split; [now f_equal | reflexivity].
Qed.

(** [strip] takes white space off both ends, and nothing else. *)
Lemma strip_spec s :
  exists before after,
    s = before ++ strip s ++ after
    /\ forallb isspace before = true /\ forallb isspace after = true.
Proof.
  unfold strip.
  destruct (lstrip_spec s) as (a & Ha & Wa).
  destruct (lstrip_spec (rev (lstrip s))) as (w & Hw & Ww).
  exists a, (rev w). repeat split; try assumption.
  - rewrite <- rev_app_distr, <- Hw, rev_involutive. exact Ha.
  - apply forallb_forall. intros x Hx. apply in_rev in Hx.
    rewrite forallb_forall in Ww. now apply Ww.
Qed.

Lemma lstrip_clean s : starts_clean s = true -> lstrip s = s.
Proof.
  destruct s as [|c s]; [reflexivity|].
  cbn. now destruct (isspace c).
Qed.

Lemma starts_clean_prefix a b :
  starts_clean (a ++ b) = true -> a <> [] -> starts_clean a = true.
Proof. destruct a; [congruence | now cbn]. Qed.

Lemma strip_clean_ends s : clean_ends (strip s) = true.
Proof.
  unfold clean_ends, strip. rewrite rev_involutive.
  rewrite lstrip_starts_clean, andb_true_r.
  destruct (lstrip_suffix (rev (lstrip s))) as [w Hw].
  set (b := lstrip (rev (lstrip s))) in *.
  destruct (rev b) as [|c r] eqn:Eb; [reflexivity|].
  apply (@starts_clean_prefix (c :: r) (rev w)); [|discriminate].
  rewrite <- Eb, <- rev_app_distr, <- Hw, rev_involutive.
  apply lstrip_starts_clean.
Qed.

Lemma clean_ends_strip s : clean_ends s = true -> strip s = s.
Proof.
  unfold clean_ends, strip. intros H. apply andb_prop in H as [H1 H2].
  rewrite (lstrip_clean s H1), (lstrip_clean (rev s) H2).
  apply rev_involutive.
Qed.

(** X9. A generation call that succeeds yields a text without white space
    at either end, which stripping leaves as it is; one that fails raises
    an [HTTPException] with status 500 whose detail names the cause. *)
Theorem generated_text_is_stripped (n : nat) (prompt : str) :
  match call_service P n prompt with
  | inr text => clean_ends text = true /\ strip text = text
  | inl e =>
      exists cause,
        generate_content P n prompt = inl cause
        /\ e = HTTPException 500 (lit "Gemini API error: " ++ exn_str cause)
  end.
Proof.
  unfold call_service.
  destruct (generate_content P n prompt) as [cause|text].
  - now exists cause.
  - split; [apply strip_clean_ends|].
    apply clean_ends_strip, strip_clean_ends.
Qed.

Lemma remarks_of_dict name resp_text d z :
  locate_and_load P resp_text = inr (PDict d) ->
  py_int P (dict_get d (lit "score") (PInt 0)) = inr z ->
  remarks (score_record P name (inr resp_text))
  = match dict_find d (lit "remarks") with
    | Some v => if truthy v then v else PStr []
    | None => PStr []
    end.
Proof.
  intros Hl Hz. unfold score_record.
  rewrite (@try_body_dict P resp_text d Hl), (@extract_fields_dict P d z Hz).
  cbn [remarks]. rewrite dict_get_find. unfold or_empty_str.
  now destruct (dict_find d (lit "remarks")).
Qed.

Ltac break_matches :=
  repeat match goal with
  | |- context [match ?x with _ => _ end] => destruct x
  end.

(** X10. The [remarks] of a record are never a false value other than the
    empty string: they are the empty string or a value that counts as
    true, which need not be a string.  In a response that parses, a value
    that counts as false ([null], [false], 0, a zero float, an empty
    string, array or object) and an absent key give the empty string, and
    any other value is kept as it is; otherwise the remark is
    [Scoring failed: ] followed by the message of the exception. *)
Theorem remarks_are_true_or_empty
  (name : option str) (generated : result str) :
  let r := score_record P name generated in
  (remarks r = PStr [] \/ truthy (remarks r) = true)
  /\ match generated with
     | inl e => remarks r = PStr (lit "Scoring failed: " ++ exn_str e)
     | inr resp_text =>
         match locate_and_load P resp_text with
         | inl e => remarks r = PStr (lit "Scoring failed: " ++ exn_str e)
         | inr (PDict d) =>
             match py_int P (dict_get d (lit "score") (PInt 0)) with
             | inl e =>
                 remarks r = PStr (lit "Scoring failed: " ++ exn_str e)
             | inr _ =>
                 match dict_find d (lit "remarks") with
                 | None | Some PNone | Some (PBool false) | Some (PInt 0%Z)
                 | Some (PFloat (FFin _ 0%Z _)) | Some (PStr [])
                 | Some (PList []) | Some (PDict []) => remarks r = PStr []
                 | Some v => remarks r = v
                 end
             end
         | inr parsed =>
             remarks r
             = PStr (lit "Scoring failed: '" ++ type_name parsed
                     ++ lit "' object has no attribute 'get'")
         end
     end.
Proof.
  intros r. subst r. split.
  - unfold score_record.
    destruct (try_body P generated) as [e|[[z ms] r]] eqn:E; [now right|].
    cbn [remarks].
    destruct generated as [e|resp_text]; [discriminate|].
    cbn in E.
    destruct (locate_and_load P resp_text) as [e|parsed]; [discriminate|].
    cbn in E. unfold extract_fields in E.
    destruct parsed; try discriminate. cbn [get bind] in E.
    destruct (py_int P _); [discriminate|].
    injection E as _ _ <-. unfold or_empty_str.
    destruct (truthy _) eqn:Et; [now right | now left].
  - destruct generated as [e|resp_text]; [reflexivity|].
    destruct (locate_and_load P resp_text) as [e|parsed] eqn:E;
      [unfold score_record; cbn; now rewrite E|].
    destruct parsed as [| | | | | |d];
      try (unfold score_record; cbn; rewrite E; reflexivity).
    destruct (py_int P (dict_get d (lit "score") (PInt 0))) as [e|z] eqn:Ez.
    + unfold score_record.
      now rewrite (@try_body_dict P resp_text d E),
        (@extract_fields_bad_score P d e Ez).
    + rewrite (@remarks_of_dict name resp_text d z E Ez).
      destruct (dict_find d (lit "remarks")) as [v|]; [|reflexivity].
      destruct v as [|[|]|[|p|p]|[|neg|neg [|p|p] e]|[|c s]|[|x l]|[|kv o]];
        reflexivity.
Qed.

(** X11. An answer that is a JSON object without a [score] key is not a
    failure: the score is 0 and the other two fields are those of the
    object.  [missing_skills] is its list, empty without the key, and one
    string for a value that is not a list; [remarks] is its value, and the
    empty string without the key or for a value that counts as false. *)
Theorem absent_score_defaults_to_zero
  (name : option str) (resp_text : str) (d : pydict) :
  locate_and_load P resp_text = inr (PDict d) ->
  dict_find d (lit "score") = None ->
  let r := score_record P name (inr resp_text) in
  filename r = name
  /\ score r = 0%Z
  /\ match dict_find d (lit "missing_skills") with
     | None => missing_skills r = []
     | Some (PList l) => missing_skills r = l
     | Some _ => exists s, missing_skills r = [PStr s]
     end
  /\ match dict_find d (lit "remarks") with
     | None | Some PNone | Some (PBool false) | Some (PInt 0%Z)
     | Some (PFloat (FFin _ 0%Z _)) | Some (PStr [])
     | Some (PList []) | Some (PDict []) => remarks r = PStr []
     | Some v => remarks r = v
     end.
Proof.
  intros Hl Hs r. subst r.
  assert (Hz : py_int P (dict_get d (lit "score") (PInt 0)) = inr 0%Z)
    by (rewrite dict_get_find, Hs; reflexivity).
  split; [apply score_record_filename|]. split; [|split].
  - rewrite (@score_of_dict P name resp_text d Hl). now rewrite Hz.
  - rewrite (@missing_skills_of_dict P name resp_text d 0%Z Hl Hz).
    destruct (dict_find d (lit "missing_skills")) as [[]|];
      try reflexivity; eexists; reflexivity.
  - rewrite (@remarks_of_dict name resp_text d 0%Z Hl Hz).
    destruct (dict_find d (lit "remarks")) as [v|]; [|reflexivity].
    destruct v as [|[|]|[|p|p]|[|neg|neg [|p|p] e]|[|c s]|[|x l]|[|kv o]];
      reflexivity.
Qed.

End Answer.

Section BraceSearch.
Local Open Scope N_scope.

(** X12. The search finds the span from the first opening brace of the
    text to its last closing brace, and finds nothing exactly when no
    closing brace follows an opening one. *)
Theorem search_braces_is_greedy_span (text : str) :
  match search_braces text with
  | Some group =>
      exists pre mid post,
        text = pre ++ group ++ post
        /\ group = 123 :: mid ++ [125]
        /\ ~ In 123 pre /\ ~ In 125 post
  | None =>
      ~ exists pre mid post, text = pre ++ 123 :: mid ++ 125 :: post
  end.
Proof.
  destruct (search_braces text) as [g|] eqn:E.
  - unfold search_braces in E.
    destruct (from_first_open text) as [[|c rest]|] eqn:Ef; try discriminate.
    destruct (upto_last_close rest) as [t|] eqn:Eu; [|discriminate].
    injection E as <-.
    apply from_first_open_some in Ef as (pre & r & -> & Er & Hn).
    injection Er as -> ->.
    apply upto_last_close_some' in Eu as (body & post & -> & -> & Hp).
    exists pre, body, post. repeat split; try assumption.
    cbn. now rewrite <- app_assoc.
  - intros (pre & mid & post & ->). now apply search_braces_found in E.
Qed.

End BraceSearch.

(** *** The whole request *)

Section Request.
Variable P : Platform.
Local Open Scope nat_scope.

Lemma evaluate_all_log jd_raw resumes : forall results log,
  first_failure P resumes = None ->
  snd (evaluate_all P jd_raw resumes results log)
  = log ++ flat_map (turn_events P jd_raw) resumes.
Proof.
  induction resumes as [|up rest IH]; intros results log Hf.
  - cbn. now rewrite app_nil_r.
  - cbn [first_failure] in Hf. cbn [evaluate_all flat_map]. unfold io_bind.
    rewrite evaluate_one_eq. unfold turn_events at 1.
    destruct (upload_text P up) as [e|text]; [discriminate|].
    rewrite IH by exact Hf. now rewrite <- app_assoc.
Qed.

Lemma evaluate_all_calls jd_raw resumes : forall results log,
  generated_so_far (snd (evaluate_all P jd_raw resumes results log))
  <= generated_so_far log + length resumes.
Proof.
  induction resumes as [|up rest IH]; intros results log.
  - cbn [evaluate_all ret snd length]. lia.
  - cbn [evaluate_all]. unfold io_bind. rewrite evaluate_one_eq.
    destruct (upload_text P up) as [e|text].
    + cbn [snd length]. rewrite generated_so_far_app.
      change (generated_so_far [Closed (up_filename up)]) with 0. lia.
    + etransitivity; [apply IH|].
      rewrite generated_so_far_app.
      change (generated_so_far [Closed (up_filename up);
                                Generated (_scoring_prompt jd_raw text)])
        with 1.
      cbn [length]. lia.
Qed.

Lemma evaluate_all_error jd_raw resumes : forall results log e log',
  evaluate_all P jd_raw resumes results log = (inl e, log') ->
  exists up, In up resumes /\ upload_text P up = inl e.
Proof.
  induction resumes as [|up rest IH]; intros results log e log' H.
  - discriminate.
  - cbn [evaluate_all] in H. unfold io_bind in H.
    rewrite evaluate_one_eq in H.
    destruct (upload_text P up) as [e0|text] eqn:Eu.
    + injection H as <- _. exists up. split; [now left | exact Eu].
    + apply IH in H as (up' & Hin & Hup). exists up'. split; [now right|].
      exact Hup.
Qed.

(** A request that ends with a report went through every stage. *)
Lemma match_resumes_success jd_mode jd_file jd_text resumes log report log' :
  match_resumes P jd_mode jd_file jd_text resumes log = (inr report, log') ->
  exists jd_raw log1 results,
    read_jd P jd_mode jd_file jd_text log = (inr jd_raw, log1)
    /\ resumes <> [] /\ length resumes <= 20
    /\ first_failure P resumes = None
    /\ evaluate_all P jd_raw resumes [] log1 = (inr results, log')
    /\ report = rank results
    /\ map (@filename) results = map up_filename resumes.
Proof.
  unfold match_resumes, io_bind. intros H.
  destruct (read_jd P jd_mode jd_file jd_text log) as [[e|jd_raw] log1];
    [discriminate|].
  destruct resumes as [|up rest] eqn:Er; [discriminate|]. rewrite <- Er in *.
  destruct (Nat.ltb_spec 20 (length resumes)) as [|Hlen]; [discriminate|].
  pose proof (evaluate_all_spec P jd_raw resumes [] log1) as Hs.
  destruct (first_failure P resumes) as [e|].
  - destruct Hs as [l Hs]. rewrite Hs in H. discriminate.
  - destruct Hs as (new & l & Hs & Hn & _). rewrite Hs in H.
    cbn [app] in *. unfold ret in H. injection H as <- <-.
    exists jd_raw, log1, new. repeat split; try assumption.
    subst resumes. discriminate.
Qed.

(** X13. When a request ends with a report, what it did after reading the
    job description is, for each resume in upload order, to close the file
    and then to call the generation service once, with the prompt made of
    that job description and of the text of that resume. *)
Theorem successful_request_trace
  (jd_mode : str) (jd_file : option UploadFile) (jd_text : option str)
  (resumes : list UploadFile) (log : list event)
  (report : MatchReport) (log' : list event) :
  match_resumes P jd_mode jd_file jd_text resumes log = (inr report, log') ->
  exists jd_raw log1,
    read_jd P jd_mode jd_file jd_text log = (inr jd_raw, log1)
    /\ log' = log1 ++ flat_map (turn_events P jd_raw) resumes
    /\ Forall (fun up => exists text,
                 upload_text P up = inr text
                 /\ turn_events P jd_raw up
                    = [Closed (up_filename up);
                       Generated (_scoring_prompt jd_raw text)]) resumes
    /\ generated_so_far log' = generated_so_far log + length resumes.
Proof.
  intros H.
  apply match_resumes_success in H
    as (jd_raw & log1 & results & Hjd & _ & _ & Hf & He & _ & _).
  exists jd_raw, log1. split; [exact Hjd|]. repeat split.
  - rewrite <- (evaluate_all_log jd_raw resumes [] log1 Hf). now rewrite He.
  - clear He. induction resumes as [|up rest IH]; constructor.
    + cbn in Hf. unfold turn_events.
      destruct (upload_text P up) as [e|text]; [discriminate|].
      now exists text.
    + apply IH. cbn in Hf. now destruct (upload_text P up).
  - pose proof (evaluate_all_spec P jd_raw resumes [] log1) as Hs.
    rewrite Hf in Hs. destruct Hs as (new & l & Hs & _ & Hg).
    rewrite He in Hs. injection Hs as _ <-. rewrite Hg.
    pose proof (read_jd_generates_nothing P jd_mode jd_file jd_text log) as Hr.
    rewrite Hjd in Hr. cbn [snd] in Hr. now rewrite Hr.
Qed.

(** X14. A report always names a best candidate: one of its matches, with
    a score no other match exceeds; and it has as many matches as there
    were resumes, between 1 and 20. *)
Theorem report_names_a_best_candidate
  (jd_mode : str) (jd_file : option UploadFile) (jd_text : option str)
  (resumes : list UploadFile) (log : list event)
  (report : MatchReport) (log' : list event) :
  match_resumes P jd_mode jd_file jd_text resumes log = (inr report, log') ->
  (exists best,
     best_candidate report = Some best
     /\ In best (matches report)
     /\ Forall (fun r => (score r <= score best)%Z) (matches report))
  /\ length (matches report) = length resumes
  /\ 1 <= length resumes <= 20.
Proof.
  intros H.
  apply match_resumes_success in H
    as (jd_raw & log1 & results & _ & Hne & Hlen & _ & _ & -> & Hn).
  assert (Hl : length (matches (rank results)) = length resumes).
  { cbn [rank matches].
    rewrite <- (Permutation_length (sort_perm results)).
    rewrite <- (length_map (@filename) results), Hn. apply length_map. }
  repeat split; try assumption.
  - cbn [rank matches best_candidate] in *.
    destruct (sort_by_score_desc results) as [|b t] eqn:Es.
    + destruct resumes; [congruence | discriminate].
    + exists b. repeat split; [now left|].
      pose proof (sort_sorted results) as Hs. rewrite Es in Hs.
      inversion Hs as [|? ? _ Hall]; subst.
      constructor; [lia | exact Hall].
  - destruct resumes; [congruence | cbn; lia].
Qed.

(** X15. Among the records with the highest score the ranker takes the
    first one of its input as best candidate. *)
Theorem best_candidate_is_first_of_the_top
  (results : list ScoreRecord) (best : ScoreRecord) :
  best_candidate (rank results) = Some best ->
  In best results
  /\ Forall (fun r => (score r <= score best)%Z) results
  /\ hd_error (filter (has_score (score best)) results) = Some best.
Proof.
  cbn [rank best_candidate]. intros H. repeat split.
  - apply (Permutation_in _ (Permutation_sym (sort_perm results))).
    destruct (sort_by_score_desc results); [discriminate|].
    injection H as ->. now left.
  - apply Forall_forall. intros r Hr. now apply (best_is_maximum results).
  - rewrite <- sort_stable.
    destruct (sort_by_score_desc results) as [|b t]; [discriminate|].
    injection H as ->. cbn. unfold has_score. now rewrite Z.eqb_refl.
Qed.

(** X16. A request never calls the generation service more often than it
    has resumes, and never more than 20 times. *)
Theorem at_most_one_call_per_resume
  (jd_mode : str) (jd_file : option UploadFile) (jd_text : option str)
  (resumes : list UploadFile) (log : list event) :
  generated_so_far
    (snd (match_resumes P jd_mode jd_file jd_text resumes log))
  <= generated_so_far log + Nat.min (length resumes) 20.
Proof.
  unfold match_resumes, io_bind.
  pose proof (read_jd_generates_nothing P jd_mode jd_file jd_text log) as Hr.
  destruct (read_jd P jd_mode jd_file jd_text log) as [[e|jd_raw] log1];
    cbn [snd] in *; [lia|].
  destruct resumes as [|up rest] eqn:Er;
    [cbn [bad_request raise snd]; lia|].
  rewrite <- Er in *.
  destruct (Nat.ltb_spec 20 (length resumes)) as [|Hlen];
    [cbn [bad_request raise snd]; lia|].
  pose proof (evaluate_all_calls jd_raw resumes [] log1) as Hc.
  destruct (evaluate_all P jd_raw resumes [] log1) as [[e|results] l];
    cbn [ret snd] in *; lia.
Qed.

(** X17. A request fails only with a 400 or with what reading the job
    description file or a resume raised: no failure of the generation
    service or of the parsing ends it. *)
Theorem request_fails_only_on_input
  (jd_mode : str) (jd_file : option UploadFile) (jd_text : option str)
  (resumes : list UploadFile) (log : list event)
  (e : exn) (log' : list event) :
  match_resumes P jd_mode jd_file jd_text resumes log = (inl e, log') ->
  (exists detail, e = HTTPException 400 detail)
  \/ (exists f, jd_file = Some f /\ upload_text P f = inl e)
  \/ (exists up, In up resumes /\ upload_text P up = inl e).
Proof.
  unfold match_resumes, io_bind. intros H.
  destruct (read_jd P jd_mode jd_file jd_text log) as [[e0|jd_raw] log1]
    eqn:Ej.
  - injection H as -> _. revert Ej.
    unfold read_jd, bad_request, raise, ret.
    destruct (negb _); [intros Ej; injection Ej as <- _; left; now eexists|].
    destruct (str_eqb jd_mode (lit "file")).
    + destruct jd_file as [f|];
        [|intros Ej; injection Ej as <- _; left; now eexists].
      rewrite read_upload_text_eq. intros Ej. injection Ej as Ej _.
      right; left. now exists f.
    + destruct jd_text as [[|c t]|];
        try (intros Ej; injection Ej as <- _; left; now eexists).
      destruct (strip (c :: t)); [|discriminate].
      intros Ej; injection Ej as <- _; left; now eexists.
  - destruct resumes as [|up rest] eqn:Er;
      [injection H as <- _; left; now eexists|].
    rewrite <- Er in *.
    destruct (Nat.ltb 20 (length resumes));
      [injection H as <- _; left; now eexists|].
    destruct (evaluate_all P jd_raw resumes [] log1) as [[e1|results] l]
      eqn:Ee; [|discriminate].
    injection H as <- _. right; right.
    eapply evaluate_all_error, Ee.
Qed.

(** X18. With [jd_mode] other than [file] the uploaded job description
    plays no role, and with [jd_mode] [file] the pasted one plays none. *)
Theorem unused_jd_input_is_ignored
  (jd_mode : str) (jd_file1 jd_file2 : option UploadFile)
  (jd_text1 jd_text2 : option str)
  (resumes : list UploadFile) (log : list event) :
  (jd_mode <> lit "file" /\ jd_text1 = jd_text2)
  \/ (jd_mode = lit "file" /\ jd_file1 = jd_file2) ->
  match_resumes P jd_mode jd_file1 jd_text1 resumes log
  = match_resumes P jd_mode jd_file2 jd_text2 resumes log.
Proof.
  intros H. unfold match_resumes.
  replace (read_jd P jd_mode jd_file2 jd_text2)
    with (read_jd P jd_mode jd_file1 jd_text1); [reflexivity|].
  unfold read_jd. destruct H as [[Hm <-]|[-> <-]].
  - destruct (str_eqb jd_mode (lit "file")) eqn:E;
      [apply str_eqb_eq in E; contradiction | reflexivity].
  - reflexivity.
Qed.

End Request.

(** The generation call of [match_resumes] is the general
    [_gemini_generate] with 400 tokens and temperature 0. *)
Lemma scoring_call_is_gemini_generate
  (service : Endpoints.Service) (P : Platform) (prompt : str)
  (log : list event) (calls : list Endpoints.GenerationCall) :
  (forall n p,
     generate_content P n p = service n (Endpoints.scoring_call p)) ->
  generated_so_far log = length calls ->
  fst (_gemini_generate P prompt log)
  = fst (Endpoints._gemini_generate service prompt 400 (FFin false 0 0)
           calls).
Proof.
  intros H Hl. unfold _gemini_generate, call_service,
    Endpoints._gemini_generate. cbn [fst].
  now rewrite H, Hl.
Qed.


(** *** [generate_jd] and [generate_email] *)

Section OtherEndpoints.
Import Endpoints.
Variable service : Service.
Local Open Scope nat_scope.

Lemma gemini_generate_outcome prompt max_tokens temp calls :
  length (snd (_gemini_generate service prompt max_tokens temp calls))
  = length calls + 1
  /\ match fst (_gemini_generate service prompt max_tokens temp calls) with
     | inr text => clean_ends text = true
     | inl e =>
         exists cause,
           e = HTTPException 500 (lit "Gemini API error: " ++ exn_str cause)
     end.
Proof.
  unfold _gemini_generate. cbn [fst snd]. split.
  - rewrite length_app. reflexivity.
  - destruct (service _ _) as [cause|text]; [now exists cause|].
    apply strip_clean_ends.
Qed.

(** What [_gemini_generate] does: one call of the service, with the model
    name, the prompt and the settings; its answer with the white space
    taken off both ends, or a 500 that names what the service raised. *)
Lemma gemini_generate_spec prompt max_tokens temp calls :
  let call := {| model := GEMINI_MODEL; contents := prompt;
                 config := {| temperature := temp; top_p := decimal 95 2;
                              top_k := 40%Z;
                              max_output_tokens := max_tokens |} |} in
  snd (_gemini_generate service prompt max_tokens temp calls)
  = calls ++ [call]
  /\ match service (length calls) call with
     | inr answer =>
         exists text before after,
           fst (_gemini_generate service prompt max_tokens temp calls)
           = inr text
           /\ or_empty answer = before ++ text ++ after
           /\ forallb isspace before = true
           /\ forallb isspace after = true
           /\ clean_ends text = true
     | inl cause =>
         fst (_gemini_generate service prompt max_tokens temp calls)
         = inl (HTTPException 500
                  (lit "Gemini API error: " ++ exn_str cause))
     end.
Proof.
  intros call. unfold _gemini_generate. cbn [fst snd]. fold call.
  split; [reflexivity|].
  destruct (service (length calls) call) as [cause|answer]; [reflexivity|].
  destruct (strip_spec (or_empty answer)) as (before & after & E & Hb & Ha).
  exists (strip (or_empty answer)), before, after.
  repeat split; try assumption. apply strip_clean_ends.
Qed.

(** X19. [generate_email] refuses a status other than [accept] and
    [reject] with a 400, before any call of the generation service. *)
Theorem generate_email_rejects_unknown_status
  (req : EmailRequest.t) (calls : list GenerationCall) :
  EmailRequest.status req <> lit "accept" ->
  EmailRequest.status req <> lit "reject" ->
  generate_email service req calls
  = (inl (HTTPException 400 (lit "status must be 'accept' or 'reject'")),
     calls).
Proof.
  intros Ha Hr. unfold generate_email.
  destruct (str_eqb (EmailRequest.status req) (lit "accept")) eqn:Ea;
    [apply str_eqb_eq in Ea; contradiction|].
  destruct (str_eqb (EmailRequest.status req) (lit "reject")) eqn:Er;
    [apply str_eqb_eq in Er; contradiction|].
  reflexivity.
Qed.

(** X20. With the status [accept] or [reject], [generate_email] calls the
    generation service exactly once, with the model name, the email prompt
    of the request, 400 tokens and the temperature 0.6.  It answers with
    the text of the service, white space taken off both ends, under
    [email], and with the model name; when the service raises, it fails
    with a 500 whose detail names what the service raised: here the
    failure of a call reaches the client. *)
Theorem generate_email_calls_once
  (req : EmailRequest.t) (calls : list GenerationCall) :
  EmailRequest.status req = lit "accept"
  \/ EmailRequest.status req = lit "reject" ->
  let call := {| model := GEMINI_MODEL; contents := _email_prompt req;
                 config := {| temperature := decimal 6 1;
                              top_p := decimal 95 2; top_k := 40%Z;
                              max_output_tokens := 400%Z |} |} in
  length (snd (generate_email service req calls)) = length calls + 1
  /\ match fst (generate_email service req calls) with
     | inr answer =>
         exists text,
           answer = [(lit "email", PStr text); (lit "model", PStr GEMINI_MODEL)]
           /\ clean_ends text = true
     | inl e =>
         exists cause,
           e = HTTPException 500 (lit "Gemini API error: " ++ exn_str cause)
     end
  /\ snd (generate_email service req calls) = calls ++ [call]
  /\ match service (length calls) call with
     | inr answer =>
         exists text before after,
           fst (generate_email service req calls)
           = inr [(lit "email", PStr text); (lit "model", PStr GEMINI_MODEL)]
           /\ or_empty answer = before ++ text ++ after
           /\ forallb isspace before = true
           /\ forallb isspace after = true
           /\ clean_ends text = true
     | inl cause =>
         fst (generate_email service req calls)
         = inl (HTTPException 500
                  (lit "Gemini API error: " ++ exn_str cause))
     end.
Proof.
  intros H call. unfold generate_email.
  replace (negb _) with false
    by (destruct H as [-> | ->]; reflexivity).
  unfold act_bind.
  destruct (gemini_generate_outcome (_email_prompt req) 400 (decimal 6 1)
              calls) as [Hl Ho].
  destruct (gemini_generate_spec (_email_prompt req) 400 (decimal 6 1)
              calls) as [Hc Hs].
  fold call in Hc, Hs.
  destruct (_gemini_generate service (_email_prompt req) 400 (decimal 6 1)
              calls) as [[e|text] calls'];
    cbn [fst snd] in *; (split; [exact Hl|]);
    (split; [first [exact Ho | now exists text]|]);
    (split; [exact Hc|]);
    destruct (service (length calls) call) as [cause|answer].
  - now injection Hs as ->.
  - destruct Hs as (t & b & a & Ht & _). discriminate.
  - discriminate.
  - destruct Hs as (t & b & a & Ht & Hrest). injection Ht as <-.
    now exists text, b, a.
Qed.

(** X21. The invitation prompt is made of the candidate, the role, the
    company, the date and the place only: the job description of the
    request is not part of it, and a date or a place that is absent or
    empty reads [TBD] or [Online]. *)
Theorem invitation_prompt_leaves_jd_out (req1 req2 : EmailRequest.t) :
  EmailRequest.status req1 = lit "accept" ->
  EmailRequest.status req2 = lit "accept" ->
  EmailRequest.candidate_name req1 = EmailRequest.candidate_name req2 ->
  EmailRequest.job_title req1 = EmailRequest.job_title req2 ->
  EmailRequest.company req1 = EmailRequest.company req2 ->
  or_default (EmailRequest.interview_date req1) "TBD"
  = or_default (EmailRequest.interview_date req2) "TBD" ->
  or_default (EmailRequest.location req1) "Online"
  = or_default (EmailRequest.location req2) "Online" ->
  _email_prompt req1 = _email_prompt req2.
Proof.
  intros S1 S2 Hc Hj Hco Hd Hl. unfold _email_prompt.
  rewrite S1, S2, Hc, Hj, Hco, Hd, Hl. reflexivity.
Qed.

(** X22. The rejection prompt is made of the candidate, the role and the
    company only: neither the job description nor the date or the place of
    the request is part of it. *)
Theorem rejection_prompt_uses_three_fields (req1 req2 : EmailRequest.t) :
  EmailRequest.status req1 <> lit "accept" ->
  EmailRequest.status req2 <> lit "accept" ->
  EmailRequest.candidate_name req1 = EmailRequest.candidate_name req2 ->
  EmailRequest.job_title req1 = EmailRequest.job_title req2 ->
  EmailRequest.company req1 = EmailRequest.company req2 ->
  _email_prompt req1 = _email_prompt req2.
Proof.
  intros S1 S2 Hc Hj Hco. unfold _email_prompt.
  destruct (str_eqb (EmailRequest.status req1) (lit "accept")) eqn:E1;
    [apply str_eqb_eq in E1; contradiction|].
  destruct (str_eqb (EmailRequest.status req2) (lit "accept")) eqn:E2;
    [apply str_eqb_eq in E2; contradiction|].
  now rewrite Hc, Hj, Hco.
Qed.

(** X23. [generate_jd] calls the generation service exactly once, with
    the model name, the prompt of the request, 900 tokens and the
    temperature 0.6.  It answers with the text of the service, white space
    taken off both ends, under [job_description], and with the model name;
    when the service raises, it fails with a 500 whose detail names what
    the service raised. *)
Theorem generate_jd_calls_once
  (req : JDGenerateRequest.t) (calls : list GenerationCall) :
  let call := {| model := GEMINI_MODEL; contents := _jd_prompt req;
                 config := {| temperature := decimal 6 1;
                              top_p := decimal 95 2; top_k := 40%Z;
                              max_output_tokens := 900%Z |} |} in
  length (snd (generate_jd service req calls)) = length calls + 1
  /\ match fst (generate_jd service req calls) with
     | inr answer =>
         exists text,
           answer = [(lit "job_description", PStr text);
                     (lit "model", PStr GEMINI_MODEL)]
           /\ clean_ends text = true
     | inl e =>
         exists cause,
           e = HTTPException 500 (lit "Gemini API error: " ++ exn_str cause)
     end
  /\ snd (generate_jd service req calls) = calls ++ [call]
  /\ match service (length calls) call with
     | inr answer =>
         exists text before after,
           fst (generate_jd service req calls)
           = inr [(lit "job_description", PStr text);
                  (lit "model", PStr GEMINI_MODEL)]
           /\ or_empty answer = before ++ text ++ after
           /\ forallb isspace before = true
           /\ forallb isspace after = true
           /\ clean_ends text = true
     | inl cause =>
         fst (generate_jd service req calls)
         = inl (HTTPException 500
                  (lit "Gemini API error: " ++ exn_str cause))
     end.
Proof.
  intros call. unfold generate_jd, act_bind.
  destruct (gemini_generate_outcome (_jd_prompt req) 900 (decimal 6 1)
              calls) as [Hl Ho].
  destruct (gemini_generate_spec (_jd_prompt req) 900 (decimal 6 1)
              calls) as [Hc Hs].
  fold call in Hc, Hs.
  destruct (_gemini_generate service (_jd_prompt req) 900 (decimal 6 1)
              calls) as [[e|text] calls'];
    cbn [fst snd] in *; (split; [exact Hl|]);
    (split; [first [exact Ho | now exists text]|]);
    (split; [exact Hc|]);
    destruct (service (length calls) call) as [cause|answer].
  - now injection Hs as ->.
  - destruct Hs as (t & b & a & Ht & _). discriminate.
  - discriminate.
  - destruct Hs as (t & b & a & Ht & Hrest). injection Ht as <-.
    now exists text, b, a.
Qed.

End OtherEndpoints.

(** ** The further properties on examples *)

Section FurtherExamples.
Local Open Scope Z_scope.

(** X2 on a text of two lines cut inside the second one. *)
Lemma shorten_cuts_at_last_newline_witness :
  let text := lit "first line
second line" in
  (8 < length text)%nat
  /\ ((_shorten text 8 = firstn 8 text /\ ~ In 10%N (firstn 8 text))
      \/ exists tail,
           firstn 8 text = _shorten text 8 ++ 10%N :: tail
           /\ ~ In 10%N tail).
Proof.
  intros text.
  assert (H : (8 < length text)%nat) by (vm_compute; lia).
  split; [exact H|].
  exact (@shorten_cuts_at_last_newline text 8%nat H).
Defined.

(** X4 on two texts that share their first line. *)
Lemma shorten_ignores_the_rest_witness :
  let text1 := lit "Python
SQL and Docker" in
  let text2 := lit "Python
SQL or Kubernetes" in
  ((10 < length text1)%nat /\ (10 < length text2)%nat
   /\ firstn 10 text1 = firstn 10 text2)
  /\ _shorten text1 10 = _shorten text2 10.
Proof.
  intros text1 text2.
  assert (H1 : (10 < length text1)%nat) by (vm_compute; lia).
  assert (H2 : (10 < length text2)%nat) by (vm_compute; lia).
  assert (H3 : firstn 10 text1 = firstn 10 text2) by reflexivity.
  split; [split; [exact H1 | split; [exact H2 | exact H3]]|].
  exact (@shorten_ignores_the_rest text1 text2 10%nat H1 H2 H3).
Defined.

(** X6 on a request whose [jd_mode] is [url]. *)
Lemma pasted_jd_is_validated_witness :
  lit "url" <> lit "file"
  /\ snd (read_jd (stub []) (lit "url") None (Some (lit "Python developer"))
            []) = []
  /\ match fst (read_jd (stub []) (lit "url") None
                  (Some (lit "Python developer")) []) with
     | inr jd_raw =>
         lit "url" = lit "text"
         /\ Some (lit "Python developer") = Some jd_raw
         /\ strip jd_raw <> []
     | inl e => exists detail, e = HTTPException 400 detail
     end.
Proof.
  assert (H : lit "url" <> lit "file") by (vm_compute; discriminate).
  split; [exact H|].
  exact (@pasted_jd_is_validated (stub []) (lit "url") None
           (Some (lit "Python developer")) [] H).
Defined.

(** X7 on a text file with a two-byte character. *)
Lemma well_formed_utf8_is_read_back_witness :
  let up := {| up_filename := Some (lit "cv.txt");
               up_content := [x63; xc3; xa9; x6c] |} in
  let s : str := [99; 233; 108]%N in
  (forallb is_scalar s = true
   /\ map Byte.to_N (up_content up) = utf8_encode s)
  /\ fst (_read_upload_text (stub []) up []) = inr s.
Proof.
  intros up s.
  assert (H4 : forallb is_scalar s = true) by reflexivity.
  assert (H5 : map Byte.to_N (up_content up) = utf8_encode s)
    by reflexivity.
  split; [split; [exact H4 | exact H5]|].
  exact (@well_formed_utf8_is_read_back (stub []) up [] s
           eq_refl eq_refl eq_refl H4 H5).
Defined.

(** X8 on a PDF of three pages, the second one without text. *)
Lemma pdf_pages_are_joined_witness :
  let pages := [Some (lit "Python"); None; Some (lit "SQL")] in
  let P := with_pages pages (stub []) in
  let up := upload "cv.PDF" (bytes_of "%PDF-1.7") in
  pdf_page_texts P (up_content up) = inr pages
  /\ exists text,
       fst (_read_upload_text P up []) = inr text
       /\ text = lit "Python

SQL"
       /\ newlines text = 2%nat
       /\ length text = 11%nat.
Proof.
  intros pages P up.
  assert (H : pdf_page_texts P (up_content up) = inr pages) by reflexivity.
  split; [exact H|].
  exact (@pdf_pages_are_joined P up [] pages eq_refl H).
Defined.

(** X11 on an answer without a score. *)
Lemma absent_score_defaults_to_zero_witness :
  let P := stub [] in
  let resp_text := dq "{`remarks`: `No match`, `missing_skills`: [`SQL`]}" in
  let d := [(lit "remarks", PStr (lit "No match"));
            (lit "missing_skills", PList [PStr (lit "SQL")])] in
  let r := score_record P None (inr resp_text) in
  (locate_and_load P resp_text = inr (PDict d)
   /\ dict_find d (lit "score") = None)
  /\ filename r = None
  /\ score r = 0
  /\ missing_skills r = [PStr (lit "SQL")]
  /\ remarks r = PStr (lit "No match").
Proof.
  intros P resp_text d r.
  assert (H1 : locate_and_load P resp_text = inr (PDict d))
    by (vm_compute; reflexivity).
  assert (H2 : dict_find d (lit "score") = None) by reflexivity.
  split; [split; [exact H1 | exact H2]|].
  exact (@absent_score_defaults_to_zero P None resp_text d H1 H2).
Defined.

(** X13 on a request of two resumes. *)
Lemma successful_request_trace_witness :
  let P := stub (answers ["{`score`: 40}"; "{`score`: 85}"]%string) in
  let resumes := [cv "a.txt"; cv "b.txt"] in
  let jd_text := Some (lit "Python developer") in
  match_resumes P (lit "text") None jd_text resumes []
  = (inr (report_of two_resumes), snd two_resumes)
  /\ exists jd_raw log1,
       read_jd P (lit "text") None jd_text [] = (inr jd_raw, log1)
       /\ snd two_resumes = log1 ++ flat_map (turn_events P jd_raw) resumes
       /\ Forall (fun up => exists text,
                    upload_text P up = inr text
                    /\ turn_events P jd_raw up
                       = [Closed (up_filename up);
                          Generated (_scoring_prompt jd_raw text)]) resumes
       /\ generated_so_far (snd two_resumes)
          = (generated_so_far [] + length resumes)%nat.
Proof.
  intros P resumes jd_text.
  assert (H : match_resumes P (lit "text") None jd_text resumes []
              = (inr (report_of two_resumes), snd two_resumes))
    by (vm_compute; reflexivity).
  split; [exact H|].
  exact (@successful_request_trace P (lit "text") None jd_text resumes []
           (report_of two_resumes) (snd two_resumes) H).
Defined.

(** X14 on a request of two resumes. *)
Lemma report_names_a_best_candidate_witness :
  let P := stub (answers ["{`score`: 40}"; "{`score`: 85}"]%string) in
  let resumes := [cv "a.txt"; cv "b.txt"] in
  let jd_text := Some (lit "Python developer") in
  let report := report_of two_resumes in
  match_resumes P (lit "text") None jd_text resumes []
  = (inr report, snd two_resumes)
  /\ (exists best,
        best_candidate report = Some best
        /\ In best (matches report)
        /\ Forall (fun r => score r <= score best) (matches report))
  /\ length (matches report) = length resumes
  /\ (1 <= length resumes <= 20)%nat.
Proof.
  intros P resumes jd_text report.
  assert (H : match_resumes P (lit "text") None jd_text resumes []
              = (inr report, snd two_resumes))
    by (vm_compute; reflexivity).
  split; [exact H|].
  exact (@report_names_a_best_candidate P (lit "text") None jd_text resumes
           [] report (snd two_resumes) H).
Defined.

(** X15 on two records that tie at the top. *)
Lemma best_candidate_is_first_of_the_top_witness :
  let record (name : string) (points : Z) :=
    {| filename := Some (lit name); score := points;
       missing_skills := []; remarks := PStr [] |} in
  let results := [record "a.txt"%string 40; record "b.txt"%string 85;
                  record "c.txt"%string 85] in
  let best := record "b.txt"%string 85 in
  best_candidate (rank results) = Some best
  /\ In best results
  /\ Forall (fun r => score r <= score best) results
  /\ hd_error (filter (has_score (score best)) results) = Some best.
Proof.
  intros record results best.
  assert (H : best_candidate (rank results) = Some best) by reflexivity.
  split; [exact H|].
  exact (@best_candidate_is_first_of_the_top results best H).
Defined.

(** X17 on a request whose second resume cannot be read. *)
Lemma request_fails_only_on_input_witness :
  let P := stub (answers ["{`score`: 40}"]%string) in
  let resumes := [cv "a.txt"; upload "b.pdf" (bytes_of "not a pdf")] in
  let jd_text := Some (lit "Python developer") in
  let e := LibraryError (lit "No /Root object! - Is this really a PDF?") in
  match_resumes P (lit "text") None jd_text resumes []
  = (inl e, snd unreadable_resume)
  /\ ((exists detail, e = HTTPException 400 detail)
      \/ (exists f, @None UploadFile = Some f /\ upload_text P f = inl e)
      \/ (exists up, In up resumes /\ upload_text P up = inl e)).
Proof.
  intros P resumes jd_text e.
  assert (H : match_resumes P (lit "text") None jd_text resumes []
              = (inl e, snd unreadable_resume))
    by (vm_compute; reflexivity).
  split; [exact H|].
  exact (@request_fails_only_on_input P (lit "text") None jd_text resumes []
           e (snd unreadable_resume) H).
Defined.

(** X18 on a pasted job description sent together with a file. *)
Lemma unused_jd_input_is_ignored_witness :
  let P := stub (answers ["{`score`: 40}"]%string) in
  let jd_text := Some (lit "Python developer") in
  (lit "text" <> lit "file")
  /\ match_resumes P (lit "text") (Some (cv "jd.pdf")) jd_text
       [cv "a.txt"] []
     = match_resumes P (lit "text") None jd_text [cv "a.txt"] [].
Proof.
  intros P jd_text.
  assert (H : lit "text" <> lit "file") by (vm_compute; discriminate).
  split; [exact H|].
  exact (@unused_jd_input_is_ignored P (lit "text") (Some (cv "jd.pdf")) None
           jd_text jd_text [cv "a.txt"] [] (or_introl (conj H eq_refl))).
Defined.

(** X19 on the status [maybe]. *)
Lemma generate_email_rejects_unknown_status_witness :
  let req := email_request "maybe" "Python" None in
  let service := canned (answers ["Subject: Interview"]%string) in
  (EmailRequest.status req <> lit "accept"
   /\ EmailRequest.status req <> lit "reject")
  /\ Endpoints.generate_email service req []
     = (inl (HTTPException 400 (lit "status must be 'accept' or 'reject'")),
        []).
Proof.
  intros req service.
  assert (H1 : EmailRequest.status req <> lit "accept")
    by (vm_compute; discriminate).
  assert (H2 : EmailRequest.status req <> lit "reject")
    by (vm_compute; discriminate).
  split; [split; [exact H1 | exact H2]|].
  exact (@generate_email_rejects_unknown_status service req [] H1 H2).
Defined.

(** X20 on a rejection. *)
Lemma generate_email_calls_once_witness :
  let req := email_request "reject" "Python" None in
  let service := canned (answers [" Subject: Your application "]%string) in
  let call :=
    {| Endpoints.model := Endpoints.GEMINI_MODEL;
       Endpoints.contents := Endpoints._email_prompt req;
       Endpoints.config :=
         {| Endpoints.temperature := Endpoints.decimal 6 1;
            Endpoints.top_p := Endpoints.decimal 95 2;
            Endpoints.top_k := 40;
            Endpoints.max_output_tokens := 400 |} |} in
  EmailRequest.status req = lit "reject"
  /\ length (snd (Endpoints.generate_email service req [])) = 1%nat
  /\ match fst (Endpoints.generate_email service req []) with
     | inr answer =>
         exists text,
           answer = [(lit "email", PStr text);
                     (lit "model", PStr Endpoints.GEMINI_MODEL)]
           /\ clean_ends text = true
     | inl e =>
         exists cause,
           e = HTTPException 500 (lit "Gemini API error: " ++ exn_str cause)
     end
  /\ snd (Endpoints.generate_email service req []) = [call]
  /\ exists text before after,
       fst (Endpoints.generate_email service req [])
       = inr [(lit "email", PStr text);
              (lit "model", PStr Endpoints.GEMINI_MODEL)]
       /\ lit " Subject: Your application " = before ++ text ++ after
       /\ forallb isspace before = true
       /\ forallb isspace after = true
       /\ clean_ends text = true.
Proof.
  intros req service call.
  assert (H : EmailRequest.status req = lit "reject") by reflexivity.
  split; [exact H|].
  exact (@generate_email_calls_once service req [] (or_intror H)).
Defined.

(** X21 on two invitations that differ in the job description and in
    whether the date is left out or given as [TBD]. *)
Lemma invitation_prompt_leaves_jd_out_witness :
  let req1 := email_request "accept" "Python" None in
  let req2 := email_request "accept" "Rust" (Some (lit "TBD")) in
  EmailRequest.jd_text req1 <> EmailRequest.jd_text req2
  /\ Endpoints._email_prompt req1 = Endpoints._email_prompt req2.
Proof.
  intros req1 req2.
  split; [vm_compute; discriminate|].
  exact (@invitation_prompt_leaves_jd_out req1 req2
           eq_refl eq_refl eq_refl eq_refl eq_refl eq_refl eq_refl).
Defined.

(** X22 on two rejections that differ in the job description and the
    interview date. *)
Lemma rejection_prompt_uses_three_fields_witness :
  let req1 := email_request "reject" "Python" None in
  let req2 := email_request "reject" "Rust" (Some (lit "Monday")) in
  (EmailRequest.status req1 <> lit "accept"
   /\ EmailRequest.status req2 <> lit "accept")
  /\ Endpoints._email_prompt req1 = Endpoints._email_prompt req2.
Proof.
  intros req1 req2.
  assert (H1 : EmailRequest.status req1 <> lit "accept")
    by (vm_compute; discriminate).
  assert (H2 : EmailRequest.status req2 <> lit "accept")
    by (vm_compute; discriminate).
  split; [split; [exact H1 | exact H2]|].
  exact (@rejection_prompt_uses_three_fields req1 req2 H1 H2
           eq_refl eq_refl eq_refl).
Defined.

End FurtherExamples.
